(** * ModeTonicEstimation: pitch distributions, alignment, distances, slicing

    A shallow embedding of [PitchDistribution.py] and [ModeFunctions.py].

    Numbers.  The source computes with binary64 floats.  Cent values and
    weights are embedded as canonical rationals ([Qc]): arithmetic is exact,
    and Leibniz equality coincides with numeric equality.  Every concrete
    input evaluated below is a dyadic rational on which the float operations
    of the source are exact as well.  Results of transcendental functions
    (roots, logarithms) are kept symbolically in [pynum].

    Objects.  [PitchDistribution] instances are mutable Python objects:
    [pd_zero_pad] reassigns their [vals] attribute.  They live in a store
    ([heap]) and are passed around by reference ([ref]).  numpy arrays are
    never updated in place once they are bound to an attribute, so they are
    embedded as immutable lists.

    Errors.  A Python exception is the [Raise] branch of [result]. *)

From Stdlib Require Import String ZArith QArith Qcanon Qround List Bool Lia
  Lqa Field.
Import ListNotations.

Set Implicit Arguments.

(* ================================================================= *)
(** ** Exceptions and the two monads *)

Inductive exn : Set :=
| AttributeError
| TypeError
| ValueError
| IndexError
| ZeroDivisionError
| OverflowError
| UnboundLocalError.

Inductive result (A : Type) : Type :=
| Ok (a : A)
| Raise (e : exn).

Arguments Ok {A} a.
Arguments Raise {A} e.

Definition rbind {A B : Type} (r : result A) (k : A -> result B) : result B :=
  match r with
  | Ok a => k a
  | Raise e => Raise e
  end.

Notation "'let!' x ':=' e 'in' k" := (rbind e (fun x => k))
  (at level 10, x pattern, e at level 100, k at level 200).

(** Sequential evaluation of a fallible function over a list. *)
Fixpoint rmap {A B : Type} (f : A -> result B) (l : list A) : result (list B) :=
  match l with
  | [] => Ok []
  | x :: l' =>
      let! y := f x in
      let! ys := rmap f l' in
      Ok (y :: ys)
  end.

(** A [for] loop with a fallible body and an accumulated state. *)
Fixpoint rfold {A S : Type} (body : S -> A -> result S) (l : list A) (s : S)
  : result S :=
  match l with
  | [] => Ok s
  | x :: l' => let! s' := body s x in rfold body l' s'
  end.

(* ================================================================= *)
(** ** Numbers *)

Definition qc (q : Q) : Qc := Q2Qc q.
Definition Qc_of_Z (z : Z) : Qc := Q2Qc (inject_Z z).

Definition Qc_eqb (x y : Qc) : bool := Qeq_bool x y.
Definition Qc_ltb (x y : Qc) : bool :=
  match Qccompare x y with Lt => true | _ => false end.
Definition Qc_leb (x y : Qc) : bool :=
  match Qccompare x y with Gt => false | _ => true end.

Definition Qcabs (x : Qc) : Qc := if Qc_ltb x 0 then (- x)%Qc else x.
Definition Qcmin (x y : Qc) : Qc := if Qc_ltb y x then y else x.

Definition Qcsum (l : list Qc) : Qc := fold_left Qcplus l 0%Qc.

(** [int(x)]: truncation towards zero. *)
Definition py_int (x : Qc) : Z :=
  if Qc_ltb x 0 then Qceiling x else Qfloor x.

(** [round(x)] of Python 2: to the nearest integer, halves away from zero;
    the result is still a float. *)
Definition py_round (x : Qc) : Qc :=
  if Qc_ltb x 0
  then Qc_of_Z (Qceiling (x - qc (1 # 2))%Qc)
  else Qc_of_Z (Qfloor (x + qc (1 # 2))%Qc).

(** [a % b] on floats with a positive divisor: the result lies in [[0, b)]. *)
Definition py_mod (a b : Qc) : Qc :=
  (a - b * Qc_of_Z (Qfloor (a / b)%Qc))%Qc.

(* ================================================================= *)
(** ** Built-ins on sequences *)

Section Extremum.
Variable A : Type.
Variable ltb : A -> A -> bool.

(** [min(l)] and [max(l)]: [ValueError] on an empty sequence. *)
Definition py_min (l : list A) : result A :=
  match l with
  | [] => Raise ValueError
  | x :: l' => Ok (fold_left (fun m y => if ltb y m then y else m) l' x)
  end.

Definition py_max (l : list A) : result A :=
  match l with
  | [] => Raise ValueError
  | x :: l' => Ok (fold_left (fun m y => if ltb m y then y else m) l' x)
  end.
End Extremum.

Definition min_cents := py_min Qc_ltb.
Definition max_cents := py_max Qc_ltb.
Definition min_int := py_min Z.ltb.
Definition max_int := py_max Z.ltb.

(** Normalisation of a slice bound against a sequence of length [n]:
    negative bounds count from the end, everything is clipped to [[0, n]]. *)
Definition slice_bound (n : nat) (k : Z) : nat :=
  if (k <? 0)%Z then Z.to_nat (Z.max 0 (Z.of_nat n + k))
  else Nat.min (Z.to_nat k) n.

(** [l[lo:hi]]; a missing bound is [None]. *)
Definition py_slice {A : Type} (l : list A) (lo hi : option Z) : list A :=
  let n := length l in
  let a := match lo with Some k => slice_bound n k | None => 0%nat end in
  let b := match hi with Some k => slice_bound n k | None => n end in
  firstn (b - a) (skipn a l).

(** [l[i]] with numpy's index rules: a negative index counts from the end,
    an index outside the sequence is an [IndexError]. *)
Definition py_getitem {A : Type} (l : list A) (i : Z) : result A :=
  let j := if (i <? 0)%Z then (Z.of_nat (length l) + i)%Z else i in
  if (j <? 0)%Z then Raise IndexError
  else match nth_error l (Z.to_nat j) with
       | Some x => Ok x
       | None => Raise IndexError
       end.

Fixpoint list_set {A : Type} (l : list A) (i : nat) (x : A) : list A :=
  match l, i with
  | [], _ => []
  | _ :: l', O => x :: l'
  | y :: l', S i' => y :: list_set l' i' x
  end.

(** [a[i] += x] on a numpy array. *)
Definition np_add_at (a : list Qc) (i : Z) (x : Qc) : result (list Qc) :=
  let j := if (i <? 0)%Z then (Z.of_nat (length a) + i)%Z else i in
  let! old := py_getitem a i in
  Ok (list_set a (Z.to_nat j) (old + x)%Qc).

Definition np_zeros (n : Z) : list Qc := repeat 0%Qc (Z.to_nat n).

(** [np.arange(start, stop, step)]: [ceil((stop - start) / step)] values
    [start + i * step], none when that count is not positive. *)
Definition np_arange (start stop step : Qc) : result (list Qc) :=
  if Qc_eqb step 0 then Raise ZeroDivisionError
  else
    let n := Z.to_nat (Qceiling ((stop - start) / step)%Qc) in
    Ok (map (fun i => (start + Qc_of_Z (Z.of_nat i) * step)%Qc) (seq 0 n)).

(** [x in a] for a numeric array. *)
Definition np_contains (x : Qc) (a : list Qc) : bool := existsb (Qc_eqb x) a.

(** Element-wise binary operation with numpy broadcasting of 1-D arrays. *)
Fixpoint zip_with {A B C : Type} (f : A -> B -> C) (l1 : list A) (l2 : list B)
  : list C :=
  match l1, l2 with
  | x :: l1', y :: l2' => f x y :: zip_with f l1' l2'
  | _, _ => []
  end.

Definition np_broadcast (f : Qc -> Qc -> Qc) (a b : list Qc) : result (list Qc) :=
  if Nat.eqb (length a) (length b) then Ok (zip_with f a b)
  else match a, b with
       | [x], _ => Ok (map (f x) b)
       | _, [y] => Ok (map (fun x => f x y) a)
       | _, _ => Raise ValueError
       end.

(** [set(a)]: the distinct elements of [a]. *)
Fixpoint py_set (a : list Qc) : list Qc :=
  match a with
  | [] => []
  | x :: a' => if np_contains x a' then py_set a' else x :: py_set a'
  end.

(** [set(a) - set(b)]. *)
Definition set_difference (a b : list Qc) : list Qc :=
  py_set (filter (fun x => negb (np_contains x b)) a).

(** [np.where(cond)[0]]: the indices at which the condition holds. *)
Definition np_where {A : Type} (cond : A -> bool) (a : list A) : list Z :=
  map (fun i => Z.of_nat i)
      (filter (fun i => match nth_error a i with
                        | Some x => cond x
                        | None => false
                        end)
              (seq 0 (length a))).

(* ================================================================= *)
(** ** PitchDistribution.py: the data entity *)

(** [segmentation]: ['all'] or a pair of seconds such as [[30, 60]]. *)
Inductive segment_t : Type :=
| SegAll
| SegRange (start_sec end_sec : Qc).

(** [overlap]: ['-'] or a ratio between 0 and 1. *)
Inductive overlap_t : Type :=
| OverlapNone
| OverlapRatio (r : Qc).

Record PitchDistribution : Type := mkPitchDistribution {
  bins : list Qc;
  vals : list Qc;
  ref_freq : Qc;
  kernel_width : Qc;
  segmentation : segment_t;
  source : string;
  overlap : overlap_t;
  step_size : Qc
}.

(** [PitchDistribution.__init__]: stores its arguments and derives
    [step_size] from the first two bins, quantised to one decimal. *)
Definition PitchDistribution_init (pd_bins pd_vals : list Qc) (kw : Qc)
    (src : string) (rf : Qc) (segment : segment_t) (ovl : overlap_t)
  : result PitchDistribution :=
  let! b1 := py_getitem pd_bins 1 in
  let! b0 := py_getitem pd_bins 0 in
  let temp_ss := (b1 - b0)%Qc in
  let rounded := (py_round (temp_ss * qc 10) / qc 10)%Qc in
  Ok {| bins := pd_bins;
        vals := pd_vals;
        ref_freq := rf;
        kernel_width := kw;
        segmentation := segment;
        source := src;
        overlap := ovl;
        step_size := if Qc_eqb temp_ss rounded then temp_ss else rounded |}.

(** [is_pcd]: [max(bins) == 1200 - step_size and min(bins) == 0]. *)
Definition is_pcd (self : PitchDistribution) : result bool :=
  let! mx := max_cents (bins self) in
  if Qc_eqb mx (qc 1200 - step_size self)%Qc
  then (let! mn := min_cents (bins self) in Ok (Qc_eqb mn 0%Qc))
  else Ok false.

(** The values computed by [shift] before the new instance is built. *)
Definition shifted_vals (pcd : bool) (v : list Qc) (shift_idx : Z) : list Qc :=
  if pcd then
    py_slice v (Some shift_idx) None ++ py_slice v None (Some shift_idx)
  else if (shift_idx >? 0)%Z then
    py_slice v (Some shift_idx) None ++ np_zeros shift_idx
  else
    np_zeros (Z.abs shift_idx) ++ py_slice v None (Some shift_idx).

(* ================================================================= *)
(** ** The object store *)

Definition ref : Set := nat.
Definition heap : Type := list PitchDistribution.

(** Computations that read and write the store and may raise. *)
Definition M (A : Type) : Type := heap -> result (A * heap).

Definition ret {A : Type} (a : A) : M A := fun h => Ok (a, h).

Definition bind {A B : Type} (m : M A) (k : A -> M B) : M B :=
  fun h => match m h with
           | Ok (a, h') => k a h'
           | Raise e => Raise e
           end.

Definition lift {A : Type} (r : result A) : M A :=
  fun h => match r with
           | Ok a => Ok (a, h)
           | Raise e => Raise e
           end.

Notation "'do' x '<-' e ';' k" := (bind e (fun x => k))
  (at level 10, x pattern, e at level 100, k at level 200).

(** Attribute access through a reference.  A reference outside the store
    cannot be written in Python; the embedding raises [AttributeError]. *)
Definition deref (r : ref) : M PitchDistribution :=
  fun h => match nth_error h r with
           | Some p => Ok (p, h)
           | None => Raise AttributeError
           end.

Definition with_vals (p : PitchDistribution) (v : list Qc) : PitchDistribution :=
  {| bins := bins p;
     vals := v;
     ref_freq := ref_freq p;
     kernel_width := kernel_width p;
     segmentation := segmentation p;
     source := source p;
     overlap := overlap p;
     step_size := step_size p |}.

(** [obj.vals = v]. *)
Definition set_vals (r : ref) (v : list Qc) : M unit :=
  fun h => match nth_error h r with
           | Some p => Ok (tt, list_set h r (with_vals p v))
           | None => Raise AttributeError
           end.

(** [PitchDistribution(...)]: runs [__init__] and allocates the instance. *)
Definition new_PitchDistribution (pd_bins pd_vals : list Qc) (kw : Qc)
    (src : string) (rf : Qc) (segment : segment_t) (ovl : overlap_t) : M ref :=
  fun h =>
    let! p := PitchDistribution_init pd_bins pd_vals kw src rf segment ovl in
    Ok (length h, h ++ [p]).

Fixpoint mfold {A S : Type} (body : S -> A -> M S) (l : list A) (s : S) : M S :=
  match l with
  | [] => ret s
  | x :: l' => do s' <- body s x; mfold body l' s'
  end.

(** [PitchDistribution.shift]. *)
Definition shift (self : ref) (shift_idx : Z) : M ref :=
  do p <- deref self;
  if negb (shift_idx =? 0)%Z then
    do pcd <- lift (is_pcd p);
    new_PitchDistribution (bins p) (shifted_vals pcd (vals p) shift_idx)
      (kernel_width p) (source p) (ref_freq p) (segmentation p) (overlap p)
  else
    new_PitchDistribution (bins p) (vals p)
      (kernel_width p) (source p) (ref_freq p) (segmentation p) (overlap p).

(* ================================================================= *)
(** ** ModeFunctions.py: building distributions *)

Definition half (x : Qc) : Qc := (x / qc 2)%Qc.

(** [generate_pd], lines 44-55: the edges handed to [np.histogram]. *)
Definition generate_pd_edges (cent_track : list Qc) (step : Qc)
  : result (list Qc) :=
  let! mn := min_cents cent_track in
  let min_edge := (mn - half step)%Qc in
  let! mx := max_cents cent_track in
  let max_edge := (mx + half step)%Qc in
  let! below := np_arange (half (- step)) min_edge (- step)%Qc in
  let! above := np_arange (half step) max_edge step in
  let pd_edges := rev below ++ above in
  let pd_edges :=
    if np_contains (half (- step)) pd_edges then pd_edges
    else half (- step) :: pd_edges in
  let pd_edges :=
    if np_contains (half step) pd_edges then pd_edges
    else pd_edges ++ [half step] in
  Ok pd_edges.

(** The counting step of [np.histogram(cent_track, bins=pd_edges)]: every
    bin is closed on the left and open on the right, the last one is closed
    on both sides; a sample outside the edges is counted nowhere. *)
Fixpoint histogram_counts (samples edges : list Qc) : list nat :=
  match edges with
  | lo :: (hi :: rest) as tl =>
      let inside x :=
        Qc_leb lo x &&
        (match rest with [] => Qc_leb x hi | _ => Qc_ltb x hi end) in
      length (filter inside samples) :: histogram_counts samples tl
  | _ => []
  end.

(** [range(n)]. *)
Definition py_range (n : nat) : list Z := map Z.of_nat (seq 0 n).

(** [generate_pcd]. *)
Definition generate_pcd (pd : ref) : M ref :=
  do p <- deref pd;
  do pcd_bins <- lift (np_arange 0%Qc (qc 1200) (step_size p));
  let pcd_vals := np_zeros (Z.of_nat (length pcd_bins)) in
  do pcd_vals <- lift (rfold (fun (acc : list Qc) (k : Z) =>
       let! b := py_getitem (bins p) k in
       let idx := py_int (py_mod b (qc 1200) / step_size p)%Qc in
       let idx := if negb (idx =? 160)%Z then idx else 0%Z in
       let! v := py_getitem (vals p) k in
       np_add_at acc idx v)
     (py_range (length (bins p))) pcd_vals);
  new_PitchDistribution pcd_bins pcd_vals
    (kernel_width p) (source p) (ref_freq p) (segmentation p) (overlap p).

(* ================================================================= *)
(** ** ModeFunctions.py: distances *)

(** A Python float that is the value of a distance.  Roots and logarithms
    are not evaluated. *)
Inductive pynum : Type :=
| Rat (q : Qc)
| Root (p : positive) (q : Qc)      (* [q ** (1.0 / p)] *)
| NegLogSumSqrt (terms : list Qc)   (* [-log(sum(sqrt(terms)))] *)
| NonFinite.                        (* [inf] or [nan] *)

(** What can be passed to and returned by [distance]. *)
Inductive pyval : Type :=
| VNum (x : pynum)
| VArr (a : list Qc)
| VObj (r : ref).

(** The module-level name [distance] is bound twice while the module body
    runs: by the import of line 4, then by the [def] of line 160. *)
Inductive pyobject : Set :=
| ScipySpatialDistance
| DistanceFunction.

Inductive scipy_function : Set :=
| ScipyEuclidean
| ScipyMinkowski.

Definition module_bindings : list (string * pyobject) :=
  [ ("distance"%string, ScipySpatialDistance);
    ("distance"%string, DistanceFunction) ].

(** The binding in force once the module is loaded: the last one. *)
Definition global_lookup (name : string) : result pyobject :=
  fold_left (fun found b => if String.eqb (fst b) name then Ok (snd b) else found)
            module_bindings (Raise UnboundLocalError).

(** [obj.name].  A function object has no attribute [euclidean] or
    [minkowski]. *)
Definition py_getattr (o : pyobject) (name : string) : result scipy_function :=
  match o with
  | ScipySpatialDistance =>
      if String.eqb name "euclidean" then Ok ScipyEuclidean
      else if String.eqb name "minkowski" then Ok ScipyMinkowski
      else Raise AttributeError
  | DistanceFunction => Raise AttributeError
  end.

Definition Qcpow (x : Qc) (p : positive) : Qc := Qcpower x (Pos.to_nat p).

(** [scipy.spatial.distance.minkowski(u, v, p)]; [euclidean] is [p = 2]. *)
Definition scipy_minkowski (u v : pyval) (p : positive) : result pyval :=
  match u, v with
  | VArr a, VArr b =>
      if Nat.eqb (length a) (length b)
      then Ok (VNum (Root p
             (Qcsum (zip_with (fun x y => Qcpow (Qcabs (x - y)%Qc) p) a b))))
      else Raise ValueError
  | _, _ => Raise ValueError
  end.

Definition call_scipy (f : scipy_function) (u v : pyval) (p : positive)
  : result pyval :=
  match f with
  | ScipyEuclidean => scipy_minkowski u v 2
  | ScipyMinkowski => scipy_minkowski u v p
  end.

(** [len(x)]: an instance of the old-style class has no [__len__]. *)
Definition py_len (x : pyval) : result nat :=
  match x with
  | VArr a => Ok (length a)
  | VObj _ => Raise AttributeError
  | VNum _ => Raise TypeError
  end.

(** Element-wise numpy operation on two values. *)
Definition np_elementwise (f : Qc -> Qc -> Qc) (x y : pyval)
  : result (list Qc) :=
  match x, y with
  | VArr a, VArr b => np_broadcast f a b
  | _, _ => Raise TypeError
  end.

Definition dot (a b : list Qc) : Qc := Qcsum (zip_with Qcmult a b).

(** [np.correlate(a, v)] in its default mode ['valid']. *)
Definition np_correlate (x y : pyval) : result (list Qc) :=
  match x, y with
  | VArr a, VArr v =>
      match a, v with
      | [], _ | _, [] => Raise ValueError
      | _, _ =>
          if Nat.leb (length v) (length a)
          then Ok (map (fun k => dot (skipn k a) v)
                       (seq 0 (length a - length v + 1)))
          else Ok (rev (map (fun k => dot (skipn k v) a)
                            (seq 0 (length v - length a + 1))))
      end
  | _, _ => Raise ValueError
  end.

(** [distance]. *)
Definition distance (vals_1 vals_2 : pyval) (method : string) : result pyval :=
  if String.eqb method "euclidean" then
    let! obj := global_lookup "distance" in
    let! f := py_getattr obj "euclidean" in
    call_scipy f vals_1 vals_2 2
  else if String.eqb method "manhattan" then
    let! obj := global_lookup "distance" in
    let! f := py_getattr obj "minkowski" in
    call_scipy f vals_1 vals_2 1
  else if String.eqb method "l3" then
    let! obj := global_lookup "distance" in
    let! f := py_getattr obj "minkowski" in
    call_scipy f vals_1 vals_2 3
  else if String.eqb method "bhat" then
    let! prods := np_elementwise Qcmult vals_1 vals_2 in
    if existsb (fun x => Qc_ltb x 0) prods then Ok (VNum NonFinite)
    else if forallb (fun x => Qc_eqb x 0) prods then Raise ValueError
    else Ok (VNum (NegLogSumSqrt prods))
  else if String.eqb method "intersection" then
    let! n := py_len vals_1 in
    let! mins := np_elementwise Qcmin vals_1 vals_2 in
    match mins with
    | [] => Raise ZeroDivisionError
    | _ =>
        if Qc_eqb (Qcsum mins) 0 then Ok (VNum NonFinite)
        else Ok (VNum (Rat (Qc_of_Z (Z.of_nat n) / Qcsum mins)%Qc))
    end
  else if String.eqb method "corr" then
    let! c := np_correlate vals_1 vals_2 in
    Ok (VArr (map (fun x => (1 - x)%Qc) c))
  else
    Ok (VNum (Rat 0%Qc)).

(** Storing a value into a cell of a float array. *)
Definition to_cell (v : pyval) : result pynum :=
  match v with
  | VNum x => Ok x
  | VArr [q] => Ok (Rat q)
  | VArr _ => Raise ValueError
  | VObj _ => Raise TypeError
  end.

(** A two-dimensional float array with its shape. *)
Record matrix : Type := mkMatrix {
  nrows : nat;
  ncols : nat;
  rows : list (list pynum)
}.

Definition matrix_zeros (n m : nat) : matrix :=
  {| nrows := n; ncols := m; rows := repeat (repeat (Rat 0%Qc) m) n |}.

(** [result[i][j] = x]. *)
Definition matrix_set (a : matrix) (i j : nat) (x : pynum) : matrix :=
  {| nrows := nrows a;
     ncols := ncols a;
     rows := match nth_error (rows a) i with
             | Some r => list_set (rows a) i (list_set r j x)
             | None => rows a
             end |}.

(** [a[:, 0]]. *)
Definition column0 (a : matrix) : result (list pynum) :=
  match ncols a with
  | O => Raise IndexError
  | S _ => rmap (fun r => match r with
                          | x :: _ => Ok x
                          | [] => Raise IndexError
                          end) (rows a)
  end.

(** [a[0]]. *)
Definition row0 (a : matrix) : result (list pynum) :=
  match rows a with
  | r :: _ => Ok r
  | [] => Raise IndexError
  end.

(** [enumerate(l)]. *)
Definition enumerate {A : Type} (l : list A) : list (nat * A) :=
  combine (seq 0 (length l)) l.

(** [generate_distance_matrix]. *)
Definition generate_distance_matrix (dist : ref) (peak_idxs : list Z)
    (mode_dists : list ref) (method : string) : M matrix :=
  mfold (fun (res : matrix) (ip : nat * Z) =>
           let (i, cur_peak_idx) := ip in
           do trial <- shift dist cur_peak_idx;
           mfold (fun (res : matrix) (jm : nat * ref) =>
                    let (j, cur_mode_dist) := jm in
                    do t <- deref trial;
                    do m <- deref cur_mode_dist;
                    do d <- lift (distance (VArr (vals t)) (VArr (vals m)) method);
                    do x <- lift (to_cell d);
                    ret (matrix_set res i j x))
                 (enumerate mode_dists) res)
        (enumerate peak_idxs)
        (matrix_zeros (length peak_idxs) (length mode_dists)).

(* ================================================================= *)
(** ** ModeFunctions.py: alignment and the two estimators *)

(** [len([x for x in diff_bins if x < min(own)])]: the minimum is taken
    anew for every element, hence never for an empty [diff_bins]. *)
Definition count_below (diff_bins own : list Qc) : result nat :=
  let! keep := rmap (fun x => let! mn := min_cents own in Ok (Qc_ltb x mn))
                    diff_bins in
  Ok (length (filter (fun b : bool => b) keep)).

(** [len([x for x in diff_bins if x > max(own)])]. *)
Definition count_above (diff_bins own : list Qc) : result nat :=
  let! keep := rmap (fun x => let! mx := max_cents own in Ok (Qc_ltb mx x))
                    diff_bins in
  Ok (length (filter (fun b : bool => b) keep)).

Definition zeros (n : nat) : list Qc := np_zeros (Z.of_nat n).

(** [pd_zero_pad]; its [step_size] argument is not used by the body. *)
Definition pd_zero_pad (pd mode_pd : ref) (step : Qc) : M (ref * ref) :=
  do p <- deref pd;
  do m <- deref mode_pd;
  let diff_bins := set_difference (bins m) (bins p) in
  do num_left_missing <- lift (count_below diff_bins (bins p));
  do num_right_missing <- lift (count_above diff_bins (bins p));
  do _ <- set_vals pd (zeros num_left_missing ++ vals p ++ zeros num_right_missing);
  do p <- deref pd;
  do m <- deref mode_pd;
  let diff_bins := set_difference (bins p) (bins m) in
  do num_left_missing <- lift (count_below diff_bins (bins m));
  do num_right_missing <- lift (count_above diff_bins (bins m));
  do _ <- set_vals mode_pd
            (zeros num_left_missing ++ vals m ++ zeros num_right_missing);
  ret (pd, mode_pd).

(** [tonic_estimate]; [None] is the result of falling off the end of the
    function when [metric] is neither ['pcd'] nor ['pD']. *)
Definition tonic_estimate (dist : ref) (peak_idxs : list Z) (mode_dist : ref)
    (distance_method metric : string) (step : Qc) : M (option (list pynum)) :=
  if String.eqb metric "pcd" then
    do res <- generate_distance_matrix dist peak_idxs [mode_dist] distance_method;
    do col <- lift (column0 res);
    ret (Some col)
  else if String.eqb metric "pD" then
    do d <- deref dist;
    do temp <- new_PitchDistribution (bins d) (vals d) (kernel_width d)
                 (source d) (ref_freq d) (segmentation d) OverlapNone;
    do padded <- pd_zero_pad temp mode_dist step;
    let (temp, mode_dist) := padded in
    do hi <- lift (max_int peak_idxs);
    do t <- deref temp;
    do lo <- lift (min_int peak_idxs);
    do _ <- set_vals temp
              (np_zeros (Z.abs hi) ++ vals t ++ np_zeros (Z.abs lo));
    do hi <- lift (max_int peak_idxs);
    do m <- deref mode_dist;
    do lo <- lift (min_int peak_idxs);
    do _ <- set_vals mode_dist
              (np_zeros (Z.abs hi) ++ vals m ++ np_zeros (Z.abs lo));
    do res <- generate_distance_matrix temp peak_idxs [mode_dist] distance_method;
    do col <- lift (column0 res);
    ret (Some col)
  else
    ret None.

(** [mode_estimate]; with an unknown [metric] the local [distance_vector]
    is read before any assignment. *)
Definition mode_estimate (dist : ref) (mode_dists : list ref)
    (distance_method metric : string) (step : Qc) : M (list pynum) :=
  if String.eqb metric "pcd" then
    do res <- generate_distance_matrix dist [0%Z] mode_dists distance_method;
    lift (row0 res)
  else if String.eqb metric "pD" then
    let distance_vector := repeat (Rat 0%Qc) (length mode_dists) in
    mfold (fun (distance_vector : list pynum) (i : nat) =>
             do d <- deref dist;
             do trial <- new_PitchDistribution (bins d) (vals d) (kernel_width d)
                           (source d) (ref_freq d) (segmentation d) OverlapNone;
             do mode_i <- lift (py_getitem mode_dists (Z.of_nat i));
             do padded <- pd_zero_pad trial mode_i step;
             let (trial, mode_trial) := padded in
             do v <- lift (distance (VObj trial) (VObj mode_trial) distance_method);
             do x <- lift (to_cell v);
             ret (list_set distance_vector i x))
          (seq 0 (length mode_dists)) distance_vector
  else
    lift (Raise UnboundLocalError).

(* ================================================================= *)
(** ** ModeFunctions.py: slicing a pitch track *)

Definition chunk_info_t : Type := (string * Z * Z)%type.

Record slice_state : Type := mkSliceState {
  chunks : list (list Qc);
  chunk_info : list chunk_info_t;
  last : Z
}.

(** [max(np.where(time_track < bound)[0])]. *)
Definition last_index_below (time_track : list Qc) (bound : Qc) : result Z :=
  max_int (np_where (fun t => Qc_ltb t bound) time_track).

(** The body of the main loop of [slice]. *)
Definition slice_step (time_track pitch_track : list Qc) (pt_source : string)
    (chunk_size ovl : Qc) (st : slice_state) (k : Z) : result slice_state :=
  let! j := last_index_below time_track (chunk_size * Qc_of_Z k)%Qc in
  let cur := (1 + j)%Z in
  let chunk := py_slice pitch_track (Some (last st)) (Some (cur - 1)%Z) in
  let! t_first := py_getitem time_track (last st) in
  let! t_final := py_getitem time_track (cur - 1)%Z in
  let info := (pt_source, py_int (py_round t_first), py_int (py_round t_final)) in
  let! next :=
    if Qc_ltb 0 ovl
    then (let! j' := last_index_below time_track
                       (chunk_size * Qc_of_Z k * (1 - ovl))%Qc in
          Ok (1 + j')%Z)
    else Ok cur in
  Ok {| chunks := chunks st ++ [chunk];
        chunk_info := chunk_info st ++ [info];
        last := next |}.

(** [np.arange(1, n)] on integers. *)
Definition arange_from_1 (n : Z) : list Z :=
  map (fun i => Z.of_nat (S i)) (seq 0 (Z.to_nat (n - 1))).

(** [slice]. *)
Definition slice (time_track pitch_track : list Qc) (pt_source : string)
    (chunk_size threshold ovl : Qc)
  : result (list (list Qc) * list chunk_info_t) :=
  let! mx := max_cents time_track in
  if Qc_eqb chunk_size 0 then Raise OverflowError
  else
    let n := (py_int (mx / chunk_size)%Qc + 1)%Z in
    let! st := rfold (slice_step time_track pitch_track pt_source chunk_size ovl)
                     (arange_from_1 n)
                     {| chunks := []; chunk_info := []; last := 0%Z |} in
    let! t_last := py_getitem time_track (last st) in
    let! t_end := py_getitem time_track (Z.of_nat (length time_track) - 1)%Z in
    if Qc_leb (chunk_size * threshold)%Qc (mx - t_last)%Qc then
      Ok (chunks st ++ [py_slice pitch_track (Some (last st)) None],
          chunk_info st ++
            [(pt_source, py_int (py_round t_last), py_int (py_round t_end))])
    else if (last st =? 0)%Z then
      Ok (chunks st ++ [pitch_track],
          chunk_info st ++ [(pt_source, 0%Z, py_int (py_round t_end))])
    else
      Ok (chunks st, chunk_info st).

(* ================================================================= *)
(** ** Invariants, the spec's reading of two operations, sample inputs *)

(** The class invariant: the instance is what its constructor returns on its
    own attributes.  [__init__] establishes it, and it survives every
    assignment of the program, which only ever rebinds [vals]. *)
Definition constructed (p : PitchDistribution) : Prop :=
  PitchDistribution_init (bins p) (vals p) (kernel_width p) (source p)
    (ref_freq p) (segmentation p) (overlap p) = Ok p.

(** The method names dispatched on by [distance]. *)
Definition recognised_methods : list string :=
  [ "euclidean"; "manhattan"; "l3"; "bhat"; "intersection"; "corr" ]%string.

(** [n] consecutive integers from [a], and the bins they index on a grid of
    spacing [s]: the shape of the bins built by [generate_pd]. *)
Definition zrange (a : Z) (n : nat) : list Z :=
  map (fun i => (a + Z.of_nat i)%Z) (seq 0 n).

Definition on_grid (s : Qc) (k : Z) : Qc := (Qc_of_Z k * s)%Qc.

Definition grid (s : Qc) (a : Z) (n : nat) : list Qc :=
  map (on_grid s) (zrange a n).

(** Octave folding as the specification words it: the wrap-around index is
    the number of bins, [1200 / step_size]. *)
Definition foldToPitchClass_spec (pd : ref) : M ref :=
  do p <- deref pd;
  do pcd_bins <- lift (np_arange 0%Qc (qc 1200) (step_size p));
  let num_bins := Z.of_nat (length pcd_bins) in
  let pcd_vals := np_zeros num_bins in
  do pcd_vals <- lift (rfold (fun (acc : list Qc) (k : Z) =>
       let! b := py_getitem (bins p) k in
       let idx := Qfloor (py_mod b (qc 1200) / step_size p)%Qc in
       let idx := if (idx =? num_bins)%Z then 0%Z else idx in
       let! v := py_getitem (vals p) k in
       np_add_at acc idx v)
     (py_range (length (bins p))) pcd_vals);
  new_PitchDistribution pcd_bins pcd_vals
    (kernel_width p) (source p) (ref_freq p) (segmentation p) (overlap p).

(** Mode estimation on pitch distributions as the specification words it:
    the distance is taken between the two padded value sequences. *)
Definition estimateMode_pitch_spec (dist : ref) (mode_dists : list ref)
    (distance_method : string) (step : Qc) : M (list pynum) :=
  mfold (fun (distance_vector : list pynum) (i : nat) =>
           do d <- deref dist;
           do trial <- new_PitchDistribution (bins d) (vals d) (kernel_width d)
                         (source d) (ref_freq d) (segmentation d) OverlapNone;
           do mode_i <- lift (py_getitem mode_dists (Z.of_nat i));
           do padded <- pd_zero_pad trial mode_i step;
           let (trial, mode_trial) := padded in
           do t <- deref trial;
           do m <- deref mode_trial;
           do v <- lift (distance (VArr (vals t)) (VArr (vals m)) distance_method);
           do x <- lift (to_cell v);
           ret (list_set distance_vector i x))
        (seq 0 (length mode_dists)) (repeat (Rat 0%Qc) (length mode_dists)).

Definition cents (l : list Z) : list Qc := map Qc_of_Z l.

Definition sample_pd (b v : list Qc) (step : Qc) : PitchDistribution :=
  {| bins := b;
     vals := v;
     ref_freq := qc 440;
     kernel_width := qc (15 # 2);
     segmentation := SegAll;
     source := "recording"%string;
     overlap := OverlapNone;
     step_size := step |}.

(** A distribution with 5-cent bins from 0 to 805 cents, whose weight lies
    in its last two bins, 800 and 805. *)
Definition pd_step5 : PitchDistribution :=
  sample_pd (grid (qc 5) 0 162) (zeros 160 ++ cents [1; 2]%Z) (qc 5).

(** A recording over bins 0 and 7.5 and a template over -7.5, 0 and 7.5. *)
Definition pd_recording : PitchDistribution :=
  sample_pd (grid (qc (15 # 2)) 0 2) [qc (1 # 2); qc (1 # 2)] (qc (15 # 2)).

Definition pd_template : PitchDistribution :=
  sample_pd (grid (qc (15 # 2)) (-1) 3)
            [qc (1 # 4); qc (1 # 2); qc (1 # 4)] (qc (15 # 2)).

Definition heap_two : heap := [pd_recording; pd_template].

(** A pitch-class distribution with three bins of 400 cents. *)
Definition pcd_three : PitchDistribution :=
  sample_pd (cents [0; 400; 800]%Z) (cents [1; 2; 3]%Z) (qc 400).

(** A four-second pitch track sampled once per second. *)
Definition track_times : list Qc := cents [0; 1; 2; 3]%Z.
Definition track_pitches : list Qc := cents [10; 11; 12; 13]%Z.

(* ================================================================= *)
(** ** ModeFunctions.py: [generate_pd] as a whole, and [hz_to_cent] *)

(** Sum of two sequences, the shorter one continued with zeros. *)
Fixpoint padd (a b : list Qc) : list Qc :=
  match a, b with
  | [], _ => b
  | _, [] => a
  | x :: a', y :: b' => (x + y)%Qc :: padd a' b'
  end.

(** The full discrete convolution: cell [k] is the sum of [a[i] * v[k - i]]. *)
Fixpoint convolve_full (a v : list Qc) : list Qc :=
  match a with
  | [] => []
  | x :: a' => padd (map (Qcmult x) v) (0%Qc :: convolve_full a' v)
  end.

(** [np.convolve(a, v)] in its default mode ['full']. *)
Definition np_convolve (a v : list Qc) : result (list Qc) :=
  match a, v with
  | [], _ | _, [] => Raise ValueError
  | _, _ => Ok (convolve_full a v)
  end.

(** [generate_pd], line 59: the bins are the midpoints of the edges. *)
Definition generate_pd_bins (pd_edges : list Qc) : result (list Qc) :=
  let! c := np_convolve pd_edges [qc (1 # 2); qc (1 # 2)] in
  Ok (py_slice c (Some 1%Z) (Some (-1)%Z)).

Section GeneratePd.
(** Three library functions are taken as given: the density histogram of
    numpy ([np.histogram(x, bins=edges, density=True)[0]]), the normal
    density of scipy.stats ([norm(loc=0, scale).pdf(x)]) and Simpson's rule
    of scipy.integrate ([simps(y, dx=dx)]). *)
Variable np_histogram_density : list Qc -> list Qc -> result (list Qc).
Variable norm_pdf : Qc -> Qc -> Qc.
Variable simps : list Qc -> Qc -> result Qc.

(** [generate_pd], lines 63-73: the kernel density estimate.  The division
    [len(sampled_norm)/2] is the integer division of Python 2.  A zero area
    makes numpy produce non-finite values, which rationals do not
    represent; nothing below depends on the values in that case. *)
Definition smoothed_vals (pd_vals : list Qc) (smooth_factor step : Qc)
  : result (list Qc) :=
  let! below := np_arange 0%Qc (- (qc 5 * smooth_factor))%Qc (- step)%Qc in
  let! above := np_arange step (qc 5 * smooth_factor)%Qc step in
  let xn := rev below ++ above in
  let sampled_norm := map (norm_pdf smooth_factor) xn in
  let extra_num_bins := (Z.of_nat (length sampled_norm) / 2)%Z in
  let! conv := np_convolve pd_vals sampled_norm in
  let pd_vals :=
    py_slice conv (Some extra_num_bins) (Some (- extra_num_bins)%Z) in
  let! area := simps pd_vals step in
  Ok (map (fun v => (v / area)%Qc) pd_vals).

(** [generate_pd]. *)
Definition generate_pd (cent_track : list Qc) (rf smooth_factor step : Qc)
    (src : string) (segment : segment_t) (ovl : overlap_t) : M ref :=
  do pd_edges <- lift (generate_pd_edges cent_track step);
  do pd_vals <- lift (np_histogram_density cent_track pd_edges);
  do pd_bins <- lift (generate_pd_bins pd_edges);
  do pd_vals <- lift (if Qc_ltb 0 smooth_factor
                      then smoothed_vals pd_vals smooth_factor step
                      else Ok pd_vals);
  if negb (Nat.eqb (length pd_bins) (length pd_vals))
  then lift (Raise ValueError)
  else new_PitchDistribution pd_bins pd_vals smooth_factor src rf segment ovl.

(** [np.log2] is taken as given. *)
Variable np_log2 : Qc -> Qc.

(** [hz_to_cent]: the entries that are not positive are removed first. *)
Definition hz_to_cent (hz_track : list Qc) (rf : Qc) : list Qc :=
  map (fun hz => (np_log2 (hz / rf) * qc 1200)%Qc)
      (filter (fun hz => Qc_ltb 0 hz) hz_track).
End GeneratePd.

(** The lower edge of the bin centred on [k * s]. *)
Definition lower_edge (s : Qc) (k : Z) : Qc := (on_grid s k - half s)%Qc.

(** The [n + 1] edges of the [n] bins [a .. a + n - 1]. *)
Definition bin_edges (s : Qc) (a : Z) (n : nat) : list Qc :=
  map (lower_edge s) (zrange a (S n)).

(** Stand-ins for the three library functions, to run [generate_pd] on
    sample inputs: the density numpy computes when at least one sample is
    counted, a constant kernel, and the rectangle rule. *)
Definition density_of_counts (samples edges : list Qc) : result (list Qc) :=
  let counts := map (fun c => Qc_of_Z (Z.of_nat c))
                    (histogram_counts samples edges) in
  let widths := zip_with (fun lo hi => (hi - lo)%Qc) edges (tl edges) in
  Ok (zip_with (fun c w => (c / Qcsum counts / w)%Qc) counts widths).

Definition flat_pdf (scale x : Qc) : Qc := 1%Qc.

Definition rectangle_rule (y : list Qc) (dx : Qc) : result Qc :=
  Ok (Qcsum y * dx)%Qc.

(** The number of values of [np.arange(start, stop, step)]. *)
Definition arange_count (start stop step : Qc) : nat :=
  Z.to_nat (Qceiling ((stop - start) / step)%Qc).

(** The track of the sample runs of [generate_pd], and a distribution over
    the bins -400, 0, ..., 1200 with step 400. *)
Definition track_cents : list Qc := cents [0; 10; 22; -13]%Z.

Definition pd_octaves : PitchDistribution :=
  sample_pd (grid (qc 400) (-1) 5) (cents [1; 2; 3; 4; 5]%Z) (qc 400).

(* ================================================================= *)
(** ** PitchDistribution.py: [detect_peaks] *)

(** [np.delete(a, [i])]: the array without position [i]; an index outside the
    array is an [IndexError]. *)
Definition np_delete {A : Type} (a : list A) (i : Z) : result (list A) :=
  let n := Z.of_nat (length a) in
  let j := if (i <? 0)%Z then (n + i)%Z else i in
  if ((j <? 0) || (n <=? j))%Z then Raise IndexError
  else Ok (firstn (Z.to_nat j) a ++ skipn (S (Z.to_nat j)) a).

Section DetectPeaks.
(** Essentia's [PeakDetection] with its default configuration is taken as
    given: from an array it computes the positions of the peaks, normalised
    to [[0, 1]], and their amplitudes. *)
Variable peak_detection : list Qc -> list Qc * list Qc.

(** The index of a normalised position among [n] bins. *)
Definition peak_index (n : nat) (bn : Qc) : Qc :=
  py_round (bn * Qc_of_Z (Z.of_nat n - 1))%Qc.

(** [detect_peaks]. *)
Definition detect_peaks (self : ref) : M (list Qc * list Qc) :=
  do p <- deref self;
  let (peak_bins, peak_vals) := peak_detection (vals p) in
  let peak_idxs := map (peak_index (length (bins p))) peak_bins in
  do first <- lift (py_getitem peak_idxs 0);
  if Qc_eqb first 0 then
    do peak_idxs' <- lift (np_delete peak_idxs
                             (Z.of_nat (length peak_idxs) - 1));
    do peak_vals' <- lift (np_delete peak_vals
                             (Z.of_nat (length peak_vals) - 1));
    ret (peak_idxs', peak_vals')
  else ret (peak_idxs, peak_vals).
End DetectPeaks.

(** A stand-in for the detector on sample inputs: it reports the given
    positions and amplitudes. *)
Definition peaks_at (positions amplitudes a : list Qc) : list Qc * list Qc :=
  (positions, amplitudes).

(* ================================================================= *)
(** ** Vocabulary of the further properties *)

(** [v'] is [v] with zeros added in front and behind. *)
Definition zero_padded (v v' : list Qc) : Prop :=
  exists l r : nat, v' = zeros l ++ v ++ zeros r.

(** For bins [a .. a + n - 1] and other bins [a' .. a' + n' - 1] of one
    grid: how many of the other bins lie below, and above, the own ones. *)
Definition missing_below (a a' : Z) (n' : nat) : nat :=
  Z.to_nat (Z.min a (a' + Z.of_nat n') - a').

Definition missing_above (a a' : Z) (n n' : nat) : nat :=
  Z.to_nat (a' + Z.of_nat n' - 1 - Z.max (a + Z.of_nat n - 1) (a' - 1)).

(** A distribution over bins 0, 7.5 and 15 whose first value is zero. *)
Definition pd_margin : PitchDistribution :=
  sample_pd (grid (qc (15 # 2)) 0 3) [qc 0; qc (1 # 2); qc (1 # 2)]
            (qc (15 # 2)).

(** A matrix with [n] rows of [m] cells each, and the shape to match. *)
Definition has_shape (n m : nat) (a : matrix) : Prop :=
  nrows a = n /\ ncols a = m /\ length (rows a) = n /\
  Forall (fun r => length r = m) (rows a).

(** One cell of the distance matrix: the distance between two value
    sequences, as it is stored into the float matrix. *)
Definition distance_cell (method : string) (v1 v2 : list Qc) : result pynum :=
  let! d := distance (VArr v1) (VArr v2) method in
  to_cell d.

(** The values of the instance that [shift] builds from [d]. *)
Definition trial_vals (d : PitchDistribution) (pcd : bool) (k : Z) : list Qc :=
  if (k =? 0)%Z then vals d else shifted_vals pcd (vals d) k.

(** One row of the distance matrix: a trial against every mode of the
    store [h], in order. *)
Definition distance_row (h : heap) (method : string) (mode_dists : list ref)
    (trial : list Qc) : result (list pynum) :=
  rmap (fun r => match nth_error h r with
                 | Some m => distance_cell method trial (vals m)
                 | None => Raise AttributeError
                 end) mode_dists.

(** The three methods that go through the scipy module. *)
Definition minkowski_methods : list string :=
  [ "euclidean"; "manhattan"; "l3" ]%string.

(** [int(max(time_track) / chunk_size)]: how many chunk boundaries the main
    loop of [slice] visits. *)
Definition boundaries (time_track : list Qc) (chunk_size : Qc) : result nat :=
  let! mx := max_cents time_track in
  Ok (Z.to_nat (py_int (mx / chunk_size)%Qc)).

(* ================================================================= *)
(** * Properties *)

(** ** Numbers and the monads *)

Lemma Qc_eqb_eq (x y : Qc) : Qc_eqb x y = true <-> x = y.
Proof.
  unfold Qc_eqb. rewrite Qeq_bool_iff. split.
  - apply Qc_is_canon.
  - intros ->. reflexivity.
Qed.

Lemma Qc_ltb_lt (x y : Qc) : Qc_ltb x y = true <-> (x < y)%Qc.
Proof.
  unfold Qc_ltb. rewrite Qclt_alt.
  destruct (x ?= y)%Qc; split; congruence.
Qed.

Lemma Qc_list_eq (l1 l2 : list Qc) : map this l1 = map this l2 -> l1 = l2.
Proof.
  revert l2. induction l1 as [|x l1 IH]; intros [|y l2] H; simpl in H;
    try discriminate; [reflexivity|].
  injection H as Hx Hl. f_equal; [now apply Qc_decomp | now apply IH].
Qed.

Lemma Qc_lists_eq (l1 l2 : list (list Qc)) :
  map (map this) l1 = map (map this) l2 -> l1 = l2.
Proof.
  revert l2. induction l1 as [|x l1 IH]; intros [|y l2] H; simpl in H;
    try discriminate; [reflexivity|].
  injection H as Hx Hl. f_equal; [now apply Qc_list_eq | now apply IH].
Qed.

Lemma nth_error_snoc {A : Type} (l : list A) (x : A) :
  nth_error (l ++ [x]) (length l) = Some x.
Proof.
  rewrite nth_error_app2 by lia. now rewrite Nat.sub_diag.
Qed.

Lemma nth_error_weaken {A : Type} (l : list A) (x y : A) (i : nat) :
  nth_error l i = Some y -> nth_error (l ++ [x]) i = Some y.
Proof.
  intros H. rewrite nth_error_app1; [assumption|].
  apply nth_error_Some. congruence.
Qed.

(** ** Python slices and the circular shift *)

Lemma slice_bound_le (n : nat) (k : Z) : (slice_bound n k <= n)%nat.
Proof.
  unfold slice_bound. destruct (k <? 0)%Z eqn:E; lia.
Qed.

Lemma py_slice_from {A : Type} (l : list A) (k : Z) :
  py_slice l (Some k) None = skipn (slice_bound (length l) k) l.
Proof.
  unfold py_slice. apply firstn_all2. rewrite length_skipn. lia.
Qed.

Lemma py_slice_upto {A : Type} (l : list A) (k : Z) :
  py_slice l None (Some k) = firstn (slice_bound (length l) k) l.
Proof.
  unfold py_slice. simpl. now rewrite Nat.sub_0_r.
Qed.

Lemma rotate_back {A : Type} (l : list A) (a b : nat) :
  (a <= length l)%nat -> b = (length l - a)%nat ->
  skipn b (skipn a l ++ firstn a l) ++ firstn b (skipn a l ++ firstn a l) = l.
Proof.
  intros Ha Hb.
  assert (Hlen : length (skipn a l) = b) by (rewrite length_skipn; lia).
  rewrite skipn_app, firstn_app, Hlen, Nat.sub_diag. simpl.
  rewrite <- Hlen at 1 2. rewrite skipn_all, firstn_all. simpl.
  rewrite app_nil_r. apply firstn_skipn.
Qed.

Lemma shifted_vals_circular_length (v : list Qc) (k : Z) :
  length (shifted_vals true v k) = length v.
Proof.
  unfold shifted_vals. rewrite py_slice_from, py_slice_upto.
  rewrite length_app, length_skipn, length_firstn.
  pose proof (slice_bound_le (length v) k). lia.
Qed.

Lemma shifted_vals_circular_inverse (v : list Qc) (k : Z) :
  shifted_vals true (shifted_vals true v k) (- k) = v.
Proof.
  pose proof (shifted_vals_circular_length v k) as Hlen.
  unfold shifted_vals in *.
  rewrite !py_slice_from, !py_slice_upto in *. rewrite Hlen.
  destruct (Z.eq_dec k 0) as [->|Hk].
  - simpl. unfold slice_bound. simpl.
    rewrite !app_nil_r. reflexivity.
  - apply rotate_back; [apply slice_bound_le|].
    unfold slice_bound.
    destruct (k <? 0)%Z eqn:E1; destruct (- k <? 0)%Z eqn:E2; lia.
Qed.

(** ** The class invariant *)

Lemma init_constructed (b v : list Qc) (kw : Qc) (src : string) (rf : Qc)
    (seg : segment_t) (ovl : overlap_t) (p : PitchDistribution) :
  PitchDistribution_init b v kw src rf seg ovl = Ok p -> constructed p.
Proof.
  unfold constructed, PitchDistribution_init. intros H.
  destruct (py_getitem b 1) as [b1|] eqn:E1; [|discriminate].
  destruct (py_getitem b 0) as [b0|] eqn:E0; [|discriminate].
  simpl in H. injection H as <-. simpl. rewrite E1, E0. reflexivity.
Qed.

Lemma init_with_vals (p : PitchDistribution) (v : list Qc) :
  constructed p ->
  PitchDistribution_init (bins p) v (kernel_width p) (source p) (ref_freq p)
    (segmentation p) (overlap p) = Ok (with_vals p v).
Proof.
  unfold constructed, PitchDistribution_init. intros H.
  destruct (py_getitem (bins p) 1) as [b1|]; [|discriminate].
  destruct (py_getitem (bins p) 0) as [b0|]; [|discriminate].
  simpl in *.
  apply (f_equal (fun r => match r with
                           | Ok q => step_size q
                           | Raise _ => 0%Qc
                           end)) in H.
  simpl in H. unfold with_vals. rewrite <- H. reflexivity.
Qed.

Lemma with_vals_self (p : PitchDistribution) : with_vals p (vals p) = p.
Proof. destruct p. reflexivity. Qed.

Lemma constructed_with_vals (p : PitchDistribution) (v : list Qc) :
  constructed p -> constructed (with_vals p v).
Proof.
  intros H. unfold constructed. simpl.
  rewrite (init_with_vals v H). reflexivity.
Qed.

Lemma constructed_two_bins (p : PitchDistribution) :
  constructed p -> (2 <= length (bins p))%nat.
Proof.
  unfold constructed, PitchDistribution_init. intros H.
  destruct (bins p) as [|b0 [|b1 l]]; simpl in *; try discriminate; lia.
Qed.

Lemma is_pcd_total (p : PitchDistribution) :
  constructed p -> exists b, is_pcd p = Ok b.
Proof.
  intros H. apply constructed_two_bins in H.
  unfold is_pcd. destruct (bins p) as [|b0 l]; simpl in *; [lia|].
  match goal with |- context [if ?c then _ else _] => destruct c end;
    eexists; reflexivity.
Qed.

(** What [shift] does on an instance that satisfies the class invariant. *)
Lemma shift_run (h : heap) (self : ref) (p : PitchDistribution) (k : Z)
    (pcd : bool) :
  nth_error h self = Some p -> constructed p -> is_pcd p = Ok pcd ->
  shift self k h =
  Ok (length h,
      h ++ [with_vals p (if (k =? 0)%Z then vals p
                         else shifted_vals pcd (vals p) k)]).
Proof.
  intros Hself Hc Hpcd. unfold shift, bind, deref. rewrite Hself.
  destruct (k =? 0)%Z; simpl.
  - unfold new_PitchDistribution. rewrite (init_with_vals _ Hc). reflexivity.
  - unfold lift. rewrite Hpcd. unfold new_PitchDistribution.
    rewrite (init_with_vals _ Hc). reflexivity.
Qed.

Lemma pcd_three_constructed : constructed pcd_three.
Proof. vm_compute. reflexivity. Qed.

Lemma pcd_three_is_pcd : is_pcd pcd_three = Ok true.
Proof. vm_compute. reflexivity. Qed.

(** ** [PitchDistribution.shift] *)

(** C10.  On an instance [pd] of the store that satisfies the class
    invariant, [shift(pd, k)] returns for every integer [k]: it allocates one
    new instance, leaves [pd] and every other instance of the store as they
    were, and the new instance has the [bins], [step_size], [kernel_width],
    [ref_freq], [segmentation], [source] and [overlap] of [pd]; only its
    [vals] may differ. *)
Theorem shift_frame (h : heap) (self : ref) (p : PitchDistribution) (k : Z) :
  nth_error h self = Some p ->
  constructed p ->
  exists p',
    shift self k h = Ok (length h, h ++ [p']) /\
    nth_error (h ++ [p']) (length h) = Some p' /\
    nth_error (h ++ [p']) self = Some p /\
    (forall r q, nth_error h r = Some q -> nth_error (h ++ [p']) r = Some q) /\
    bins p' = bins p /\
    step_size p' = step_size p /\
    kernel_width p' = kernel_width p /\
    ref_freq p' = ref_freq p /\
    segmentation p' = segmentation p /\
    source p' = source p /\
    overlap p' = overlap p.
Proof.
  intros Hself Hc.
  destruct (is_pcd_total Hc) as [pcd Hpcd].
  eexists. split; [apply (@shift_run h self p k pcd Hself Hc Hpcd)|].
  split; [apply nth_error_snoc|].
  split; [now apply nth_error_weaken|].
  split; [intros r q Hr; now apply nth_error_weaken|].
  repeat split.
Qed.

Lemma shift_frame_witness :
  exists p',
    shift 0%nat (-2)%Z [pcd_three] = Ok (1%nat, [pcd_three; p']) /\
    bins p' = bins pcd_three /\ step_size p' = step_size pcd_three.
Proof.
  destruct (@shift_frame [pcd_three] 0%nat pcd_three (-2)%Z)
    as [p' [Hrun [_ [_ [_ [Hb [Hs _]]]]]]].
  - reflexivity.
  - vm_compute. reflexivity.
  - exists p'. simpl in Hrun. auto.
Defined.

(** C9.  For a pitch-class distribution [pd] of the store ([is_pcd] true)
    and every integer [k], zero, beyond the number of bins or not, shifting
    by [k] and then shifting the result by [-k] both return, and the [vals]
    of the final instance are the [vals] of [pd]. *)
Theorem shift_circular_invertible (h : heap) (self : ref)
    (p : PitchDistribution) (k : Z) :
  nth_error h self = Some p ->
  constructed p ->
  is_pcd p = Ok true ->
  exists r1 h1 r2 h2 p2,
    shift self k h = Ok (r1, h1) /\
    shift r1 (- k) h1 = Ok (r2, h2) /\
    nth_error h2 r2 = Some p2 /\
    vals p2 = vals p.
Proof.
  intros Hself Hc Hpcd.
  pose proof (@shift_run h self p k true Hself Hc Hpcd) as H1.
  set (p1 := with_vals p (if (k =? 0)%Z then vals p
                          else shifted_vals true (vals p) k)) in *.
  assert (Hc1 : constructed p1) by now apply constructed_with_vals.
  assert (Hpcd1 : is_pcd p1 = Ok true) by exact Hpcd.
  pose proof (@shift_run (h ++ [p1]) (length h) p1 (- k) true
                (nth_error_snoc h p1) Hc1 Hpcd1) as H2.
  do 5 eexists. split; [exact H1|]. split; [exact H2|].
  split; [apply nth_error_snoc|].
  subst p1. simpl.
  destruct (Z.eqb_spec k 0) as [->|Hk].
  - reflexivity.
  - destruct (Z.eqb_spec (- k) 0) as [E|_]; [lia|].
    apply shifted_vals_circular_inverse.
Qed.

Lemma shift_circular_invertible_witness :
  exists r1 h1 r2 h2 p2,
    shift 0%nat 4%Z [pcd_three] = Ok (r1, h1) /\
    shift r1 (-4)%Z h1 = Ok (r2, h2) /\
    nth_error h2 r2 = Some p2 /\
    vals p2 = cents [1; 2; 3]%Z.
Proof.
  apply (@shift_circular_invertible [pcd_three] 0%nat pcd_three 4%Z).
  - reflexivity.
  - vm_compute. reflexivity.
  - vm_compute. reflexivity.
Defined.

(** ** [distance] *)

Lemma global_distance_is_the_function :
  global_lookup "distance" = Ok DistanceFunction.
Proof. reflexivity. Qed.

(** C1.  [distance(v1, v2, 'euclidean')] raises [AttributeError] on every
    pair of arguments: the name [distance] denotes the function itself, not
    the scipy module, so the lookup of [euclidean] fails before any
    arithmetic; [distance([0.0], [0.0], 'euclidean')] is one such call. *)
Theorem distance_euclidean_raises :
  (forall v1 v2 : pyval, distance v1 v2 "euclidean" = Raise AttributeError) /\
  distance (VArr [qc 0]) (VArr [qc 0]) "euclidean" = Raise AttributeError.
Proof.
  split; [intros v1 v2|]; reflexivity.
Qed.

Lemma distance_minkowski_raises (v1 v2 : pyval) :
  distance v1 v2 "manhattan" = Raise AttributeError /\
  distance v1 v2 "l3" = Raise AttributeError.
Proof. split; reflexivity. Qed.

(** C8.  For every method string outside euclidean, manhattan, l3, bhat,
    intersection and corr, [distance] returns 0 and raises nothing, whatever
    its two arguments are, sequences of unequal length included. *)
Theorem distance_unrecognised_method (v1 v2 : pyval) (method : string) :
  ~ In method recognised_methods ->
  distance v1 v2 method = Ok (VNum (Rat 0%Qc)).
Proof.
  intros H. unfold distance.
  repeat match goal with
         | |- context [String.eqb method ?m] =>
             destruct (String.eqb_spec method m) as [E|_];
             [exfalso; apply H; rewrite E; simpl; tauto|]
         end.
  reflexivity.
Qed.

Lemma distance_unrecognised_method_witness :
  distance (VArr (cents [1]%Z)) (VArr (cents [1; 2; 3]%Z)) "cosine"
  = Ok (VNum (Rat 0%Qc)).
Proof.
  apply distance_unrecognised_method.
  simpl. intros H.
  repeat (destruct H as [H|H]; [discriminate H|]).
  exact H.
Defined.

(** ** Evaluating the code on concrete inputs *)

Lemma nth_error_Qc (l : list Qc) (i : nat) (x : Qc) :
  option_map this (nth_error l i) = Some (this x) -> nth_error l i = Some x.
Proof.
  destruct (nth_error l i) as [y|]; simpl; [|discriminate].
  intros H. injection H as H. f_equal. now apply Qc_decomp.
Qed.

Lemma Ok_Qc_list (r : result (list Qc)) (l : list Qc) :
  match r with Ok l' => map this l' = map this l | Raise _ => False end ->
  r = Ok l.
Proof.
  destruct r as [l'|e]; [|tauto]. intros H. f_equal. now apply Qc_list_eq.
Qed.

Ltac by_evaluation := vm_compute; reflexivity.
Ltac qc_cell := apply nth_error_Qc; by_evaluation.

Lemma pd_step5_constructed : constructed pd_step5.
Proof. by_evaluation. Qed.

Lemma heap_two_constructed : Forall constructed heap_two.
Proof. repeat constructor; by_evaluation. Qed.

(** C2.  [generate_pcd] on the distribution with 5-cent bins from 0 to 805
    and values 1 at bin 800, 2 at bin 805 and 0 elsewhere: 240 bins are
    allocated, the source bin 800 has index [floor(800 / 5) = 160], which is
    not the number of bins, and its value is accumulated into [pcd_vals[0]]
    and not into [pcd_vals[160]]; folding with the wrap-around index
    [1200 / step_size] puts it into [pcd_vals[160]]. *)
Theorem generate_pcd_wraps_index_160 :
  constructed pd_step5 /\
  (exists r h p,
      generate_pcd 0%nat [pd_step5] = Ok (r, h) /\
      nth_error h r = Some p /\
      length (vals p) = 240%nat /\
      nth_error (vals p) 0 = Some (qc 1) /\
      nth_error (vals p) 160 = Some (qc 0) /\
      nth_error (vals p) 161 = Some (qc 2)) /\
  (exists r h p,
      foldToPitchClass_spec 0%nat [pd_step5] = Ok (r, h) /\
      nth_error h r = Some p /\
      length (vals p) = 240%nat /\
      nth_error (vals p) 0 = Some (qc 0) /\
      nth_error (vals p) 160 = Some (qc 1) /\
      nth_error (vals p) 161 = Some (qc 2)).
Proof.
  split; [exact pd_step5_constructed|].
  split.
  - do 3 eexists. split; [by_evaluation|]. split; [by_evaluation|].
    split; [by_evaluation|]. repeat split; qc_cell.
  - do 3 eexists. split; [by_evaluation|]. split; [by_evaluation|].
    split; [by_evaluation|]. repeat split; qc_cell.
Qed.

(** C6.  [generate_pd] on the cent track [[0, 10]] with step 10 builds the
    edges [[-5, 5]]: the largest edge lies below the largest sample, and the
    histogram over these edges counts one of the two samples. *)
Theorem generate_pd_edges_exclude_top_sample :
  generate_pd_edges (cents [0; 10]%Z) (qc 10) = Ok (cents [-5; 5]%Z) /\
  max_cents (cents [0; 10]%Z) = Ok (qc 10) /\
  max_cents (cents [-5; 5]%Z) = Ok (qc 5) /\
  (qc 5 < qc 10)%Qc /\
  histogram_counts (cents [0; 10]%Z) (cents [-5; 5]%Z) = [1%nat].
Proof.
  split; [apply Ok_Qc_list; by_evaluation|].
  repeat split; by_evaluation.
Qed.

(** C7.  [slice] on four samples taken at seconds 0, 1, 2, 3 with chunks of
    two seconds: the boundary at 2 seconds is crossed, the last sample below
    it has index 1, and the chunk emitted for it holds the sample of index 0
    only; the sample of index 1 is in no chunk. *)
Theorem slice_chunk_excludes_last_sample_below_boundary :
  last_index_below track_times (qc 2 * Qc_of_Z 1)%Qc = Ok 1%Z /\
  slice track_times track_pitches "recording" (qc 2) (qc (1 # 2)) (qc 0)
  = Ok ([cents [10]%Z; cents [12; 13]%Z],
        [("recording"%string, 0%Z, 1%Z); ("recording"%string, 2%Z, 3%Z)]).
Proof.
  split; by_evaluation.
Qed.

(** The chunk emitted by one iteration of the main loop stops before the
    last sample below the boundary. *)
Lemma slice_step_chunk (time_track pitch_track : list Qc) (pt_source : string)
    (chunk_size ovl : Qc) (st st' : slice_state) (k : Z) :
  slice_step time_track pitch_track pt_source chunk_size ovl st k = Ok st' ->
  exists j,
    last_index_below time_track (chunk_size * Qc_of_Z k)%Qc = Ok j /\
    chunks st' = chunks st ++ [py_slice pitch_track (Some (last st)) (Some j)].
Proof.
  unfold slice_step, rbind. intros H.
  destruct (last_index_below time_track (chunk_size * Qc_of_Z k)%Qc)
    as [j|] eqn:Ej; [|discriminate].
  destruct (py_getitem time_track (last st)); [|discriminate].
  destruct (py_getitem time_track (1 + j - 1)%Z); [|discriminate].
  exists j. split; [reflexivity|].
  replace (1 + j - 1)%Z with j in H by lia.
  destruct (Qc_ltb 0 ovl).
  - destruct (last_index_below time_track
                (chunk_size * Qc_of_Z k * (1 - ovl))%Qc); [|discriminate].
    injection H as <-. reflexivity.
  - injection H as <-. reflexivity.
Qed.

(** ** The estimators *)

Lemma distance_on_instances_raises (r1 r2 : ref) (method : string) :
  In method recognised_methods ->
  exists e, distance (VObj r1) (VObj r2) method = Raise e.
Proof.
  simpl. intros H.
  repeat (destruct H as [<-|H]; [eexists; reflexivity|]).
  contradiction.
Qed.

(** With metric ['pD'], a recognised method and at least one template,
    [mode_estimate] raises on every store: if the first iteration reaches
    [distance] at all, it hands it two instances. *)
Lemma mode_estimate_pD_recognised_method_raises (h : heap) (dist : ref)
    (mode_0 : ref) (others : list ref) (method : string) (step : Qc) :
  In method recognised_methods ->
  exists e, mode_estimate dist (mode_0 :: others) method "pD" step h = Raise e.
Proof.
  intros Hm. unfold mode_estimate. simpl.
  unfold bind at 1. unfold bind at 1.
  destruct (deref dist h) as [[d h1]|e]; [|eexists; reflexivity].
  unfold bind at 1.
  destruct (new_PitchDistribution _ _ _ _ _ _ _ h1) as [[trial h2]|e];
    [|eexists; reflexivity].
  unfold bind at 1. simpl.
  unfold bind at 1.
  destruct (pd_zero_pad trial mode_0 step h2) as [[[t m] h3]|e];
    [|eexists; reflexivity].
  unfold bind at 1, lift at 1.
  destruct (distance_on_instances_raises t m Hm) as [e He].
  rewrite He. eexists. reflexivity.
Qed.

(** C4.  [mode_estimate] with metric ['pD'] and method ['intersection'] on
    the recording over bins 0 and 7.5 and one template over bins -7.5, 0 and
    7.5 raises [AttributeError]: the two instances returned by [pd_zero_pad]
    are handed to [distance], not their [vals].  The distance between the
    two padded value sequences is 4. *)
Theorem mode_estimate_pD_passes_instances :
  Forall constructed heap_two /\
  mode_estimate 0%nat [1%nat] "intersection" "pD" (qc (15 # 2)) heap_two
  = Raise AttributeError /\
  exists h q,
    estimateMode_pitch_spec 0%nat [1%nat] "intersection" (qc (15 # 2)) heap_two
    = Ok ([Rat q], h) /\
    q = qc 4.
Proof.
  split; [exact heap_two_constructed|].
  split; [by_evaluation|].
  do 2 eexists. split; [by_evaluation|].
  apply Qc_is_canon. by_evaluation.
Qed.

Lemma tonic_estimate_pcd_no_candidate (h : heap) (dist mode_dist : ref)
    (method : string) (step : Qc) :
  tonic_estimate dist [] mode_dist method "pcd" step h = Ok (Some [], h).
Proof. reflexivity. Qed.

Lemma mode_estimate_pD_no_candidate (h : heap) (dist : ref)
    (method : string) (step : Qc) :
  mode_estimate dist [] method "pD" step h = Ok ([], h).
Proof. reflexivity. Qed.

Lemma mode_estimate_pcd_no_candidate (h : heap) (dist : ref)
    (p : PitchDistribution) (method : string) (step : Qc) :
  nth_error h dist = Some p -> constructed p ->
  mode_estimate dist [] method "pcd" step h = Ok ([], h ++ [p]).
Proof.
  intros Hd Hc.
  destruct (is_pcd_total Hc) as [pcd Hpcd].
  unfold mode_estimate, generate_distance_matrix. simpl.
  unfold bind.
  rewrite (@shift_run h dist p 0%Z pcd Hd Hc Hpcd). simpl.
  rewrite with_vals_self. reflexivity.
Qed.

(** C5.  [tonic_estimate] with metric ['pD'] and an empty [peak_idxs] never
    returns: whatever the store and the other arguments, it raises; on the
    recording and template of [heap_two] the exception is the [ValueError]
    of [max(peak_idxs)]. *)
Theorem tonic_estimate_pD_no_candidate_raises :
  (forall (h : heap) (dist mode_dist : ref) (method : string) (step : Qc),
      exists e, tonic_estimate dist [] mode_dist method "pD" step h = Raise e) /\
  Forall constructed heap_two /\
  tonic_estimate 0%nat [] 1%nat "euclidean" "pD" (qc (15 # 2)) heap_two
  = Raise ValueError.
Proof.
  split; [|split; [exact heap_two_constructed | by_evaluation]].
  intros h dist mode_dist method step.
  unfold tonic_estimate. simpl.
  unfold bind at 1.
  destruct (deref dist h) as [[d h1]|e]; [|eexists; reflexivity].
  unfold bind at 1.
  destruct (new_PitchDistribution _ _ _ _ _ _ _ h1) as [[temp h2]|e];
    [|eexists; reflexivity].
  unfold bind at 1.
  destruct (pd_zero_pad temp mode_dist step h2) as [[[t m] h3]|e];
    [|eexists; reflexivity].
  eexists. reflexivity.
Qed.

(* ================================================================= *)
(** ** [pd_zero_pad] *)

(** *** Counting in integer ranges *)

Lemma zrange_S (a : Z) (n : nat) : zrange a (S n) = a :: zrange (a + 1) n.
Proof.
  unfold zrange. simpl. rewrite <- seq_shift, map_map. f_equal.
  - lia.
  - apply map_ext. intros i. lia.
Qed.

Lemma zrange_In (k a : Z) (n : nat) :
  In k (zrange a n) <-> (a <= k < a + Z.of_nat n)%Z.
Proof.
  revert a. induction n as [|n IH]; intros a.
  - simpl. lia.
  - rewrite zrange_S. simpl. rewrite IH. lia.
Qed.

Lemma zrange_NoDup (a : Z) (n : nat) : NoDup (zrange a n).
Proof.
  revert a. induction n as [|n IH]; intros a.
  - constructor.
  - rewrite zrange_S. constructor; [|apply IH].
    rewrite zrange_In. lia.
Qed.

Lemma existsb_zrange (k a : Z) (n : nat) :
  existsb (Z.eqb k) (zrange a n) = ((a <=? k) && (k <? a + Z.of_nat n))%Z.
Proof.
  destruct (existsb (Z.eqb k) (zrange a n)) eqn:E.
  - apply existsb_exists in E. destruct E as [x [Hin Hx]].
    apply Z.eqb_eq in Hx. subst x. apply zrange_In in Hin.
    symmetry. apply andb_true_iff. split; [apply Z.leb_le | apply Z.ltb_lt]; lia.
  - symmetry. apply not_true_is_false. intros H.
    apply andb_true_iff in H. destruct H as [H1 H2].
    apply Z.leb_le in H1. apply Z.ltb_lt in H2.
    assert (Hex : existsb (Z.eqb k) (zrange a n) = true).
    { apply existsb_exists. exists k. split; [apply zrange_In; lia|].
      apply Z.eqb_refl. }
    congruence.
Qed.

Lemma count_below_zrange (c a : Z) (n : nat) :
  length (filter (fun k => (k <? c)%Z) (zrange a n))
  = Z.to_nat (Z.min c (a + Z.of_nat n) - a).
Proof.
  revert a. induction n as [|n IH]; intros a.
  - simpl. lia.
  - rewrite zrange_S. simpl. destruct (Z.ltb_spec a c); simpl; rewrite IH; lia.
Qed.

Lemma count_above_zrange (c a : Z) (n : nat) :
  length (filter (fun k => (c <? k)%Z) (zrange a n))
  = Z.to_nat (a + Z.of_nat n - 1 - Z.max c (a - 1)).
Proof.
  revert a. induction n as [|n IH]; intros a.
  - simpl. lia.
  - rewrite zrange_S. simpl. destruct (Z.ltb_spec c a); simpl; rewrite IH; lia.
Qed.

Lemma filter_absorb {A : Type} (f g : A -> bool) (l : list A) :
  (forall x, f x = true -> g x = true) ->
  filter f (filter g l) = filter f l.
Proof.
  intros H. induction l as [|x l IH]; simpl; [reflexivity|].
  destruct (g x) eqn:Eg; simpl.
  - now rewrite IH.
  - destruct (f x) eqn:Ef; [|assumption].
    apply H in Ef. congruence.
Qed.

Lemma filter_of_map {A B : Type} (f : B -> bool) (g : A -> B) (l : list A) :
  filter f (map g l) = map g (filter (fun x => f (g x)) l).
Proof.
  induction l as [|x l IH]; simpl; [reflexivity|].
  destruct (f (g x)); simpl; now rewrite IH.
Qed.

(** *** Bins on a grid *)

Lemma Qc_of_Z_lt (a b : Z) : (a < b)%Z -> (Qc_of_Z a < Qc_of_Z b)%Qc.
Proof.
  intros H. unfold Qclt, Qc_of_Z, Q2Qc. cbn [this].
  rewrite !Qred_correct. now rewrite <- Zlt_Qlt.
Qed.

Section Grid.
Variable s : Qc.
Hypothesis s_pos : (0 < s)%Qc.

Lemma on_grid_lt (a b : Z) : (a < b)%Z -> (on_grid s a < on_grid s b)%Qc.
Proof.
  intros H. unfold on_grid.
  apply Qcmult_lt_compat_r; [exact s_pos | now apply Qc_of_Z_lt].
Qed.

Lemma on_grid_ltb (a b : Z) :
  Qc_ltb (on_grid s a) (on_grid s b) = (a <? b)%Z.
Proof.
  destruct (Z.ltb_spec a b) as [H|H].
  - apply Qc_ltb_lt. now apply on_grid_lt.
  - destruct (Qc_ltb (on_grid s a) (on_grid s b)) eqn:E; [|reflexivity].
    apply Qc_ltb_lt in E. exfalso.
    destruct (Z.eq_dec a b) as [->|Hne].
    + now apply (@Qclt_not_eq _ _ E).
    + assert (Hba : (b < a)%Z) by lia.
      apply on_grid_lt in Hba.
      apply (@Qclt_not_le _ _ E). now apply Qclt_le_weak.
Qed.

Lemma on_grid_eqb (a b : Z) :
  Qc_eqb (on_grid s a) (on_grid s b) = (a =? b)%Z.
Proof.
  destruct (Z.eqb_spec a b) as [->|Hne].
  - now apply Qc_eqb_eq.
  - destruct (Qc_eqb (on_grid s a) (on_grid s b)) eqn:E; [|reflexivity].
    apply Qc_eqb_eq in E. exfalso.
    destruct (Z.lt_total a b) as [H|[H|H]]; [|contradiction|];
      apply on_grid_lt in H; apply Qclt_not_eq in H; congruence.
Qed.

Lemma np_contains_on_grid (k : Z) (l : list Z) :
  np_contains (on_grid s k) (map (on_grid s) l) = existsb (Z.eqb k) l.
Proof.
  unfold np_contains. induction l as [|x l IH]; simpl; [reflexivity|].
  now rewrite on_grid_eqb, IH.
Qed.

Lemma py_set_on_grid (l : list Z) :
  NoDup l -> py_set (map (on_grid s) l) = map (on_grid s) l.
Proof.
  induction 1 as [|x l Hx Hl IH]; simpl; [reflexivity|].
  rewrite np_contains_on_grid, IH.
  destruct (existsb (Z.eqb x) l) eqn:E; [|reflexivity].
  apply existsb_exists in E. destruct E as [y [Hy Exy]].
  apply Z.eqb_eq in Exy. subst y. contradiction.
Qed.

Lemma set_difference_on_grid (l1 l2 : list Z) :
  NoDup l1 ->
  set_difference (map (on_grid s) l1) (map (on_grid s) l2)
  = map (on_grid s) (filter (fun k => negb (existsb (Z.eqb k) l2)) l1).
Proof.
  intros H. unfold set_difference. rewrite filter_of_map.
  rewrite py_set_on_grid by now apply NoDup_filter.
  f_equal. apply filter_ext. intros k. now rewrite np_contains_on_grid.
Qed.

Lemma fold_min_on_grid (n : nat) (a m : Z) :
  (m < a)%Z ->
  fold_left (fun x y => if Qc_ltb y x then y else x)
            (map (on_grid s) (zrange a n)) (on_grid s m)
  = on_grid s m.
Proof.
  revert a. induction n as [|n IH]; intros a H; [reflexivity|].
  rewrite zrange_S. simpl. rewrite on_grid_ltb.
  destruct (Z.ltb_spec a m); [lia|]. apply IH. lia.
Qed.

Lemma fold_max_on_grid (n : nat) (a m : Z) :
  (m = a - 1)%Z ->
  fold_left (fun x y => if Qc_ltb x y then y else x)
            (map (on_grid s) (zrange a n)) (on_grid s m)
  = on_grid s (m + Z.of_nat n).
Proof.
  revert a m. induction n as [|n IH]; intros a m H.
  - simpl. f_equal. lia.
  - rewrite zrange_S. simpl fold_left. rewrite on_grid_ltb.
    destruct (Z.ltb_spec m a); [|lia].
    rewrite (IH (a + 1)%Z a) by lia. f_equal. lia.
Qed.

Lemma grid_inj (a a' : Z) (n n' : nat) :
  (0 < n)%nat -> grid s a n = grid s a' n' -> a = a' /\ n = n'.
Proof.
  intros Hn H.
  assert (Hlen : n = n').
  { apply (f_equal (@length Qc)) in H. unfold grid, zrange in H.
    now rewrite !length_map, !length_seq in H. }
  subst n'. split; [|reflexivity].
  destruct n as [|n]; [lia|].
  unfold grid in H. rewrite !zrange_S in H.
  apply (f_equal (fun l => hd 0%Qc l)) in H. cbn [map hd] in H.
  apply Z.eqb_eq. rewrite <- on_grid_eqb. now apply Qc_eqb_eq.
Qed.

Lemma min_cents_grid (a : Z) (n : nat) :
  (0 < n)%nat -> min_cents (grid s a n) = Ok (on_grid s a).
Proof.
  destruct n as [|n]; [lia|]. intros _.
  unfold grid. rewrite zrange_S. simpl. f_equal.
  apply fold_min_on_grid. lia.
Qed.

Lemma max_cents_grid (a : Z) (n : nat) :
  (0 < n)%nat ->
  max_cents (grid s a n) = Ok (on_grid s (a + Z.of_nat n - 1)).
Proof.
  destruct n as [|n]; [lia|]. intros _.
  unfold grid. rewrite zrange_S. simpl map. unfold max_cents, py_max.
  f_equal. rewrite (@fold_max_on_grid n (a + 1)%Z a) by lia. f_equal. lia.
Qed.
End Grid.

(** *** The number of missing bins *)

Lemma rmap_total {A B : Type} (f : A -> B) (g : A -> result B) (l : list A) :
  (forall x, g x = Ok (f x)) -> rmap g l = Ok (map f l).
Proof.
  intros H. induction l as [|x l IH]; simpl; [reflexivity|].
  rewrite H, IH. reflexivity.
Qed.

Lemma count_below_known (diff_bins own : list Qc) (mn : Qc) :
  min_cents own = Ok mn ->
  count_below diff_bins own
  = Ok (length (filter (fun x => Qc_ltb x mn) diff_bins)).
Proof.
  intros H. unfold count_below.
  rewrite (@rmap_total _ _ (fun x => Qc_ltb x mn)).
  - simpl. now rewrite filter_of_map, length_map.
  - intros x. now rewrite H.
Qed.

Lemma count_above_known (diff_bins own : list Qc) (mx : Qc) :
  max_cents own = Ok mx ->
  count_above diff_bins own
  = Ok (length (filter (fun x => Qc_ltb mx x) diff_bins)).
Proof.
  intros H. unfold count_above.
  rewrite (@rmap_total _ _ (fun x => Qc_ltb mx x)).
  - simpl. now rewrite filter_of_map, length_map.
  - intros x. now rewrite H.
Qed.

Section Missing.
Variable s : Qc.
Hypothesis s_pos : (0 < s)%Qc.
Variables a a' : Z.
Variables n n' : nat.
Hypothesis own_not_empty : (0 < n)%nat.

(** Bins of the other distribution that lie below the own bins. *)
Lemma missing_left :
  count_below (set_difference (grid s a' n') (grid s a n)) (grid s a n)
  = Ok (Z.to_nat (Z.min a (a' + Z.of_nat n') - a')).
Proof.
  rewrite (@count_below_known _ _ _ (@min_cents_grid s s_pos a n own_not_empty)).
  unfold grid. rewrite (@set_difference_on_grid s s_pos) by apply zrange_NoDup.
  rewrite filter_of_map, length_map. f_equal.
  rewrite (filter_ext _ (fun k => (k <? a)%Z))
    by (intros k; now apply on_grid_ltb).
  rewrite filter_absorb; [apply count_below_zrange|].
  intros k Hk. apply Z.ltb_lt in Hk. rewrite existsb_zrange.
  destruct (Z.leb_spec a k); [lia|reflexivity].
Qed.

(** Bins of the other distribution that lie above the own bins. *)
Lemma missing_right :
  count_above (set_difference (grid s a' n') (grid s a n)) (grid s a n)
  = Ok (Z.to_nat (a' + Z.of_nat n' - 1
                  - Z.max (a + Z.of_nat n - 1) (a' - 1))).
Proof.
  rewrite (@count_above_known _ _ _ (@max_cents_grid s s_pos a n own_not_empty)).
  unfold grid. rewrite (@set_difference_on_grid s s_pos) by apply zrange_NoDup.
  rewrite filter_of_map, length_map. f_equal.
  rewrite (filter_ext _ (fun k => (a + Z.of_nat n - 1 <? k)%Z))
    by (intros k; now apply on_grid_ltb).
  rewrite filter_absorb; [apply count_above_zrange|].
  intros k Hk. apply Z.ltb_lt in Hk. rewrite existsb_zrange.
  destruct (Z.ltb_spec k (a + Z.of_nat n)); [lia|].
  now rewrite andb_false_r.
Qed.
End Missing.

(** *** Assignments in the store *)

Lemma nth_error_list_set_eq {A : Type} (l : list A) (i : nat) (x y : A) :
  nth_error l i = Some y -> nth_error (list_set l i x) i = Some x.
Proof.
  revert i. induction l as [|z l IH]; intros [|i] H; simpl in *;
    try discriminate; [reflexivity | now apply IH].
Qed.

Lemma nth_error_list_set_neq {A : Type} (l : list A) (i j : nat) (x : A) :
  i <> j -> nth_error (list_set l i x) j = nth_error l j.
Proof.
  revert i j. induction l as [|z l IH]; intros [|i] [|j] H; simpl;
    try reflexivity; [contradiction | apply IH; congruence].
Qed.

Lemma length_zeros (k : nat) : length (zeros k) = k.
Proof.
  unfold zeros, np_zeros. rewrite repeat_length. lia.
Qed.

(** *** The claim and what the code does *)

(** C3, as claimed, fails on the recording over bins 0 and 7.5 and the
    template over bins -7.5, 0 and 7.5, which share their step and both
    contain bin 0: after [pd_zero_pad] the recording still has its two bins,
    so the two bin sets differ, and its three values outnumber its bins. *)
Lemma pd_zero_pad_bins_counterexample :
  step_size pd_recording = step_size pd_template /\
  In (qc 0) (bins pd_recording) /\
  In (qc 0) (bins pd_template) /\
  exists h p m,
    pd_zero_pad 0%nat 1%nat (qc (15 # 2)) heap_two = Ok ((0%nat, 1%nat), h) /\
    nth_error h 0 = Some p /\
    nth_error h 1 = Some m /\
    ~ (forall x, In x (bins p) <-> In x (bins m)) /\
    length (bins p) = 2%nat /\
    length (vals p) = 3%nat.
Proof.
  split; [reflexivity|].
  split; [left; apply Qc_is_canon; by_evaluation|].
  split; [right; left; apply Qc_is_canon; by_evaluation|].
  do 3 eexists.
  split; [by_evaluation|]. split; [by_evaluation|]. split; [by_evaluation|].
  split; [|split; by_evaluation].
  intros H.
  destruct (H (on_grid (qc (15 # 2)) (-1))) as [_ Hin].
  assert (Hm : In (on_grid (qc (15 # 2)) (-1))
                  (grid (qc (15 # 2)) (-1) 3)) by (left; reflexivity).
  apply Hin in Hm. simpl in Hm.
  destruct Hm as [E|[E|[]]];
    apply (f_equal this) in E; vm_compute in E; discriminate E.
Qed.

(** C3, amended.  Take two instances of the store whose bins lie on one
    grid of positive spacing [s], both containing bin 0, each with as many
    values as bins.  [pd_zero_pad] returns the same two instances; their
    bins are unchanged; the values of each are extended with zeros, on the
    left by the number of bins the other has below it and on the right by
    the number the other has above it; the two value sequences end up with
    the same length, the number of grid bins in the union of the two bin
    ranges. *)
Theorem pd_zero_pad_aligns_vals (h : heap) (pd mode_pd : ref)
    (p m : PitchDistribution) (s step : Qc) (a1 a2 : Z) (n1 n2 : nat) :
  nth_error h pd = Some p ->
  nth_error h mode_pd = Some m ->
  (0 < s)%Qc ->
  bins p = grid s a1 n1 ->
  bins m = grid s a2 n2 ->
  (a1 <= 0 < a1 + Z.of_nat n1)%Z ->
  (a2 <= 0 < a2 + Z.of_nat n2)%Z ->
  length (vals p) = n1 ->
  length (vals m) = n2 ->
  exists h' p' m',
    pd_zero_pad pd mode_pd step h = Ok ((pd, mode_pd), h') /\
    nth_error h' pd = Some p' /\
    nth_error h' mode_pd = Some m' /\
    bins p' = bins p /\
    bins m' = bins m /\
    vals p' = zeros (Z.to_nat (a1 - a2)) ++ vals p
              ++ zeros (Z.to_nat (a2 + Z.of_nat n2 - (a1 + Z.of_nat n1))) /\
    vals m' = zeros (Z.to_nat (a2 - a1)) ++ vals m
              ++ zeros (Z.to_nat (a1 + Z.of_nat n1 - (a2 + Z.of_nat n2))) /\
    length (vals p') = length (vals m') /\
    Z.of_nat (length (vals p'))
    = (Z.max (a1 + Z.of_nat n1) (a2 + Z.of_nat n2) - Z.min a1 a2)%Z.
Proof.
  intros Hp Hm Hs Hbp Hbm H1 H2 Hvp Hvm.
  assert (Hn1 : (0 < n1)%nat) by lia.
  assert (Hn2 : (0 < n2)%nat) by lia.
  destruct (Nat.eq_dec pd mode_pd) as [Heq|Hne].
  { (* the same instance is given twice: nothing is missing *)
    subst mode_pd. rewrite Hp in Hm. injection Hm as <-.
    rewrite Hbp in Hbm. destruct (@grid_inj s Hs a1 a2 n1 n2 Hn1 Hbm) as [<- <-].
    set (p1 := with_vals p (zeros 0 ++ vals p ++ zeros 0)).
    set (p2 := with_vals p1 (zeros 0 ++ vals p1 ++ zeros 0)).
    set (h1 := list_set h pd p1).
    assert (Hp1 : nth_error h1 pd = Some p1)
      by (apply (@nth_error_list_set_eq _ h pd p1 p Hp)).
    assert (Hv2 : vals p2 = vals p)
      by (subst p2 p1; simpl; now rewrite !app_nil_r).
    exists (list_set h1 pd p2), p2, p2.
    replace (Z.to_nat (a1 - a1)) with 0%nat by lia.
    replace (Z.to_nat (a1 + Z.of_nat n1 - (a1 + Z.of_nat n1)))
      with 0%nat by lia.
    split.
    - unfold pd_zero_pad, bind, deref, lift, set_vals, ret.
      rewrite Hp. cbv beta iota. rewrite Hp, Hbp.
      rewrite (@missing_left s Hs a1 a1 n1 n1 Hn1).
      rewrite (@missing_right s Hs a1 a1 n1 n1 Hn1).
      rewrite Hp.
      replace (Z.to_nat (Z.min a1 (a1 + Z.of_nat n1) - a1)) with 0%nat by lia.
      replace (Z.to_nat (a1 + Z.of_nat n1 - 1
                         - Z.max (a1 + Z.of_nat n1 - 1) (a1 - 1)))
        with 0%nat by lia.
      fold p1. fold h1. rewrite Hp1. cbv beta iota. rewrite Hp1.
      change (bins p1) with (bins p). rewrite Hbp.
      rewrite (@missing_left s Hs a1 a1 n1 n1 Hn1).
      rewrite (@missing_right s Hs a1 a1 n1 n1 Hn1).
      rewrite Hp1.
      replace (Z.to_nat (Z.min a1 (a1 + Z.of_nat n1) - a1)) with 0%nat by lia.
      replace (Z.to_nat (a1 + Z.of_nat n1 - 1
                         - Z.max (a1 + Z.of_nat n1 - 1) (a1 - 1)))
        with 0%nat by lia.
      reflexivity.
    - assert (Hp2 : nth_error (list_set h1 pd p2) pd = Some p2)
        by (apply (@nth_error_list_set_eq _ h1 pd p2 p1 Hp1)).
      split; [exact Hp2|]. split; [exact Hp2|].
      split; [reflexivity|]. split; [reflexivity|].
      rewrite Hv2. simpl. rewrite app_nil_r.
      split; [reflexivity|]. split; [reflexivity|].
      split; [reflexivity|]. lia. }
  set (p' := with_vals p
               (zeros (Z.to_nat (a1 - a2)) ++ vals p
                ++ zeros (Z.to_nat (a2 + Z.of_nat n2 - (a1 + Z.of_nat n1))))).
  set (m' := with_vals m
               (zeros (Z.to_nat (a2 - a1)) ++ vals m
                ++ zeros (Z.to_nat (a1 + Z.of_nat n1 - (a2 + Z.of_nat n2))))).
  set (h1 := list_set h pd p').
  assert (Hp1 : nth_error h1 pd = Some p')
    by (apply (@nth_error_list_set_eq _ h pd p' p Hp)).
  assert (Hm1 : nth_error h1 mode_pd = Some m)
    by (unfold h1; rewrite nth_error_list_set_neq; assumption).
  exists (list_set h1 mode_pd m'), p', m'.
  split.
  - unfold pd_zero_pad, bind, deref, lift, set_vals, ret.
    rewrite Hp, Hm, Hbp, Hbm.
    rewrite (@missing_left s Hs a1 a2 n1 n2 Hn1).
    rewrite (@missing_right s Hs a1 a2 n1 n2 Hn1).
    rewrite Hp.
    replace (Z.to_nat (Z.min a1 (a2 + Z.of_nat n2) - a2))
      with (Z.to_nat (a1 - a2)) by lia.
    replace (Z.to_nat (a2 + Z.of_nat n2 - 1
                       - Z.max (a1 + Z.of_nat n1 - 1) (a2 - 1)))
      with (Z.to_nat (a2 + Z.of_nat n2 - (a1 + Z.of_nat n1))) by lia.
    fold p'. fold h1. rewrite Hp1, Hm1.
    change (bins p') with (bins p). rewrite Hbp, Hbm.
    rewrite (@missing_left s Hs a2 a1 n2 n1 Hn2).
    rewrite (@missing_right s Hs a2 a1 n2 n1 Hn2).
    rewrite Hm1.
    replace (Z.to_nat (Z.min a2 (a1 + Z.of_nat n1) - a1))
      with (Z.to_nat (a2 - a1)) by lia.
    replace (Z.to_nat (a1 + Z.of_nat n1 - 1
                       - Z.max (a2 + Z.of_nat n2 - 1) (a1 - 1)))
      with (Z.to_nat (a1 + Z.of_nat n1 - (a2 + Z.of_nat n2))) by lia.
    reflexivity.
  - split; [rewrite nth_error_list_set_neq; auto|].
    split; [apply (@nth_error_list_set_eq _ h1 mode_pd m' m Hm1)|].
    split; [reflexivity|]. split; [reflexivity|].
    split; [reflexivity|]. split; [reflexivity|].
    subst p' m'. simpl.
    rewrite !length_app, !length_zeros, Hvp, Hvm. lia.
Qed.

Lemma pd_zero_pad_aligns_vals_witness :
  exists h' p' m',
    pd_zero_pad 0%nat 1%nat (qc (15 # 2)) heap_two = Ok ((0%nat, 1%nat), h') /\
    nth_error h' 0 = Some p' /\
    nth_error h' 1 = Some m' /\
    vals p' = qc 0 :: vals pd_recording /\
    vals m' = vals pd_template /\
    length (vals p') = 3%nat.
Proof.
  destruct (@pd_zero_pad_aligns_vals heap_two 0%nat 1%nat
              pd_recording pd_template (qc (15 # 2)) (qc (15 # 2))
              0%Z (-1)%Z 2%nat 3%nat)
    as [h' [p' [m' [Hrun [Hp [Hm [_ [_ [Hvp [Hvm [_ Hlen]]]]]]]]]]].
  - reflexivity.
  - reflexivity.
  - reflexivity.
  - reflexivity.
  - reflexivity.
  - lia.
  - lia.
  - reflexivity.
  - reflexivity.
  - exists h', p', m'. repeat split; try assumption. simpl in Hlen. lia.
Defined.

(* ================================================================= *)
(** * Further properties of the code *)

(** ** [shift]: rotation, zero fill, and their limits *)

Lemma rotation_nth {A : Type} (v : list A) (a i : nat) :
  (a <= length v)%nat -> (i < length v)%nat ->
  nth_error (skipn a v ++ firstn a v) i
  = nth_error v ((i + a) mod length v).
Proof.
  intros Ha Hi.
  destruct (Nat.lt_ge_cases i (length v - a)) as [H|H].
  - rewrite nth_error_app1 by (rewrite length_skipn; lia).
    rewrite nth_error_skipn, Nat.mod_small by lia. f_equal. lia.
  - rewrite nth_error_app2 by (rewrite length_skipn; lia).
    rewrite length_skipn, nth_error_firstn.
    destruct (Nat.ltb_spec (i - (length v - a)) a) as [_|H']; [|lia].
    f_equal.
    apply (Nat.mod_unique (i + a) (length v) 1); lia.
Qed.

Lemma slice_bound_mod (n : nat) (k : Z) (i : nat) :
  (- Z.of_nat n <= k <= Z.of_nat n)%Z -> (i < n)%nat ->
  ((i + slice_bound n k) mod n)%nat
  = Z.to_nat ((Z.of_nat i + k) mod Z.of_nat n).
Proof.
  intros Hk Hi. unfold slice_bound.
  assert (Hn : (0 < Z.of_nat n)%Z) by lia.
  destruct (Z.ltb_spec k 0) as [Hneg|Hpos].
  - replace (Z.of_nat i + k)%Z
      with (Z.of_nat (i + Z.to_nat (Z.max 0 (Z.of_nat n + k)))
            + (-1) * Z.of_nat n)%Z by lia.
    rewrite Z_mod_plus_full, <- Nat2Z.inj_mod, Nat2Z.id. reflexivity.
  - replace (Z.of_nat i + k)%Z
      with (Z.of_nat (i + Nat.min (Z.to_nat k) n)) by lia.
    rewrite <- Nat2Z.inj_mod, Nat2Z.id. reflexivity.
Qed.

(** X1.  On a pitch-class distribution a shift by [k] with [|k|] at most
    the number of values is the circular rotation: the new instance has as
    many values, and its value at position [i] is the old value at position
    [(i + k) mod n]. *)
Theorem shift_pcd_is_rotation (h : heap) (self : ref) (p : PitchDistribution)
    (k : Z) :
  nth_error h self = Some p ->
  constructed p ->
  is_pcd p = Ok true ->
  (Z.abs k <= Z.of_nat (length (vals p)))%Z ->
  exists p',
    shift self k h = Ok (length h, h ++ [p']) /\
    length (vals p') = length (vals p) /\
    forall i, (i < length (vals p))%nat ->
      nth_error (vals p') i
      = nth_error (vals p)
          (Z.to_nat ((Z.of_nat i + k) mod Z.of_nat (length (vals p)))).
Proof.
  intros Hself Hc Hpcd Hk.
  eexists. split; [apply (@shift_run h self p k true Hself Hc Hpcd)|].
  simpl. destruct (Z.eqb_spec k 0) as [->|Hk0].
  - split; [reflexivity|]. intros i Hi.
    rewrite Z.add_0_r, Z.mod_small, Nat2Z.id by lia. reflexivity.
  - split; [apply shifted_vals_circular_length|]. intros i Hi.
    unfold shifted_vals. rewrite py_slice_from, py_slice_upto.
    rewrite rotation_nth by (auto using slice_bound_le).
    f_equal. apply slice_bound_mod; lia.
Qed.

Lemma shift_pcd_is_rotation_witness :
  exists p',
    shift 0%nat 1%Z [pcd_three] = Ok (1%nat, [pcd_three; p']) /\
    nth_error (vals p') 2 = nth_error (vals pcd_three) 0.
Proof.
  destruct (@shift_pcd_is_rotation [pcd_three] 0%nat pcd_three 1%Z)
    as [p' [Hrun [_ Hnth]]].
  - reflexivity.
  - vm_compute. reflexivity.
  - vm_compute. reflexivity.
  - vm_compute. discriminate.
  - exists p'. split; [exact Hrun|]. apply (Hnth 2%nat). simpl. lia.
Defined.

(** X2.  On a pitch-class distribution a shift by [k] with [|k|] at least
    the number of values leaves the values as they are: the slices clip, so
    a shift by [n + 1] is not the rotation by one position. *)
Theorem shift_pcd_beyond_length_is_identity (h : heap) (self : ref)
    (p : PitchDistribution) (k : Z) :
  nth_error h self = Some p ->
  constructed p ->
  is_pcd p = Ok true ->
  (Z.of_nat (length (vals p)) <= Z.abs k)%Z ->
  exists p',
    shift self k h = Ok (length h, h ++ [p']) /\
    vals p' = vals p.
Proof.
  intros Hself Hc Hpcd Hk.
  eexists. split; [apply (@shift_run h self p k true Hself Hc Hpcd)|].
  simpl. destruct (Z.eqb_spec k 0) as [->|Hk0]; [reflexivity|].
  unfold shifted_vals. rewrite py_slice_from, py_slice_upto.
  unfold slice_bound. destruct (Z.ltb_spec k 0) as [Hneg|Hpos].
  - replace (Z.to_nat (Z.max 0 (Z.of_nat (length (vals p)) + k)))
      with 0%nat by lia.
    simpl. apply app_nil_r.
  - replace (Nat.min (Z.to_nat k) (length (vals p)))
      with (length (vals p)) by lia.
    now rewrite skipn_all, firstn_all.
Qed.

Lemma shift_pcd_beyond_length_is_identity_witness :
  exists p',
    shift 0%nat 4%Z [pcd_three] = Ok (1%nat, [pcd_three; p']) /\
    vals p' = vals pcd_three.
Proof.
  apply (@shift_pcd_beyond_length_is_identity [pcd_three] 0%nat pcd_three 4%Z).
  - reflexivity.
  - vm_compute. reflexivity.
  - vm_compute. reflexivity.
  - vm_compute. discriminate.
Defined.

Lemma length_np_zeros (z : Z) : length (np_zeros z) = Z.to_nat z.
Proof. unfold np_zeros. apply repeat_length. Qed.

Lemma pd_recording_constructed : constructed pd_recording.
Proof. by_evaluation. Qed.

Lemma pd_recording_not_pcd : is_pcd pd_recording = Ok false.
Proof. by_evaluation. Qed.

(** X3.  On a distribution that is not a pitch-class distribution a shift
    by [k] with [|k|] at most the number of values keeps that number; the
    value at position [i] is the old value at position [i + k] when that
    position exists, and zero otherwise: nothing wraps around. *)
Theorem shift_pd_zero_fills (h : heap) (self : ref) (p : PitchDistribution)
    (k : Z) :
  nth_error h self = Some p ->
  constructed p ->
  is_pcd p = Ok false ->
  (Z.abs k <= Z.of_nat (length (vals p)))%Z ->
  exists p',
    shift self k h = Ok (length h, h ++ [p']) /\
    length (vals p') = length (vals p) /\
    forall i, (i < length (vals p))%nat ->
      nth_error (vals p') i
      = if ((0 <=? Z.of_nat i + k) &&
            (Z.of_nat i + k <? Z.of_nat (length (vals p))))%Z
        then nth_error (vals p) (Z.to_nat (Z.of_nat i + k))
        else Some 0%Qc.
Proof.
  intros Hself Hc Hpcd Hk.
  eexists. split; [apply (@shift_run h self p k false Hself Hc Hpcd)|].
  simpl. set (n := length (vals p)) in *.
  destruct (Z.eqb_spec k 0) as [->|Hk0].
  - split; [reflexivity|]. intros i Hi.
    destruct (Z.leb_spec 0 (Z.of_nat i + 0)); [|lia].
    destruct (Z.ltb_spec (Z.of_nat i + 0) (Z.of_nat n)); [|lia].
    simpl. f_equal. lia.
  - unfold shifted_vals. rewrite py_slice_from, py_slice_upto. fold n.
    unfold slice_bound, np_zeros.
    destruct (Z.gtb_spec k 0) as [Hpos|Hneg].
    + destruct (Z.ltb_spec k 0); [lia|].
      replace (Nat.min (Z.to_nat k) n) with (Z.to_nat k) by lia.
      split; [rewrite length_app, length_skipn, repeat_length; lia|].
      intros i Hi.
      destruct (Z.leb_spec 0 (Z.of_nat i + k)); [|lia].
      destruct (Z.ltb_spec (Z.of_nat i + k) (Z.of_nat n)); simpl.
      * rewrite nth_error_app1 by (rewrite length_skipn; lia).
        rewrite nth_error_skipn. f_equal. lia.
      * rewrite nth_error_app2 by (rewrite length_skipn; lia).
        apply nth_error_repeat. rewrite length_skipn. lia.
    + destruct (Z.ltb_spec k 0); [|lia].
      replace (Z.to_nat (Z.max 0 (Z.of_nat n + k)))
        with (n - Z.to_nat (Z.abs k))%nat by lia.
      split.
      { rewrite length_app, length_firstn, repeat_length. lia. }
      intros i Hi.
      destruct (Z.leb_spec 0 (Z.of_nat i + k)); simpl.
      * destruct (Z.ltb_spec (Z.of_nat i + k) (Z.of_nat n)); [|lia].
        rewrite nth_error_app2 by (rewrite repeat_length; lia).
        rewrite repeat_length, nth_error_firstn.
        destruct (Nat.ltb_spec (i - Z.to_nat (Z.abs k))
                    (n - Z.to_nat (Z.abs k))); [|lia].
        f_equal. lia.
      * rewrite nth_error_app1 by (rewrite repeat_length; lia).
        apply nth_error_repeat. lia.
Qed.

Lemma shift_pd_zero_fills_witness :
  exists p',
    shift 0%nat 1%Z [pd_recording] = Ok (1%nat, [pd_recording; p']) /\
    nth_error (vals p') 0 = nth_error (vals pd_recording) 1 /\
    nth_error (vals p') 1 = Some 0%Qc.
Proof.
  destruct (@shift_pd_zero_fills [pd_recording] 0%nat pd_recording 1%Z)
    as [p' [Hrun [_ Hnth]]].
  - reflexivity.
  - vm_compute. reflexivity.
  - vm_compute. reflexivity.
  - vm_compute. discriminate.
  - exists p'. split; [exact Hrun|]. split.
    + apply (Hnth 0%nat). simpl. lia.
    + apply (Hnth 1%nat). simpl. lia.
Defined.

(** X4.  On a distribution that is not a pitch-class distribution a shift
    by [k] with [|k|] larger than the number of values returns [|k|] zeros:
    every value is lost and the instance has more values than bins. *)
Theorem shift_pd_beyond_length_is_all_zero (h : heap) (self : ref)
    (p : PitchDistribution) (k : Z) :
  nth_error h self = Some p ->
  constructed p ->
  is_pcd p = Ok false ->
  (Z.of_nat (length (vals p)) < Z.abs k)%Z ->
  exists p',
    shift self k h = Ok (length h, h ++ [p']) /\
    vals p' = np_zeros (Z.abs k) /\
    bins p' = bins p /\
    (length (bins p) = length (vals p) ->
     (length (bins p') < length (vals p'))%nat).
Proof.
  intros Hself Hc Hpcd Hk.
  eexists. split; [apply (@shift_run h self p k false Hself Hc Hpcd)|].
  cbn [vals bins with_vals]. destruct (Z.eqb_spec k 0) as [->|Hk0]; [lia|].
  assert (Hv : shifted_vals false (vals p) k = np_zeros (Z.abs k)).
  { unfold shifted_vals. rewrite py_slice_from, py_slice_upto.
    unfold slice_bound. destruct (Z.gtb_spec k 0) as [Hpos|Hneg].
    - destruct (Z.ltb_spec k 0); [lia|].
      replace (Nat.min (Z.to_nat k) (length (vals p)))
        with (length (vals p)) by lia.
      rewrite skipn_all. simpl. f_equal. lia.
    - destruct (Z.ltb_spec k 0); [|lia].
      replace (Z.to_nat (Z.max 0 (Z.of_nat (length (vals p)) + k)))
        with 0%nat by lia.
      simpl. apply app_nil_r. }
  cbv iota. rewrite Hv. split; [reflexivity|]. split; [reflexivity|].
  intros Hlen. unfold np_zeros. rewrite repeat_length. lia.
Qed.

Lemma shift_pd_beyond_length_is_all_zero_witness :
  exists p',
    shift 0%nat (-3)%Z [pd_recording] = Ok (1%nat, [pd_recording; p']) /\
    vals p' = [0%Qc; 0%Qc; 0%Qc].
Proof.
  destruct (@shift_pd_beyond_length_is_all_zero [pd_recording] 0%nat
              pd_recording (-3)%Z) as [p' [Hrun [Hv _]]].
  - reflexivity.
  - vm_compute. reflexivity.
  - vm_compute. reflexivity.
  - vm_compute. reflexivity.
  - exists p'. split; [exact Hrun | exact Hv].
Defined.

(** X5.  On a distribution that is not a pitch-class distribution, shifting
    by [k] and back by [-k] restores the values provided the [|k|] values
    that leave the window are zeros: the first [k] values for a positive
    [k], the last [|k|] values for a negative one. *)
Theorem shift_pd_round_trip_with_zero_margin (h : heap) (self : ref)
    (p : PitchDistribution) (k : Z) :
  nth_error h self = Some p ->
  constructed p ->
  is_pcd p = Ok false ->
  (Z.abs k <= Z.of_nat (length (vals p)))%Z ->
  (0 < k ->
   firstn (Z.to_nat k) (vals p) = np_zeros k)%Z ->
  (k < 0 ->
   skipn (length (vals p) - Z.to_nat (- k)) (vals p) = np_zeros (- k))%Z ->
  exists r1 h1 r2 h2 p2,
    shift self k h = Ok (r1, h1) /\
    shift r1 (- k) h1 = Ok (r2, h2) /\
    nth_error h2 r2 = Some p2 /\
    vals p2 = vals p.
Proof.
  intros Hself Hc Hpcd Hk Hfront Hback.
  pose proof (@shift_run h self p k false Hself Hc Hpcd) as H1.
  set (p1 := with_vals p (if (k =? 0)%Z then vals p
                          else shifted_vals false (vals p) k)) in *.
  assert (Hc1 : constructed p1) by now apply constructed_with_vals.
  assert (Hpcd1 : is_pcd p1 = Ok false) by exact Hpcd.
  pose proof (@shift_run (h ++ [p1]) (length h) p1 (- k) false
                (nth_error_snoc h p1) Hc1 Hpcd1) as H2.
  do 5 eexists. split; [exact H1|]. split; [exact H2|].
  split; [apply nth_error_snoc|].
  subst p1. cbn [vals with_vals]. set (n := length (vals p)) in *.
  destruct (Z.eqb_spec k 0) as [->|Hk0]; [reflexivity|].
  destruct (Z.eqb_spec (- k) 0) as [E|_]; [lia|]. cbv iota.
  destruct (Z.lt_total k 0) as [Hneg|[E|Hpos]]; [|lia|].
  - (* to the right, then back to the left *)
    specialize (Hback Hneg).
    assert (E1 : shifted_vals false (vals p) k
                 = np_zeros (- k) ++ firstn (n - Z.to_nat (- k)) (vals p)).
    { unfold shifted_vals. rewrite py_slice_upto. fold n. unfold slice_bound.
      destruct (Z.gtb_spec k 0); [lia|]. destruct (Z.ltb_spec k 0); [|lia].
      f_equal; [f_equal; lia | f_equal; lia]. }
    rewrite E1. unfold shifted_vals.
    destruct (Z.gtb_spec (- k) 0); [|lia].
    rewrite py_slice_from. unfold slice_bound.
    destruct (Z.ltb_spec (- k) 0); [lia|].
    rewrite length_app, length_np_zeros, length_firstn. fold n.
    replace (Nat.min (Z.to_nat (- k))
               (Z.to_nat (- k) + Nat.min (n - Z.to_nat (- k)) n))
      with (Z.to_nat (- k)) by lia.
    rewrite skipn_app, length_np_zeros, Nat.sub_diag.
    rewrite skipn_all2 by (rewrite length_np_zeros; lia).
    simpl. rewrite <- Hback. apply firstn_skipn.
  - (* to the left, then back to the right *)
    specialize (Hfront Hpos).
    assert (E1 : shifted_vals false (vals p) k
                 = skipn (Z.to_nat k) (vals p) ++ np_zeros k).
    { unfold shifted_vals. rewrite py_slice_from. fold n. unfold slice_bound.
      destruct (Z.gtb_spec k 0); [|lia]. destruct (Z.ltb_spec k 0); [lia|].
      do 2 f_equal. lia. }
    rewrite E1. unfold shifted_vals.
    destruct (Z.gtb_spec (- k) 0); [lia|].
    rewrite py_slice_upto. unfold slice_bound.
    destruct (Z.ltb_spec (- k) 0); [|lia].
    rewrite length_app, length_np_zeros, length_skipn. fold n.
    replace (Z.to_nat (Z.max 0 (Z.of_nat (n - Z.to_nat k + Z.to_nat k) + - k)))
      with (n - Z.to_nat k)%nat by lia.
    rewrite firstn_app, length_skipn. fold n. rewrite Nat.sub_diag. simpl.
    rewrite app_nil_r, firstn_all2 by (rewrite length_skipn; lia).
    replace (Z.abs (- k)) with k by lia.
    rewrite <- Hfront. apply firstn_skipn.
Qed.

Lemma shift_pd_round_trip_with_zero_margin_witness :
  exists r1 h1 r2 h2 p2,
    shift 0%nat 1%Z [pd_margin] = Ok (r1, h1) /\
    shift r1 (-1)%Z h1 = Ok (r2, h2) /\
    nth_error h2 r2 = Some p2 /\
    vals p2 = vals pd_margin.
Proof.
  apply (@shift_pd_round_trip_with_zero_margin [pd_margin] 0%nat pd_margin 1%Z).
  - reflexivity.
  - vm_compute. reflexivity.
  - vm_compute. reflexivity.
  - vm_compute. discriminate.
  - intros _. reflexivity.
  - intros H. discriminate H.
Defined.

(** X6.  [shift(pd, 0)] returns a new instance, not [pd] itself, that is
    equal to [pd] attribute by attribute. *)
Theorem shift_zero_is_a_copy (h : heap) (self : ref) (p : PitchDistribution) :
  nth_error h self = Some p ->
  constructed p ->
  exists r h',
    shift self 0 h = Ok (r, h') /\
    r <> self /\
    nth_error h' r = Some p /\
    nth_error h' self = Some p.
Proof.
  intros Hself Hc.
  destruct (is_pcd_total Hc) as [pcd Hpcd].
  exists (length h), (h ++ [p]).
  split.
  - rewrite (@shift_run h self p 0%Z pcd Hself Hc Hpcd). simpl.
    now rewrite with_vals_self.
  - split; [|split; [apply nth_error_snoc | now apply nth_error_weaken]].
    assert (self < length h)%nat by (apply nth_error_Some; congruence).
    lia.
Qed.

Lemma shift_zero_is_a_copy_witness :
  exists r h',
    shift 0%nat 0%Z [pd_margin] = Ok (r, h') /\
    r <> 0%nat /\
    nth_error h' r = Some pd_margin /\
    nth_error h' 0 = Some pd_margin.
Proof.
  apply (@shift_zero_is_a_copy [pd_margin] 0%nat pd_margin).
  - reflexivity.
  - vm_compute. reflexivity.
Defined.

(** ** [pd_zero_pad]: what it touches and how its results line up *)

Lemma bind_Ok {A B : Type} (m : M A) (k : A -> M B) (h h' : heap) (b : B) :
  bind m k h = Ok (b, h') ->
  exists a h1, m h = Ok (a, h1) /\ k a h1 = Ok (b, h').
Proof.
  unfold bind. destruct (m h) as [[a h1]|e]; [|discriminate].
  intros H. now exists a, h1.
Qed.

Lemma lift_Ok {A : Type} (r : result A) (h h' : heap) (a : A) :
  lift r h = Ok (a, h') -> r = Ok a /\ h' = h.
Proof.
  unfold lift. destruct r; [|discriminate].
  intros H. injection H as -> ->. now split.
Qed.

Lemma deref_Ok (r : ref) (h h' : heap) (p : PitchDistribution) :
  deref r h = Ok (p, h') -> nth_error h r = Some p /\ h' = h.
Proof.
  unfold deref. destruct (nth_error h r); [|discriminate].
  intros H. injection H as -> ->. now split.
Qed.

Lemma set_vals_Ok (r : ref) (v : list Qc) (h h' : heap) (u : unit) :
  set_vals r v h = Ok (u, h') ->
  exists q, nth_error h r = Some q /\ h' = list_set h r (with_vals q v).
Proof.
  unfold set_vals. destruct (nth_error h r) as [q|]; [|discriminate].
  intros H. injection H as _ <-. now exists q.
Qed.

Lemma ret_Ok {A : Type} (a b : A) (h h' : heap) :
  ret a h = Ok (b, h') -> b = a /\ h' = h.
Proof.
  unfold ret. intros H. injection H as <- <-. now split.
Qed.

Lemma length_list_set {A : Type} (l : list A) (i : nat) (x : A) :
  length (list_set l i x) = length l.
Proof.
  revert i. induction l as [|y l IH]; intros [|i]; simpl; auto.
Qed.

Lemma list_set_comm {A : Type} (l : list A) (i j : nat) (x y : A) :
  i <> j ->
  list_set (list_set l i x) j y = list_set (list_set l j y) i x.
Proof.
  revert i j. induction l as [|z l IH]; intros [|i] [|j] H; simpl;
    try reflexivity; [contradiction|].
  f_equal. apply IH. congruence.
Qed.

Lemma zeros_app (a b : nat) : zeros (a + b) = zeros a ++ zeros b.
Proof.
  unfold zeros, np_zeros. rewrite !Nat2Z.id. apply repeat_app.
Qed.

Lemma zero_padded_refl (v : list Qc) : zero_padded v v.
Proof.
  exists 0%nat, 0%nat. simpl. now rewrite app_nil_r.
Qed.

Lemma zero_padded_trans (u v w : list Qc) :
  zero_padded u v -> zero_padded v w -> zero_padded u w.
Proof.
  intros [l1 [r1 ->]] [l2 [r2 ->]].
  exists (l2 + l1)%nat, (r1 + r2)%nat.
  rewrite !zeros_app, <- !app_assoc. reflexivity.
Qed.

(** The two assignments made by a call of [pd_zero_pad] that returns. *)
Lemma pd_zero_pad_Ok (pd mode_pd : ref) (step : Qc) (h h' : heap)
    (x : ref * ref) :
  pd_zero_pad pd mode_pd step h = Ok (x, h') ->
  exists p m1 l1 r1 l2 r2,
    x = (pd, mode_pd) /\
    nth_error h pd = Some p /\
    nth_error (list_set h pd (with_vals p (zeros l1 ++ vals p ++ zeros r1)))
              mode_pd = Some m1 /\
    h' = list_set
           (list_set h pd (with_vals p (zeros l1 ++ vals p ++ zeros r1)))
           mode_pd (with_vals m1 (zeros l2 ++ vals m1 ++ zeros r2)).
Proof.
  unfold pd_zero_pad. intros H.
  apply bind_Ok in H. destruct H as [p [h1 [Hp H]]].
  apply deref_Ok in Hp. destruct Hp as [Hp ->].
  apply bind_Ok in H. destruct H as [m [h1 [Hm H]]].
  apply deref_Ok in Hm. destruct Hm as [Hm ->].
  apply bind_Ok in H. destruct H as [l1 [h1 [Hl1 H]]].
  apply lift_Ok in Hl1. destruct Hl1 as [_ ->].
  apply bind_Ok in H. destruct H as [r1 [h1 [Hr1 H]]].
  apply lift_Ok in Hr1. destruct Hr1 as [_ ->].
  apply bind_Ok in H. destruct H as [u [h1 [Hset H]]].
  apply set_vals_Ok in Hset. destruct Hset as [q [Hq ->]].
  rewrite Hp in Hq. injection Hq as <-.
  apply bind_Ok in H. destruct H as [p1 [h2 [Hp1 H]]].
  apply deref_Ok in Hp1. destruct Hp1 as [Hp1 ->].
  apply bind_Ok in H. destruct H as [m1 [h2 [Hm1 H]]].
  apply deref_Ok in Hm1. destruct Hm1 as [Hm1 ->].
  apply bind_Ok in H. destruct H as [l2 [h2 [Hl2 H]]].
  apply lift_Ok in Hl2. destruct Hl2 as [_ ->].
  apply bind_Ok in H. destruct H as [r2 [h2 [Hr2 H]]].
  apply lift_Ok in Hr2. destruct Hr2 as [_ ->].
  apply bind_Ok in H. destruct H as [u' [h2 [Hset H]]].
  apply set_vals_Ok in Hset. destruct Hset as [q [Hq ->]].
  rewrite Hm1 in Hq. injection Hq as <-.
  apply ret_Ok in H. destruct H as [-> ->].
  now exists p, m1, l1, r1, l2, r2.
Qed.

Lemma with_vals_twice (q : PitchDistribution) (v w : list Qc) :
  with_vals (with_vals q v) w = with_vals q w.
Proof. reflexivity. Qed.

(** X7.  A call of [pd_zero_pad] that returns hands back its two arguments
    and keeps the size of the store.  No instance changes its bins or its
    metadata; the values of an instance are its old values between two runs
    of zeros; an instance other than the two arguments is not changed at
    all. *)
Theorem pd_zero_pad_only_pads (pd mode_pd : ref) (step : Qc) (h h' : heap)
    (x : ref * ref) :
  pd_zero_pad pd mode_pd step h = Ok (x, h') ->
  x = (pd, mode_pd) /\
  length h' = length h /\
  forall r q, nth_error h r = Some q ->
    exists v,
      nth_error h' r = Some (with_vals q v) /\
      zero_padded (vals q) v /\
      (r <> pd -> r <> mode_pd -> v = vals q).
Proof.
  intros H. apply pd_zero_pad_Ok in H.
  destruct H as [p [m1 [l1 [r1 [l2 [r2 [-> [Hp [Hm1 ->]]]]]]]]].
  split; [reflexivity|]. split; [now rewrite !length_list_set|].
  intros r q Hr.
  set (p1 := with_vals p (zeros l1 ++ vals p ++ zeros r1)) in *.
  assert (Hp1 : nth_error (list_set h pd p1) pd = Some p1)
    by (apply (@nth_error_list_set_eq _ h pd p1 p Hp)).
  destruct (Nat.eq_dec r mode_pd) as [->|Hrm].
  - rewrite (@nth_error_list_set_eq _ _ mode_pd _ m1 Hm1).
    destruct (Nat.eq_dec pd mode_pd) as [->|Hne].
    + rewrite Hp1 in Hm1. injection Hm1 as <-.
      rewrite Hp in Hr. injection Hr as <-.
      eexists. split; [reflexivity|]. split; [|congruence].
      apply zero_padded_trans with (v := vals p1);
        [now exists l1, r1 | now exists l2, r2].
    + rewrite nth_error_list_set_neq in Hm1 by assumption.
      rewrite Hr in Hm1. injection Hm1 as <-.
      eexists. split; [reflexivity|]. split; [now exists l2, r2 | congruence].
  - rewrite nth_error_list_set_neq by congruence.
    destruct (Nat.eq_dec r pd) as [->|Hrp].
    + rewrite Hp1. rewrite Hp in Hr. injection Hr as <-.
      eexists. split; [reflexivity|]. split; [now exists l1, r1 | congruence].
    + rewrite nth_error_list_set_neq by congruence. rewrite Hr.
      exists (vals q). rewrite with_vals_self.
      split; [reflexivity|]. split; [apply zero_padded_refl | reflexivity].
Qed.

Lemma pd_zero_pad_only_pads_witness :
  exists h',
    pd_zero_pad 0%nat 1%nat (qc (15 # 2)) heap_two = Ok ((0%nat, 1%nat), h') /\
    length h' = 2%nat.
Proof.
  eexists. split; [by_evaluation|].
  refine (proj1 (proj2 (@pd_zero_pad_only_pads 0%nat 1%nat (qc (15 # 2))
                           heap_two _ (0%nat, 1%nat) _))).
  by_evaluation.
Defined.

(** *** Sums *)

Lemma fold_Qcplus (l : list Qc) (x : Qc) :
  fold_left Qcplus l x = (x + Qcsum l)%Qc.
Proof.
  unfold Qcsum. revert x. induction l as [|y l IH]; intros x; simpl.
  - ring.
  - rewrite (IH (x + y)%Qc), (IH (0 + y)%Qc). ring.
Qed.

Lemma Qcsum_cons (x : Qc) (l : list Qc) : Qcsum (x :: l) = (x + Qcsum l)%Qc.
Proof.
  unfold Qcsum at 1. simpl. rewrite fold_Qcplus. ring.
Qed.

Lemma Qcsum_app (a b : list Qc) : Qcsum (a ++ b) = (Qcsum a + Qcsum b)%Qc.
Proof.
  induction a as [|x a IH]; simpl.
  - unfold Qcsum at 2. simpl. ring.
  - rewrite !Qcsum_cons, IH. ring.
Qed.

Lemma Qcsum_zeros (n : nat) : Qcsum (zeros n) = 0%Qc.
Proof.
  unfold zeros, np_zeros. rewrite Nat2Z.id.
  induction n as [|n IH]; [reflexivity|].
  simpl repeat. rewrite Qcsum_cons, IH. ring.
Qed.

Lemma zero_padded_sum (v v' : list Qc) :
  zero_padded v v' -> Qcsum v' = Qcsum v.
Proof.
  intros [l [r ->]]. rewrite !Qcsum_app, !Qcsum_zeros. ring.
Qed.

(** X8.  A call of [pd_zero_pad] that returns keeps the sum of the values
    of every instance of the store. *)
Theorem pd_zero_pad_keeps_mass (pd mode_pd : ref) (step : Qc) (h h' : heap)
    (x : ref * ref) (r : ref) (q q' : PitchDistribution) :
  pd_zero_pad pd mode_pd step h = Ok (x, h') ->
  nth_error h r = Some q ->
  nth_error h' r = Some q' ->
  Qcsum (vals q') = Qcsum (vals q).
Proof.
  intros H Hq Hq'.
  destruct (pd_zero_pad_only_pads _ _ _ _ H) as [_ [_ Hframe]].
  destruct (Hframe r q Hq) as [v [Hv [Hpad _]]].
  rewrite Hv in Hq'. injection Hq' as <-. simpl.
  now apply zero_padded_sum.
Qed.

Lemma pd_zero_pad_keeps_mass_witness :
  exists h' q',
    pd_zero_pad 0%nat 1%nat (qc (15 # 2)) heap_two = Ok ((0%nat, 1%nat), h') /\
    nth_error h' 0 = Some q' /\
    Qcsum (vals q') = Qcsum (vals pd_recording).
Proof.
  do 2 eexists. split; [by_evaluation|]. split; [by_evaluation|].
  eapply (@pd_zero_pad_keeps_mass 0%nat 1%nat (qc (15 # 2)) heap_two _
            (0%nat, 1%nat) 0%nat pd_recording).
  - by_evaluation.
  - reflexivity.
  - by_evaluation.
Defined.

(** *** On a common grid *)

(** The store after [pd_zero_pad] on two distinct instances whose bins lie
    on one grid. *)
Lemma pd_zero_pad_run (h : heap) (pd mode_pd : ref)
    (p m : PitchDistribution) (s step : Qc) (a1 a2 : Z) (n1 n2 : nat) :
  pd <> mode_pd ->
  nth_error h pd = Some p ->
  nth_error h mode_pd = Some m ->
  (0 < s)%Qc ->
  bins p = grid s a1 n1 ->
  bins m = grid s a2 n2 ->
  (0 < n1)%nat ->
  (0 < n2)%nat ->
  pd_zero_pad pd mode_pd step h
  = Ok ((pd, mode_pd),
        list_set
          (list_set h pd
             (with_vals p (zeros (missing_below a1 a2 n2) ++ vals p
                           ++ zeros (missing_above a1 a2 n1 n2))))
          mode_pd
          (with_vals m (zeros (missing_below a2 a1 n1) ++ vals m
                        ++ zeros (missing_above a2 a1 n2 n1)))).
Proof.
  intros Hne Hp Hm Hs Hbp Hbm Hn1 Hn2.
  set (p' := with_vals p (zeros (missing_below a1 a2 n2) ++ vals p
                          ++ zeros (missing_above a1 a2 n1 n2))).
  set (h1 := list_set h pd p').
  assert (Hp1 : nth_error h1 pd = Some p')
    by (apply (@nth_error_list_set_eq _ h pd p' p Hp)).
  assert (Hm1 : nth_error h1 mode_pd = Some m)
    by (unfold h1; rewrite nth_error_list_set_neq; assumption).
  unfold pd_zero_pad, bind, deref, lift, set_vals, ret.
  rewrite Hp, Hm, Hbp, Hbm.
  rewrite (@missing_left s Hs a1 a2 n1 n2 Hn1).
  rewrite (@missing_right s Hs a1 a2 n1 n2 Hn1).
  rewrite Hp. fold (missing_below a1 a2 n2). fold (missing_above a1 a2 n1 n2).
  fold p'. fold h1. rewrite Hp1, Hm1.
  change (bins p') with (bins p). rewrite Hbp, Hbm.
  rewrite (@missing_left s Hs a2 a1 n2 n1 Hn2).
  rewrite (@missing_right s Hs a2 a1 n2 n1 Hn2).
  rewrite Hm1. reflexivity.
Qed.

(** X9.  [pd_zero_pad] does not depend on the order of its arguments: on
    two distinct instances with bins on one grid, [pd_zero_pad(a, b)] and
    [pd_zero_pad(b, a)] both return and leave the same store. *)
Theorem pd_zero_pad_order_irrelevant (h : heap) (pd mode_pd : ref)
    (p m : PitchDistribution) (s step : Qc) (a1 a2 : Z) (n1 n2 : nat) :
  pd <> mode_pd ->
  nth_error h pd = Some p ->
  nth_error h mode_pd = Some m ->
  (0 < s)%Qc ->
  bins p = grid s a1 n1 ->
  bins m = grid s a2 n2 ->
  (0 < n1)%nat ->
  (0 < n2)%nat ->
  exists h',
    pd_zero_pad pd mode_pd step h = Ok ((pd, mode_pd), h') /\
    pd_zero_pad mode_pd pd step h = Ok ((mode_pd, pd), h').
Proof.
  intros Hne Hp Hm Hs Hbp Hbm Hn1 Hn2.
  eexists. split.
  - apply (@pd_zero_pad_run h pd mode_pd p m s step a1 a2 n1 n2); assumption.
  - rewrite (@pd_zero_pad_run h mode_pd pd m p s step a2 a1 n2 n1);
      try assumption; [|congruence].
    now rewrite list_set_comm by congruence.
Qed.

Lemma pd_zero_pad_order_irrelevant_witness :
  exists h',
    pd_zero_pad 0%nat 1%nat (qc (15 # 2)) heap_two = Ok ((0%nat, 1%nat), h') /\
    pd_zero_pad 1%nat 0%nat (qc (15 # 2)) heap_two = Ok ((1%nat, 0%nat), h').
Proof.
  apply (@pd_zero_pad_order_irrelevant heap_two 0%nat 1%nat
           pd_recording pd_template (qc (15 # 2)) (qc (15 # 2))
           0%Z (-1)%Z 2%nat 3%nat).
  - discriminate.
  - reflexivity.
  - reflexivity.
  - reflexivity.
  - reflexivity.
  - reflexivity.
  - lia.
  - lia.
Defined.

(** X10.  [pd_zero_pad] is not idempotent.  The bins are never extended, so
    a second call on the same two instances finds the same bins missing and
    pads again: after two calls each instance has gained twice the number of
    bins the other has beyond its range. *)
Theorem pd_zero_pad_twice_pads_twice (h : heap) (pd mode_pd : ref)
    (p m : PitchDistribution) (s step : Qc) (a1 a2 : Z) (n1 n2 : nat) :
  pd <> mode_pd ->
  nth_error h pd = Some p ->
  nth_error h mode_pd = Some m ->
  (0 < s)%Qc ->
  bins p = grid s a1 n1 ->
  bins m = grid s a2 n2 ->
  (0 < n1)%nat ->
  (0 < n2)%nat ->
  exists h1 h2 p2 m2,
    pd_zero_pad pd mode_pd step h = Ok ((pd, mode_pd), h1) /\
    pd_zero_pad pd mode_pd step h1 = Ok ((pd, mode_pd), h2) /\
    nth_error h2 pd = Some p2 /\
    nth_error h2 mode_pd = Some m2 /\
    length (vals p2)
    = (length (vals p)
       + 2 * (missing_below a1 a2 n2 + missing_above a1 a2 n1 n2))%nat /\
    length (vals m2)
    = (length (vals m)
       + 2 * (missing_below a2 a1 n1 + missing_above a2 a1 n2 n1))%nat.
Proof.
  intros Hne Hp Hm Hs Hbp Hbm Hn1 Hn2.
  pose proof (@pd_zero_pad_run h pd mode_pd p m s step a1 a2 n1 n2
                Hne Hp Hm Hs Hbp Hbm Hn1 Hn2) as H1.
  set (p1 := with_vals p (zeros (missing_below a1 a2 n2) ++ vals p
                          ++ zeros (missing_above a1 a2 n1 n2))) in *.
  set (m1 := with_vals m (zeros (missing_below a2 a1 n1) ++ vals m
                          ++ zeros (missing_above a2 a1 n2 n1))) in *.
  set (h1 := list_set (list_set h pd p1) mode_pd m1) in *.
  assert (Hp1 : nth_error h1 pd = Some p1).
  { unfold h1. rewrite nth_error_list_set_neq by congruence.
    apply (@nth_error_list_set_eq _ h pd p1 p Hp). }
  assert (Hm1 : nth_error h1 mode_pd = Some m1).
  { unfold h1. apply (@nth_error_list_set_eq _ _ mode_pd m1 m).
    now rewrite nth_error_list_set_neq. }
  pose proof (@pd_zero_pad_run h1 pd mode_pd p1 m1 s step a1 a2 n1 n2
                Hne Hp1 Hm1 Hs Hbp Hbm Hn1 Hn2) as H2.
  do 4 eexists. split; [exact H1|]. split; [exact H2|].
  split.
  { rewrite nth_error_list_set_neq by congruence.
    apply (@nth_error_list_set_eq _ h1 pd _ p1 Hp1). }
  split.
  { apply (@nth_error_list_set_eq _ _ mode_pd _ m1).
    now rewrite nth_error_list_set_neq. }
  subst p1 m1. cbn [vals with_vals].
  rewrite !length_app, !length_zeros. lia.
Qed.

Lemma pd_zero_pad_twice_pads_twice_witness :
  exists h1 h2 p2 m2,
    pd_zero_pad 0%nat 1%nat (qc (15 # 2)) heap_two = Ok ((0%nat, 1%nat), h1) /\
    pd_zero_pad 0%nat 1%nat (qc (15 # 2)) h1 = Ok ((0%nat, 1%nat), h2) /\
    nth_error h2 0 = Some p2 /\
    nth_error h2 1 = Some m2 /\
    length (vals p2) = 4%nat /\
    length (vals m2) = 3%nat.
Proof.
  apply (@pd_zero_pad_twice_pads_twice heap_two 0%nat 1%nat
           pd_recording pd_template (qc (15 # 2)) (qc (15 # 2))
           0%Z (-1)%Z 2%nat 3%nat).
  - discriminate.
  - reflexivity.
  - reflexivity.
  - reflexivity.
  - reflexivity.
  - reflexivity.
  - lia.
  - lia.
Defined.

(** X11.  Alignment.  After [pd_zero_pad] on two distinct instances whose
    bins lie on one grid and both contain bin 0, each with as many values as
    bins, equal positions of the two value sequences stand for the same
    bin: for every grid bin [k] of the union of the two ranges, the value at
    position [k - min(a1, a2)] is the instance's own value for bin [k] when
    it has that bin, and zero when it has not. *)
Theorem pd_zero_pad_aligns_bins (h : heap) (pd mode_pd : ref)
    (p m : PitchDistribution) (s step : Qc) (a1 a2 : Z) (n1 n2 : nat) :
  pd <> mode_pd ->
  nth_error h pd = Some p ->
  nth_error h mode_pd = Some m ->
  (0 < s)%Qc ->
  bins p = grid s a1 n1 ->
  bins m = grid s a2 n2 ->
  (a1 <= 0 < a1 + Z.of_nat n1)%Z ->
  (a2 <= 0 < a2 + Z.of_nat n2)%Z ->
  length (vals p) = n1 ->
  length (vals m) = n2 ->
  exists h' p' m',
    pd_zero_pad pd mode_pd step h = Ok ((pd, mode_pd), h') /\
    nth_error h' pd = Some p' /\
    nth_error h' mode_pd = Some m' /\
    forall k : Z,
      (Z.min a1 a2 <= k < Z.max (a1 + Z.of_nat n1) (a2 + Z.of_nat n2))%Z ->
      nth_error (vals p') (Z.to_nat (k - Z.min a1 a2))
      = (if ((a1 <=? k) && (k <? a1 + Z.of_nat n1))%Z
         then nth_error (vals p) (Z.to_nat (k - a1))
         else Some 0%Qc) /\
      nth_error (vals m') (Z.to_nat (k - Z.min a1 a2))
      = (if ((a2 <=? k) && (k <? a2 + Z.of_nat n2))%Z
         then nth_error (vals m) (Z.to_nat (k - a2))
         else Some 0%Qc).
Proof.
  intros Hne Hp Hm Hs Hbp Hbm H1 H2 Hvp Hvm.
  assert (Hn1 : (0 < n1)%nat) by lia.
  assert (Hn2 : (0 < n2)%nat) by lia.
  pose proof (@pd_zero_pad_run h pd mode_pd p m s step a1 a2 n1 n2
                Hne Hp Hm Hs Hbp Hbm Hn1 Hn2) as Hrun.
  assert (padded_nth : forall (v : list Qc) (a a' : Z) (n n' : nat) (k : Z),
    length v = n ->
    (a <= 0 < a + Z.of_nat n)%Z -> (a' <= 0 < a' + Z.of_nat n')%Z ->
    (Z.min a a' <= k < Z.max (a + Z.of_nat n) (a' + Z.of_nat n'))%Z ->
    nth_error (zeros (missing_below a a' n') ++ v
               ++ zeros (missing_above a a' n n'))
              (Z.to_nat (k - Z.min a a'))
    = (if ((a <=? k) && (k <? a + Z.of_nat n))%Z
       then nth_error v (Z.to_nat (k - a)) else Some 0%Qc)).
  { intros v a a' n n' k Hv Ha Ha' Hk. unfold missing_below, missing_above.
    destruct (Z.leb_spec a k) as [Hlo|Hlo]; simpl.
    - rewrite nth_error_app2 by (rewrite length_zeros; lia).
      rewrite length_zeros.
      destruct (Z.ltb_spec k (a + Z.of_nat n)) as [Hhi|Hhi].
      + rewrite nth_error_app1 by lia. f_equal. lia.
      + rewrite nth_error_app2 by lia.
        unfold zeros, np_zeros. apply nth_error_repeat. lia.
    - rewrite nth_error_app1 by (rewrite length_zeros; lia).
      unfold zeros, np_zeros. apply nth_error_repeat. lia. }
  do 3 eexists. split; [exact Hrun|].
  split.
  { rewrite nth_error_list_set_neq by congruence.
    apply (@nth_error_list_set_eq _ h pd _ p Hp). }
  split.
  { apply (@nth_error_list_set_eq _ _ mode_pd _ m).
    now rewrite nth_error_list_set_neq. }
  intros k Hk. cbn [vals with_vals]. split.
  - apply padded_nth; assumption.
  - rewrite (Z.min_comm a1 a2). apply padded_nth; try assumption. lia.
Qed.

Lemma pd_zero_pad_aligns_bins_witness :
  exists h' p' m',
    pd_zero_pad 0%nat 1%nat (qc (15 # 2)) heap_two = Ok ((0%nat, 1%nat), h') /\
    nth_error h' 0 = Some p' /\
    nth_error h' 1 = Some m' /\
    nth_error (vals p') 0 = Some 0%Qc /\
    nth_error (vals m') 0 = nth_error (vals pd_template) 0.
Proof.
  destruct (@pd_zero_pad_aligns_bins heap_two 0%nat 1%nat
              pd_recording pd_template (qc (15 # 2)) (qc (15 # 2))
              0%Z (-1)%Z 2%nat 3%nat)
    as [h' [p' [m' [Hrun [Hp [Hm Hk]]]]]].
  - discriminate.
  - reflexivity.
  - reflexivity.
  - reflexivity.
  - reflexivity.
  - reflexivity.
  - lia.
  - lia.
  - reflexivity.
  - reflexivity.
  - exists h', p', m'. repeat split; try assumption.
    + apply (Hk (-1)%Z). lia.
    + apply (Hk (-1)%Z). lia.
Defined.

(** ** [generate_distance_matrix] and the estimators *)

Lemma new_PitchDistribution_Ok (b v : list Qc) (kw : Qc) (src : string)
    (rf : Qc) (seg : segment_t) (ovl : overlap_t) (h h' : heap) (r : ref) :
  new_PitchDistribution b v kw src rf seg ovl h = Ok (r, h') ->
  exists p,
    PitchDistribution_init b v kw src rf seg ovl = Ok p /\
    r = length h /\ h' = h ++ [p].
Proof.
  unfold new_PitchDistribution.
  destruct (PitchDistribution_init b v kw src rf seg ovl) as [p|];
    [|discriminate].
  simpl. intros H. injection H as <- <-. now exists p.
Qed.

Lemma shift_Ok (self : ref) (k : Z) (h h' : heap) (r : ref) :
  shift self k h = Ok (r, h') ->
  exists p', r = length h /\ h' = h ++ [p'].
Proof.
  unfold shift. intros H.
  apply bind_Ok in H. destruct H as [p [h1 [Hp H]]].
  apply deref_Ok in Hp. destruct Hp as [_ ->].
  destruct (negb (k =? 0)%Z).
  - apply bind_Ok in H. destruct H as [pcd [h1 [Hpcd H]]].
    apply lift_Ok in Hpcd. destruct Hpcd as [_ ->].
    apply new_PitchDistribution_Ok in H. destruct H as [p' [_ [-> ->]]].
    now exists p'.
  - apply new_PitchDistribution_Ok in H. destruct H as [p' [_ [-> ->]]].
    now exists p'.
Qed.

(** Invariants of a loop over the store. *)
Lemma mfold_invariant {A S : Type} (I : S -> heap -> Prop)
    (body : S -> A -> M S) (l : list A) :
  (forall s x h s' h', I s h -> body s x h = Ok (s', h') -> I s' h') ->
  forall s h s' h', I s h -> mfold body l s h = Ok (s', h') -> I s' h'.
Proof.
  intros Hbody. induction l as [|x l IH]; intros s h s' h' HI H; simpl in H.
  - apply ret_Ok in H. destruct H as [-> ->]. exact HI.
  - apply bind_Ok in H. destruct H as [s1 [h1 [H1 H]]].
    apply (IH s1 h1); [|exact H]. now apply (Hbody s x h).
Qed.

Lemma mfold_grows {A S : Type} (body : S -> A -> M S) (l : list A) :
  (forall s x h s' h', body s x h = Ok (s', h') -> exists p, h' = h ++ [p]) ->
  forall s h s' h', mfold body l s h = Ok (s', h') ->
    exists ext, h' = h ++ ext /\ length ext = length l.
Proof.
  intros Hbody. induction l as [|x l IH]; intros s h s' h' H; simpl in H.
  - apply ret_Ok in H. destruct H as [-> ->].
    exists []. now rewrite app_nil_r.
  - apply bind_Ok in H. destruct H as [s1 [h1 [H1 H]]].
    apply Hbody in H1. destruct H1 as [p ->].
    apply IH in H. destruct H as [ext [-> Hlen]].
    exists (p :: ext). rewrite <- app_assoc. simpl. now rewrite Hlen.
Qed.

Lemma list_set_Forall {A : Type} (P : A -> Prop) (l : list A) (i : nat) (x : A) :
  Forall P l -> P x -> Forall P (list_set l i x).
Proof.
  intros Hl Hx. revert i. induction Hl as [|y l Hy Hl IH]; intros [|i]; simpl;
    constructor; auto.
Qed.

Lemma has_shape_zeros (n m : nat) : has_shape n m (matrix_zeros n m).
Proof.
  unfold has_shape, matrix_zeros. simpl.
  rewrite repeat_length. repeat split.
  apply Forall_forall. intros r Hr. apply repeat_spec in Hr. subst r.
  apply repeat_length.
Qed.

Lemma has_shape_set (n m : nat) (a : matrix) (i j : nat) (x : pynum) :
  has_shape n m a -> has_shape n m (matrix_set a i j x).
Proof.
  intros [Hn [Hm [Hlen Hrows]]]. unfold has_shape, matrix_set. simpl.
  destruct (nth_error (rows a) i) as [r|] eqn:E; [|now repeat split].
  rewrite length_list_set. repeat split; try assumption.
  apply list_set_Forall; [assumption|].
  rewrite length_list_set.
  apply nth_error_In in E. rewrite Forall_forall in Hrows. now apply Hrows.
Qed.

(** One cell assignment of the inner loop of [generate_distance_matrix]. *)
Lemma distance_matrix_cell_Ok (trial : ref) (i j : nat) (c : ref)
    (method : string) (res res' : matrix) (h h' : heap) :
  (do t <- deref trial;
   do m <- deref c;
   do d <- lift (distance (VArr (vals t)) (VArr (vals m)) method);
   do x <- lift (to_cell d);
   ret (matrix_set res i j x)) h = Ok (res', h') ->
  h' = h /\
  exists t m x,
    nth_error h trial = Some t /\
    nth_error h c = Some m /\
    distance_cell method (vals t) (vals m) = Ok x /\
    res' = matrix_set res i j x.
Proof.
  intros H.
  apply bind_Ok in H. destruct H as [t [h1 [Ht H]]].
  apply deref_Ok in Ht. destruct Ht as [Ht ->].
  apply bind_Ok in H. destruct H as [mo [h1 [Hm H]]].
  apply deref_Ok in Hm. destruct Hm as [Hm ->].
  apply bind_Ok in H. destruct H as [d [h1 [Hd H]]].
  apply lift_Ok in Hd. destruct Hd as [Hd ->].
  apply bind_Ok in H. destruct H as [x [h1 [Hx H]]].
  apply lift_Ok in Hx. destruct Hx as [Hx ->].
  apply ret_Ok in H. destruct H as [-> ->].
  split; [reflexivity|]. exists t, mo, x. repeat split; try assumption.
  unfold distance_cell. now rewrite Hd.
Qed.

(** The inner loop of [generate_distance_matrix] reads the store only. *)
Lemma distance_matrix_row_Ok (trial : ref) (i : nat) (method : string)
    (mode_dists : list (nat * ref)) (res res' : matrix) (h h' : heap)
    (I : matrix -> Prop) :
  (forall a j x, I a -> I (matrix_set a i j x)) ->
  I res ->
  mfold (fun (res : matrix) (jm : nat * ref) =>
           let (j, cur_mode_dist) := jm in
           do t <- deref trial;
           do m <- deref cur_mode_dist;
           do d <- lift (distance (VArr (vals t)) (VArr (vals m)) method);
           do x <- lift (to_cell d);
           ret (matrix_set res i j x))
        mode_dists res h = Ok (res', h') ->
  I res' /\ h' = h.
Proof.
  intros Hset Hres H.
  apply (mfold_invariant
           (fun (r : matrix) (h0 : heap) => I r /\ h0 = h)) in H;
    [exact H | | now split].
  clear - Hset. intros s [j c] h0 s' h' [Hs ->] H.
  apply distance_matrix_cell_Ok in H.
  destruct H as [-> [t [m [x [_ [_ [_ ->]]]]]]].
  split; [now apply Hset | reflexivity].
Qed.

(** X12.  A call of [generate_distance_matrix] that returns gives a matrix
    with one row per peak and one column per mode, and changes no instance
    of the store: it only adds one new instance per peak. *)
Theorem generate_distance_matrix_shape_and_frame (dist : ref)
    (peak_idxs : list Z) (mode_dists : list ref) (method : string)
    (h h' : heap) (res : matrix) :
  generate_distance_matrix dist peak_idxs mode_dists method h = Ok (res, h') ->
  has_shape (length peak_idxs) (length mode_dists) res /\
  exists trials, h' = h ++ trials /\ length trials = length peak_idxs.
Proof.
  unfold generate_distance_matrix. intros H. split.
  - apply (mfold_invariant
             (fun (r : matrix) (_ : heap) =>
                has_shape (length peak_idxs) (length mode_dists) r)) in H;
      [exact H | | apply has_shape_zeros].
    clear. intros s [i k] h s' h' Hs H.
    apply bind_Ok in H. destruct H as [trial [h1 [_ H]]].
    apply (@distance_matrix_row_Ok trial i method _ s s' h1 h'
             (has_shape (length peak_idxs) (length mode_dists))) in H;
      [tauto | | exact Hs].
    intros a j x. apply has_shape_set.
  - apply mfold_grows in H.
    + destruct H as [ext [-> Hlen]]. exists ext. split; [reflexivity|].
      rewrite Hlen. unfold enumerate.
      rewrite length_combine, length_seq. lia.
    + clear. intros s [i k] h s' h' H.
      apply bind_Ok in H. destruct H as [trial [h1 [Hs H]]].
      apply shift_Ok in Hs. destruct Hs as [p' [_ ->]].
      apply (@distance_matrix_row_Ok trial i method _ s s' _ h'
               (fun _ => True)) in H; [|trivial|trivial].
      destruct H as [_ ->]. now exists p'.
Qed.

Lemma generate_distance_matrix_shape_and_frame_witness :
  exists res h',
    generate_distance_matrix 0%nat [1; 2]%Z [0%nat] "intersection" [pcd_three]
    = Ok (res, h') /\
    has_shape 2 1 res /\
    exists trials, h' = [pcd_three] ++ trials /\ length trials = 2%nat.
Proof.
  do 2 eexists. split; [by_evaluation|].
  eapply (@generate_distance_matrix_shape_and_frame 0%nat [1; 2]%Z [0%nat]
            "intersection" [pcd_three]).
  by_evaluation.
Defined.

(** *** What the matrix contains *)

Lemma list_set_middle {A : Type} (pre post : list A) (x y : A) (i : nat) :
  length pre = i ->
  list_set (pre ++ x :: post) i y = pre ++ y :: post.
Proof.
  intros <-. induction pre as [|z pre IH]; simpl; [reflexivity|].
  now rewrite IH.
Qed.

Lemma nth_error_middle {A : Type} (pre post : list A) (x : A) (i : nat) :
  length pre = i -> nth_error (pre ++ x :: post) i = Some x.
Proof.
  intros <-. rewrite nth_error_app2 by lia. now rewrite Nat.sub_diag.
Qed.

Lemma matrix_set_middle (N M : nat) (done rest : list (list pynum))
    (row : list pynum) (i j : nat) (x : pynum) :
  length done = i ->
  matrix_set {| nrows := N; ncols := M; rows := done ++ row :: rest |} i j x
  = {| nrows := N; ncols := M; rows := done ++ list_set row j x :: rest |}.
Proof.
  intros Hdone. unfold matrix_set. cbn [rows nrows ncols].
  rewrite (nth_error_middle done rest _ Hdone).
  now rewrite (list_set_middle done rest _ _ Hdone).
Qed.

Lemma distance_row_cons (h : heap) (method : string) (r : ref)
    (ml : list ref) (trial : list Qc) :
  distance_row h method (r :: ml) trial
  = (let! y := match nth_error h r with
               | Some m => distance_cell method trial (vals m)
               | None => Raise AttributeError
               end in
     let! ys := distance_row h method ml trial in
     Ok (y :: ys)).
Proof. reflexivity. Qed.

Section MatrixLoops.
Variable h : heap.
Variable method : string.
Variable mode_dists : list ref.
Hypothesis modes_in_store : Forall (fun r => (r < length h)%nat) mode_dists.

(** The inner loop fills row [i] from column [j] on. *)
Lemma distance_matrix_row_loop (hx : heap) (trial : ref)
    (t : PitchDistribution) (i N M : nat) (done rest : list (list pynum)) :
  nth_error hx trial = Some t ->
  (forall r, (r < length h)%nat -> nth_error hx r = nth_error h r) ->
  length done = i ->
  forall (ml : list ref) (j : nat) (pre : list pynum),
    Forall (fun r => (r < length h)%nat) ml ->
    length pre = j ->
    mfold (fun (res : matrix) (jm : nat * ref) =>
             let (j, cur_mode_dist) := jm in
             do t <- deref trial;
             do m <- deref cur_mode_dist;
             do d <- lift (distance (VArr (vals t)) (VArr (vals m)) method);
             do x <- lift (to_cell d);
             ret (matrix_set res i j x))
          (combine (seq j (length ml)) ml)
          {| nrows := N; ncols := M;
             rows := done ++ (pre ++ repeat (Rat 0%Qc) (length ml)) :: rest |}
          hx
    = match distance_row h method ml (vals t) with
      | Ok xs => Ok ({| nrows := N; ncols := M;
                        rows := done ++ (pre ++ xs) :: rest |}, hx)
      | Raise e => Raise e
      end.
Proof.
  intros Ht Hold Hdone ml.
  induction ml as [|r ml IH]; intros j pre Hml Hpre.
  - reflexivity.
  - inversion Hml as [|r' ml' Hr Hml']. subst r' ml'.
    cbn [length seq combine mfold]. rewrite distance_row_cons.
    unfold bind at 1. unfold bind at 1, deref at 1. rewrite Ht.
    unfold bind at 1, deref at 1. rewrite (Hold r Hr).
    destruct (nth_error h r) as [m|] eqn:Em;
      [|apply nth_error_None in Em; lia].
    unfold bind at 1, lift at 1.
    change (distance_cell method (vals t) (vals m))
      with (let! d := distance (VArr (vals t)) (VArr (vals m)) method in
            to_cell d).
    destruct (distance (VArr (vals t)) (VArr (vals m)) method) as [d|e];
      [|reflexivity].
    cbn [rbind]. unfold bind at 1, lift at 1.
    destruct (to_cell d) as [x|e]; [|reflexivity].
    unfold ret at 1. cbn [repeat].
    rewrite (matrix_set_middle N M done rest _ j x Hdone).
    rewrite (list_set_middle pre (repeat (Rat 0%Qc) (length ml)) _ x Hpre).
    replace (pre ++ x :: repeat (Rat 0%Qc) (length ml))
      with ((pre ++ [x]) ++ repeat (Rat 0%Qc) (length ml))
      by (now rewrite <- app_assoc).
    rewrite (IH (S j) (pre ++ [x]) Hml')
      by (rewrite length_app; simpl; lia).
    destruct (distance_row h method ml (vals t)) as [xs|e]; [|reflexivity].
    cbn [rbind]. now rewrite <- app_assoc.
Qed.

Variable dist : ref.
Variable d : PitchDistribution.
Variable pcd : bool.
Hypothesis dist_in_store : nth_error h dist = Some d.
Hypothesis dist_constructed : constructed d.
Hypothesis dist_kind : is_pcd d = Ok pcd.

(** The outer loop fills the matrix from row [i] on. *)
Lemma distance_matrix_loop (N : nat) :
  forall (pl : list Z) (i : nat) (done : list (list pynum)) (ext : heap),
    length done = i ->
    mfold (fun (res : matrix) (ip : nat * Z) =>
             let (i, cur_peak_idx) := ip in
             do trial <- shift dist cur_peak_idx;
             mfold (fun (res : matrix) (jm : nat * ref) =>
                      let (j, cur_mode_dist) := jm in
                      do t <- deref trial;
                      do m <- deref cur_mode_dist;
                      do d <- lift (distance (VArr (vals t)) (VArr (vals m))
                                             method);
                      do x <- lift (to_cell d);
                      ret (matrix_set res i j x))
                   (enumerate mode_dists) res)
          (combine (seq i (length pl)) pl)
          {| nrows := N; ncols := length mode_dists;
             rows := done ++ repeat (repeat (Rat 0%Qc) (length mode_dists))
                                    (length pl) |}
          (h ++ ext)
    = match rmap (fun k => distance_row h method mode_dists (trial_vals d pcd k))
                 pl with
      | Ok rs =>
          Ok ({| nrows := N; ncols := length mode_dists; rows := done ++ rs |},
              (h ++ ext) ++ map (fun k => with_vals d (trial_vals d pcd k)) pl)
      | Raise e => Raise e
      end.
Proof.
  unfold enumerate.
  induction pl as [|k pl IH]; intros i done ext Hdone.
  - simpl. unfold ret. now rewrite !app_nil_r.
  - cbn [length seq combine mfold rmap].
    unfold bind at 1. unfold bind at 1.
    assert (Hd : nth_error (h ++ ext) dist = Some d).
    { rewrite nth_error_app1; [exact dist_in_store|].
      apply nth_error_Some. congruence. }
    rewrite (@shift_run (h ++ ext) dist d k pcd Hd dist_constructed dist_kind).
    fold (trial_vals d pcd k).
    set (tk := with_vals d (trial_vals d pcd k)).
    cbn [repeat].
    pose proof (@distance_matrix_row_loop ((h ++ ext) ++ [tk])
               (length (h ++ ext)) tk i N (length mode_dists) done
               (repeat (repeat (Rat 0%Qc) (length mode_dists)) (length pl))
               (nth_error_snoc (h ++ ext) tk)
               ltac:(intros r Hr; rewrite <- app_assoc;
                     now rewrite nth_error_app1)
               Hdone mode_dists 0%nat [] modes_in_store eq_refl) as Hrow.
    cbn [app] in Hrow. rewrite Hrow. clear Hrow.
    change (vals tk) with (trial_vals d pcd k).
    destruct (distance_row h method mode_dists (trial_vals d pcd k))
      as [xs|e]; [|reflexivity].
    cbn [rbind].
    replace (done ++ xs :: repeat (repeat (Rat 0%Qc) (length mode_dists))
                                  (length pl))
      with ((done ++ [xs]) ++ repeat (repeat (Rat 0%Qc) (length mode_dists))
                                     (length pl))
      by (now rewrite <- app_assoc).
    replace ((h ++ ext) ++ [tk]) with (h ++ (ext ++ [tk]))
      by (now rewrite app_assoc).
    rewrite (IH (S i) (done ++ [xs]) (ext ++ [tk]))
      by (rewrite length_app; simpl; lia).
    destruct (rmap (fun k0 => distance_row h method mode_dists
                                (trial_vals d pcd k0)) pl) as [rs|e];
      [|reflexivity].
    cbn [rbind map]. rewrite <- !app_assoc. reflexivity.
Qed.
End MatrixLoops.

(** X13.  For an instance [dist] built by the constructor and modes that are
    in the store, [generate_distance_matrix] computes, row by row and cell
    by cell, the distance between the values of [dist] shifted by the peak
    and the values of the mode; it raises what the first failing cell
    raises; and the store gains the shifted instances, one per peak, in
    order. *)
Theorem generate_distance_matrix_computes (h : heap) (dist : ref)
    (d : PitchDistribution) (pcd : bool) (peak_idxs : list Z)
    (mode_dists : list ref) (method : string) :
  nth_error h dist = Some d ->
  constructed d ->
  is_pcd d = Ok pcd ->
  Forall (fun r => (r < length h)%nat) mode_dists ->
  generate_distance_matrix dist peak_idxs mode_dists method h
  = match rmap (fun k => distance_row h method mode_dists (trial_vals d pcd k))
               peak_idxs with
    | Ok rs =>
        Ok ({| nrows := length peak_idxs; ncols := length mode_dists;
               rows := rs |},
            h ++ map (fun k => with_vals d (trial_vals d pcd k)) peak_idxs)
    | Raise e => Raise e
    end.
Proof.
  intros Hd Hc Hpcd Hmodes.
  unfold generate_distance_matrix, enumerate, matrix_zeros.
  pose proof (@distance_matrix_loop h method mode_dists Hmodes dist d pcd
                Hd Hc Hpcd (length peak_idxs) peak_idxs 0%nat [] [] eq_refl)
    as H.
  cbn [app] in H. rewrite app_nil_r in H. exact H.
Qed.

Lemma generate_distance_matrix_computes_witness :
  generate_distance_matrix 0%nat [1; 2]%Z [0%nat] "intersection" [pcd_three]
  = match rmap (fun k => distance_row [pcd_three] "intersection" [0%nat]
                           (trial_vals pcd_three true k)) [1; 2]%Z with
    | Ok rs =>
        Ok ({| nrows := 2; ncols := 1; rows := rs |},
            [pcd_three]
            ++ map (fun k => with_vals pcd_three (trial_vals pcd_three true k))
                   [1; 2]%Z)
    | Raise e => Raise e
    end.
Proof.
  apply (@generate_distance_matrix_computes [pcd_three] 0%nat pcd_three true
           [1; 2]%Z [0%nat] "intersection").
  - reflexivity.
  - vm_compute. reflexivity.
  - vm_compute. reflexivity.
  - repeat constructor.
Defined.

(** X14.  [mode_estimate] with metric ['pcd'], on an instance [dist] built
    by the constructor and modes that are in the store: the result is the
    vector of the distances between the values of [dist], unshifted, and the
    values of each mode, in order; it raises what the first failing distance
    raises; the store gains one copy of [dist]. *)
Theorem mode_estimate_pcd_computes (h : heap) (dist : ref)
    (d : PitchDistribution) (mode_dists : list ref) (method : string)
    (step : Qc) :
  nth_error h dist = Some d ->
  constructed d ->
  Forall (fun r => (r < length h)%nat) mode_dists ->
  mode_estimate dist mode_dists method "pcd" step h
  = match distance_row h method mode_dists (vals d) with
    | Ok row => Ok (row, h ++ [d])
    | Raise e => Raise e
    end.
Proof.
  intros Hd Hc Hmodes.
  destruct (is_pcd_total Hc) as [pcd Hpcd].
  unfold mode_estimate. cbn [String.eqb Ascii.eqb Bool.eqb]. unfold bind.
  rewrite (@generate_distance_matrix_computes h dist d pcd [0%Z] mode_dists
             method Hd Hc Hpcd Hmodes).
  cbn [rmap map]. unfold trial_vals. cbn [Z.eqb].
  destruct (distance_row h method mode_dists (vals d)) as [row|e];
    [|reflexivity].
  cbn [rbind]. unfold lift, row0. cbn [rows]. now rewrite with_vals_self.
Qed.

Lemma pcd_pair_in_store :
  Forall (fun r => (r < length [pcd_three; pcd_three])%nat) [1%nat].
Proof. repeat constructor. Qed.

Lemma mode_estimate_pcd_computes_witness :
  mode_estimate 0%nat [1%nat] "intersection" "pcd" (qc (15 # 2))
    [pcd_three; pcd_three]
  = match distance_row [pcd_three; pcd_three] "intersection" [1%nat]
            (vals pcd_three) with
    | Ok row => Ok (row, [pcd_three; pcd_three] ++ [pcd_three])
    | Raise e => Raise e
    end.
Proof.
  apply (@mode_estimate_pcd_computes [pcd_three; pcd_three] 0%nat pcd_three
           [1%nat] "intersection" (qc (15 # 2))).
  - reflexivity.
  - vm_compute. reflexivity.
  - exact pcd_pair_in_store.
Defined.

Lemma rmap_singletons {A B : Type} (f : A -> result B) (l : list A) :
  rmap (fun x => let! y := f x in let! ys := Ok [] in Ok (y :: ys)) l
  = match rmap f l with
    | Ok ys => Ok (map (fun y => [y]) ys)
    | Raise e => Raise e
    end.
Proof.
  induction l as [|x l IH]; [reflexivity|].
  cbn [rmap]. rewrite IH.
  destruct (f x) as [y|e]; [|reflexivity].
  cbn [rbind]. destruct (rmap f l); reflexivity.
Qed.

Lemma column0_singletons (n : nat) (ys : list pynum) :
  column0 {| nrows := n; ncols := 1; rows := map (fun y => [y]) ys |} = Ok ys.
Proof.
  unfold column0. cbn [ncols rows].
  induction ys as [|y ys IH]; simpl; [reflexivity|]. now rewrite IH.
Qed.

(** X15.  [tonic_estimate] with metric ['pcd'], on an instance [dist] built
    by the constructor and a mode of the store: entry [i] of the result is
    the distance between the values of [dist] shifted by the [i]-th peak
    index and the values of the mode; it raises what the first failing
    distance raises; the store gains the shifted instances. *)
Theorem tonic_estimate_pcd_computes (h : heap) (dist mode_dist : ref)
    (d m : PitchDistribution) (pcd : bool) (peak_idxs : list Z)
    (method : string) (step : Qc) :
  nth_error h dist = Some d ->
  constructed d ->
  is_pcd d = Ok pcd ->
  nth_error h mode_dist = Some m ->
  tonic_estimate dist peak_idxs mode_dist method "pcd" step h
  = match rmap (fun k => distance_cell method (trial_vals d pcd k) (vals m))
               peak_idxs with
    | Ok col =>
        Ok (Some col,
            h ++ map (fun k => with_vals d (trial_vals d pcd k)) peak_idxs)
    | Raise e => Raise e
    end.
Proof.
  intros Hd Hc Hpcd Hm.
  assert (Hmodes : Forall (fun r => (r < length h)%nat) [mode_dist]).
  { constructor; [|constructor]. apply nth_error_Some. congruence. }
  unfold tonic_estimate. cbn [String.eqb Ascii.eqb Bool.eqb]. unfold bind.
  rewrite (@generate_distance_matrix_computes h dist d pcd peak_idxs
             [mode_dist] method Hd Hc Hpcd Hmodes).
  unfold distance_row. cbn [rmap]. rewrite Hm.
  rewrite (rmap_singletons
             (fun k => distance_cell method (trial_vals d pcd k) (vals m))).
  destruct (rmap (fun k => distance_cell method (trial_vals d pcd k) (vals m))
                 peak_idxs) as [col|e]; [|reflexivity].
  cbn [length]. unfold lift. rewrite column0_singletons. reflexivity.
Qed.

Lemma tonic_estimate_pcd_computes_witness :
  tonic_estimate 0%nat [1; 2]%Z 0%nat "intersection" "pcd" (qc (15 # 2))
    [pcd_three]
  = match rmap (fun k => distance_cell "intersection"
                           (trial_vals pcd_three true k) (vals pcd_three))
               [1; 2]%Z with
    | Ok col =>
        Ok (Some col,
            [pcd_three]
            ++ map (fun k => with_vals pcd_three (trial_vals pcd_three true k))
                   [1; 2]%Z)
    | Raise e => Raise e
    end.
Proof.
  apply (@tonic_estimate_pcd_computes [pcd_three] 0%nat 0%nat pcd_three
           pcd_three true [1; 2]%Z "intersection" (qc (15 # 2))).
  - reflexivity.
  - vm_compute. reflexivity.
  - vm_compute. reflexivity.
  - reflexivity.
Defined.

Lemma distance_cell_minkowski (method : string) (v1 v2 : list Qc) :
  In method minkowski_methods ->
  distance_cell method v1 v2 = Raise AttributeError.
Proof.
  simpl. intros H.
  repeat (destruct H as [<-|H]; [reflexivity|]).
  contradiction.
Qed.

(** X16.  With the distance method ['euclidean'] (the default),
    ['manhattan'] or ['l3'] and metric ['pcd'], both estimators raise
    [AttributeError] as soon as there is one candidate: [tonic_estimate]
    for a non-empty [peak_idxs], [mode_estimate] for a non-empty
    [mode_dists]. *)
Theorem estimators_raise_with_minkowski_methods (h : heap)
    (dist mode_dist : ref) (d m : PitchDistribution) (method : string)
    (step : Qc) (k : Z) (peak_idxs : list Z) (others : list ref) :
  In method minkowski_methods ->
  nth_error h dist = Some d ->
  constructed d ->
  nth_error h mode_dist = Some m ->
  Forall (fun r => (r < length h)%nat) others ->
  tonic_estimate dist (k :: peak_idxs) mode_dist method "pcd" step h
  = Raise AttributeError /\
  mode_estimate dist (mode_dist :: others) method "pcd" step h
  = Raise AttributeError.
Proof.
  intros Hmeth Hd Hc Hm Hothers.
  destruct (is_pcd_total Hc) as [pcd Hpcd].
  split.
  - rewrite (@tonic_estimate_pcd_computes h dist mode_dist d m pcd
               (k :: peak_idxs) method step Hd Hc Hpcd Hm).
    cbn [rmap]. now rewrite (distance_cell_minkowski _ _ Hmeth).
  - rewrite (@mode_estimate_pcd_computes h dist d (mode_dist :: others)
               method step Hd Hc).
    + rewrite distance_row_cons, Hm.
      now rewrite (distance_cell_minkowski _ _ Hmeth).
    + constructor; [|exact Hothers]. apply nth_error_Some. congruence.
Qed.

Lemma estimators_raise_with_minkowski_methods_witness :
  tonic_estimate 0%nat [1%Z] 0%nat "euclidean" "pcd" (qc (15 # 2)) [pcd_three]
  = Raise AttributeError /\
  mode_estimate 0%nat [0%nat] "euclidean" "pcd" (qc (15 # 2)) [pcd_three]
  = Raise AttributeError.
Proof.
  apply (@estimators_raise_with_minkowski_methods [pcd_three] 0%nat 0%nat
           pcd_three pcd_three "euclidean" (qc (15 # 2)) 1%Z [] []).
  - simpl. left. reflexivity.
  - reflexivity.
  - vm_compute. reflexivity.
  - reflexivity.
  - constructor.
Defined.

(** *** Metric ['pD'] *)






Lemma distance_on_instances_Ok (r1 r2 : ref) (method : string) (v : pyval) :
  distance (VObj r1) (VObj r2) method = Ok v -> v = VNum (Rat 0%Qc).
Proof.
  unfold distance.
  repeat match goal with
         | |- context [String.eqb method ?s] => destruct (String.eqb method s)
         end;
    simpl; intros H; try discriminate H; now injection H.
Qed.

Lemma list_set_repeat {A : Type} (x : A) (n i : nat) :
  list_set (repeat x n) i x = repeat x n.
Proof.
  revert i. induction n as [|n IH]; intros [|i]; simpl; try reflexivity.
  now rewrite IH.
Qed.

(** X18.  [mode_estimate] with metric ['pD'] never returns a distance other
    than zero: when it returns, its result is the vector of zeros it started
    from, and either there is no mode or the method is none of the six that
    [distance] knows. *)
Theorem mode_estimate_pD_returns_only_zeros (h h' : heap) (dist : ref)
    (mode_dists : list ref) (method : string) (step : Qc) (v : list pynum) :
  mode_estimate dist mode_dists method "pD" step h = Ok (v, h') ->
  v = repeat (Rat 0%Qc) (length mode_dists) /\
  (mode_dists = [] \/ ~ In method recognised_methods).
Proof.
  intros H. split.
  - unfold mode_estimate in H. cbn [String.eqb Ascii.eqb Bool.eqb] in H.
    apply (mfold_invariant
             (fun (dv : list pynum) (_ : heap) =>
                dv = repeat (Rat 0%Qc) (length mode_dists))) in H;
      [exact H | | reflexivity].
    clear. intros dv i h dv' h' -> H.
    apply bind_Ok in H. destruct H as [d [h1 [_ H]]].
    apply bind_Ok in H. destruct H as [trial [h2 [_ H]]].
    apply bind_Ok in H. destruct H as [mode_i [h3 [_ H]]].
    apply bind_Ok in H. destruct H as [[t m] [h4 [_ H]]].
    apply bind_Ok in H. destruct H as [dval [h5 [E H]]].
    apply lift_Ok in E. destruct E as [E ->].
    apply distance_on_instances_Ok in E. subst dval.
    apply bind_Ok in H. destruct H as [x [h5 [E H]]].
    apply lift_Ok in E. destruct E as [E ->].
    injection E as <-.
    apply ret_Ok in H. destruct H as [-> ->].
    apply list_set_repeat.
  - destruct mode_dists as [|mode_0 others]; [now left|]. right.
    intros Hin.
    destruct (@mode_estimate_pD_recognised_method_raises h dist mode_0 others
                method step Hin) as [e He].
    congruence.
Qed.

Lemma mode_estimate_pD_returns_only_zeros_witness :
  exists v h',
    mode_estimate 0%nat [1%nat] "cosine" "pD" (qc (15 # 2)) heap_two
    = Ok (v, h') /\
    v = [Rat 0%Qc].
Proof.
  do 2 eexists. split; [by_evaluation|].
  eapply (@mode_estimate_pD_returns_only_zeros heap_two _ 0%nat [1%nat]
            "cosine" (qc (15 # 2))).
  by_evaluation.
Defined.

(** ** [distance] on two arrays *)

Lemma zip_with_comm {A B : Type} (f : A -> A -> B) (a b : list A) :
  (forall x y, f x y = f y x) -> zip_with f a b = zip_with f b a.
Proof.
  intros Hf. revert b. induction a as [|x a IH]; intros [|y b]; simpl;
    try reflexivity.
  now rewrite Hf, IH.
Qed.

Lemma Qcmin_comm (x y : Qc) : Qcmin x y = Qcmin y x.
Proof.
  unfold Qcmin.
  destruct (Qc_ltb y x) eqn:E1; destruct (Qc_ltb x y) eqn:E2;
    try reflexivity.
  - apply Qc_ltb_lt in E1. apply Qc_ltb_lt in E2.
    exfalso. apply (@Qclt_not_le _ _ E1). now apply Qclt_le_weak.
  - apply Qcle_antisym; apply Qcnot_lt_le; intros H;
      apply Qc_ltb_lt in H; congruence.
Qed.

(** X19.  [distance] is symmetric on two arrays of equal length, whatever
    the method: both orders return the same value or raise the same
    exception. *)
Theorem distance_symmetric (a b : list Qc) (method : string) :
  length a = length b ->
  distance (VArr a) (VArr b) method = distance (VArr b) (VArr a) method.
Proof.
  intros Hlen. unfold distance.
  destruct (String.eqb method "euclidean"); [reflexivity|].
  destruct (String.eqb method "manhattan"); [reflexivity|].
  destruct (String.eqb method "l3"); [reflexivity|].
  assert (Hb : forall f : Qc -> Qc -> Qc, (forall x y, f x y = f y x) ->
               np_elementwise f (VArr a) (VArr b)
               = np_elementwise f (VArr b) (VArr a)).
  { intros f Hf. unfold np_elementwise, np_broadcast.
    rewrite <- Hlen, Nat.eqb_refl. f_equal. now apply zip_with_comm. }
  destruct (String.eqb method "bhat").
  { now rewrite (Hb Qcmult Qcmult_comm). }
  destruct (String.eqb method "intersection").
  { rewrite (Hb Qcmin Qcmin_comm). simpl. now rewrite Hlen. }
  destruct (String.eqb method "corr"); [|reflexivity].
  unfold np_correlate.
  destruct a as [|x a]; destruct b as [|y b]; try discriminate Hlen;
    [reflexivity|].
  rewrite <- Hlen, Nat.leb_refl, Nat.sub_diag. cbn [Nat.add seq map skipn].
  unfold dot. now rewrite (zip_with_comm Qcmult (x :: a) (y :: b) Qcmult_comm).
Qed.

Lemma distance_symmetric_witness :
  distance (VArr (cents [1; 2]%Z)) (VArr (cents [3; 4]%Z)) "intersection"
  = distance (VArr (cents [3; 4]%Z)) (VArr (cents [1; 2]%Z)) "intersection".
Proof.
  apply distance_symmetric. reflexivity.
Defined.

(** ** [slice] *)

Lemma slice_step_Ok (time_track pitch_track : list Qc) (pt_source : string)
    (chunk_size ovl : Qc) (st st' : slice_state) (k : Z) :
  slice_step time_track pitch_track pt_source chunk_size ovl st k = Ok st' ->
  exists chunk info,
    chunks st' = chunks st ++ [chunk] /\
    chunk_info st' = chunk_info st ++ [info].
Proof.
  unfold slice_step, rbind. intros H.
  destruct (last_index_below time_track (chunk_size * Qc_of_Z k)%Qc)
    as [j|]; [|discriminate].
  destruct (py_getitem time_track (last st)); [|discriminate].
  destruct (py_getitem time_track (1 + j - 1)%Z); [|discriminate].
  destruct (Qc_ltb 0 ovl).
  - destruct (last_index_below time_track
                (chunk_size * Qc_of_Z k * (1 - ovl))%Qc); [|discriminate].
    injection H as <-. now eexists _, _.
  - injection H as <-. now eexists _, _.
Qed.

Lemma slice_loop_lengths (time_track pitch_track : list Qc)
    (pt_source : string) (chunk_size ovl : Qc) (ks : list Z)
    (st st' : slice_state) :
  rfold (slice_step time_track pitch_track pt_source chunk_size ovl) ks st
  = Ok st' ->
  length (chunks st') = (length (chunks st) + length ks)%nat /\
  length (chunk_info st') = (length (chunk_info st) + length ks)%nat.
Proof.
  revert st. induction ks as [|k ks IH]; intros st H; simpl in H.
  - injection H as <-. simpl. lia.
  - destruct (slice_step time_track pitch_track pt_source chunk_size ovl st k)
      as [st1|] eqn:E; [|discriminate].
    simpl in H. apply slice_step_Ok in E.
    destruct E as [chunk [info [Ec Ei]]].
    apply IH in H. rewrite Ec, Ei, !length_app in H. simpl in *. lia.
Qed.

(** X20.  When [slice] returns, its two lists are index-aligned: there are
    as many chunk descriptions as chunks.  Their number is the number of
    chunk boundaries visited, [int(max(time_track) / chunk_size)], or one
    more when a tail is kept. *)
Theorem slice_lists_are_aligned (time_track pitch_track : list Qc)
    (pt_source : string) (chunk_size threshold ovl : Qc)
    (cs : list (list Qc)) (infos : list chunk_info_t) :
  slice time_track pitch_track pt_source chunk_size threshold ovl
  = Ok (cs, infos) ->
  length cs = length infos /\
  exists n, boundaries time_track chunk_size = Ok n /\
            (length cs = n \/ length cs = S n).
Proof.
  unfold slice, boundaries. intros H.
  destruct (max_cents time_track) as [mx|]; [|discriminate].
  cbn [rbind] in *.
  destruct (Qc_eqb chunk_size 0); [discriminate|].
  destruct (rfold _ _ _) as [st|] eqn:Eloop; [|discriminate].
  apply slice_loop_lengths in Eloop. cbn [chunks chunk_info length] in Eloop.
  destruct Eloop as [Hc Hi].
  assert (Hn : length (arange_from_1 (py_int (mx / chunk_size)%Qc + 1))
               = Z.to_nat (py_int (mx / chunk_size)%Qc)).
  { unfold arange_from_1. rewrite length_map, length_seq. f_equal. lia. }
  rewrite Hn in Hc, Hi. cbn [rbind] in H.
  destruct (py_getitem time_track (last st)); [|discriminate].
  cbn [rbind] in H.
  destruct (py_getitem time_track (Z.of_nat (length time_track) - 1));
    [|discriminate].
  cbn [rbind] in H.
  destruct (Qc_leb _ _).
  - injection H as <- <-. rewrite !length_app. simpl.
    split; [lia|]. eexists. split; [reflexivity|]. right. lia.
  - destruct (last st =? 0)%Z; injection H as <- <-.
    + rewrite !length_app. simpl.
      split; [lia|]. eexists. split; [reflexivity|]. right. lia.
    + split; [lia|]. eexists. split; [reflexivity|]. left. lia.
Qed.

Lemma slice_lists_are_aligned_witness :
  exists cs infos,
    slice track_times track_pitches "recording" (qc 2) (qc (1 # 2)) (qc 0)
    = Ok (cs, infos) /\
    length cs = length infos.
Proof.
  do 2 eexists. split; [by_evaluation|].
  eapply (@slice_lists_are_aligned track_times track_pitches "recording"
            (qc 2) (qc (1 # 2)) (qc 0)).
  by_evaluation.
Defined.


(** *** Rational arithmetic behind the float operations *)

Lemma this_Q2Qc (q : Q) : (this (Q2Qc q) == q)%Q.
Proof. unfold Q2Qc. cbn [this]. apply Qred_correct. Qed.

Lemma this_plus (x y : Qc) : (this (x + y)%Qc == this x + this y)%Q.
Proof. unfold Qcplus. apply this_Q2Qc. Qed.

Lemma this_mult (x y : Qc) : (this (x * y)%Qc == this x * this y)%Q.
Proof. unfold Qcmult. apply this_Q2Qc. Qed.

Lemma this_opp (x : Qc) : (this (- x)%Qc == - this x)%Q.
Proof. unfold Qcopp. apply this_Q2Qc. Qed.


Lemma this_div (x y : Qc) : (this (x / y)%Qc == this x / this y)%Q.
Proof.
  unfold Qcdiv, Qcinv. rewrite this_mult, this_Q2Qc. reflexivity.
Qed.

Lemma this_of_Z (z : Z) : (this (Qc_of_Z z) == inject_Z z)%Q.
Proof. unfold Qc_of_Z. apply this_Q2Qc. Qed.

Lemma Qfloor_unit (x : Q) : (0 <= x)%Q -> (x < 1)%Q -> Qfloor x = 0%Z.
Proof.
  intros H0 H1.
  pose proof (Qfloor_le x) as Hlo. pose proof (Qlt_floor x) as Hhi.
  assert (Ha : (Qfloor x < 1)%Z).
  { rewrite Zlt_Qlt. eapply Qle_lt_trans; [exact Hlo | exact H1]. }
  assert (Hb : (0 < Qfloor x + 1)%Z).
  { rewrite Zlt_Qlt. eapply Qle_lt_trans; [exact H0 | exact Hhi]. }
  lia.
Qed.

Lemma Qc_ltb_ge (x y : Qc) : (y <= x)%Qc -> Qc_ltb x y = false.
Proof.
  intros H. destruct (Qc_ltb x y) eqn:E; [|reflexivity].
  apply Qc_ltb_lt in E. exfalso. now apply (@Qcle_not_lt _ _ H).
Qed.

Lemma py_int_unit (x : Qc) : (0 <= x)%Qc -> (x < 1)%Qc -> py_int x = 0%Z.
Proof.
  intros H0 H1. unfold py_int. rewrite (Qc_ltb_ge H0).
  apply Qfloor_unit; [exact H0 | exact H1].
Qed.

Lemma Qc_ratio_unit (x y : Qc) :
  (0 <= x)%Qc -> (x < y)%Qc -> (0 <= x / y)%Qc /\ (x / y < 1)%Qc.
Proof.
  unfold Qcle, Qclt. intros H0 H1.
  assert (Hy : (0 < this y)%Q) by (eapply Qle_lt_trans; [exact H0 | exact H1]).
  rewrite this_div. split.
  - apply Qle_shift_div_l; [exact Hy|]. now rewrite Qmult_0_l.
  - apply Qlt_shift_div_r; [exact Hy|]. now rewrite Qmult_1_l.
Qed.

Lemma max_cents_not_empty (l : list Qc) (mx : Qc) :
  max_cents l = Ok mx -> l <> [].
Proof. intros H ->. discriminate H. Qed.

Lemma py_getitem_last {A : Type} (l : list A) :
  l <> [] -> exists x, py_getitem l (Z.of_nat (length l) - 1) = Ok x.
Proof.
  intros Hl. unfold py_getitem.
  assert (Hlen : (0 < length l)%nat) by (destruct l; [congruence | simpl; lia]).
  destruct (Z.ltb_spec (Z.of_nat (length l) - 1) 0); [lia|].
  destruct (Z.ltb_spec (Z.of_nat (length l) - 1) 0); [lia|].
  destruct (nth_error l (Z.to_nat (Z.of_nat (length l) - 1))) as [x|] eqn:E.
  - now exists x.
  - apply nth_error_None in E. lia.
Qed.

(** X21.  A track that ends before the first chunk boundary is never
    dropped: when the largest timestamp is non-negative and below
    [chunk_size], [slice] returns exactly one chunk, the whole pitch track,
    whatever the threshold and the overlap. *)
Theorem slice_short_track_is_one_chunk (time_track pitch_track : list Qc)
    (pt_source : string) (chunk_size threshold ovl mx : Qc) :
  max_cents time_track = Ok mx ->
  (0 <= mx)%Qc ->
  (mx < chunk_size)%Qc ->
  exists info,
    slice time_track pitch_track pt_source chunk_size threshold ovl
    = Ok ([pitch_track], [info]).
Proof.
  intros Hmx H0 H1.
  destruct (Qc_ratio_unit H0 H1) as [Hr0 Hr1].
  pose proof (max_cents_not_empty Hmx) as Hne.
  destruct (py_getitem_last Hne) as [t_end Hend].
  assert (Hfirst : exists t0, py_getitem time_track 0 = Ok t0)
    by (destruct time_track as [|t0 l]; [congruence | now exists t0]).
  destruct Hfirst as [t0 Ht0].
  assert (Hcs : Qc_eqb chunk_size 0 = false).
  { destruct (Qc_eqb chunk_size 0) eqn:E; [|reflexivity].
    apply Qc_eqb_eq in E. subst chunk_size. exfalso.
    apply (@Qcle_not_lt _ _ H0 H1). }
  unfold slice. rewrite Hmx. cbn [rbind]. rewrite Hcs.
  rewrite (py_int_unit Hr0 Hr1). cbn [Z.add arange_from_1 Z.sub Z.to_nat].
  unfold arange_from_1. cbn [Z.sub Z.add Z.opp Z.pos_sub Z.to_nat seq map rfold
                             rbind last chunks chunk_info app].
  rewrite Ht0, Hend. cbn [rbind Z.eqb].
  assert (Hwhole : py_slice pitch_track (Some 0%Z) None = pitch_track).
  { unfold py_slice, slice_bound. simpl. rewrite Nat.sub_0_r.
    apply firstn_all. }
  rewrite Hwhole.
  destruct (Qc_leb _ _); eexists; reflexivity.
Qed.

Lemma slice_short_track_is_one_chunk_witness :
  exists info,
    slice track_times track_pitches "recording" (qc 60) (qc (1 # 2)) (qc 0)
    = Ok ([track_pitches], [info]).
Proof.
  apply (@slice_short_track_is_one_chunk track_times track_pitches "recording"
           (qc 60) (qc (1 # 2)) (qc 0) (qc 3)).
  - vm_compute. reflexivity.
  - vm_compute. discriminate.
  - vm_compute. reflexivity.
Defined.

(* ================================================================= *)
(** ** [generate_pd]: edges, bins and the returned instance *)

Lemma qc2 : qc 2 = (1 + 1)%Qc.
Proof. apply Qc_is_canon. reflexivity. Qed.
Lemma qc_half : qc (1 # 2) = (/ (1 + 1))%Qc.
Proof. apply Qc_is_canon. reflexivity. Qed.
Lemma two_nz : (1 + 1)%Qc <> 0%Qc.
Proof. intros H. apply (f_equal this) in H. vm_compute in H. discriminate H. Qed.

Lemma Qc_of_Z_add (a b : Z) : Qc_of_Z (a + b) = (Qc_of_Z a + Qc_of_Z b)%Qc.
Proof.
  apply Qc_is_canon. rewrite this_plus, !this_of_Z, inject_Z_plus. reflexivity.
Qed.
Lemma Qc_of_Z_opp (a : Z) : Qc_of_Z (- a) = (- Qc_of_Z a)%Qc.
Proof.
  apply Qc_is_canon. rewrite this_opp, !this_of_Z, inject_Z_opp. reflexivity.
Qed.
Lemma Qc_of_Z_1 : Qc_of_Z 1 = 1%Qc.
Proof. apply Qc_is_canon. reflexivity. Qed.
Lemma Qc_of_Z_0 : Qc_of_Z 0 = 0%Qc.
Proof. apply Qc_is_canon. reflexivity. Qed.

Lemma below_elem (s : Qc) (i : Z) :
  (half (- s) + Qc_of_Z i * (- s))%Qc = lower_edge s (- i).
Proof.
  unfold lower_edge, on_grid, half. rewrite Qc_of_Z_opp, qc2.
  field. exact two_nz.
Qed.
Lemma above_elem (s : Qc) (i : Z) :
  (half s + Qc_of_Z i * s)%Qc = lower_edge s (1 + i).
Proof.
  unfold lower_edge, on_grid, half. rewrite Qc_of_Z_add, Qc_of_Z_1, qc2.
  field. exact two_nz.
Qed.
Lemma midpoint (s : Qc) (a : Z) :
  (lower_edge s a * qc (1 # 2) + (lower_edge s (a + 1) * qc (1 # 2) + 0))%Qc = on_grid s a.
Proof.
  unfold lower_edge, on_grid, half. rewrite Qc_of_Z_add, Qc_of_Z_1, qc2, qc_half.
  field. exact two_nz.
Qed.

Lemma np_arange_Ok (start stop step : Qc) :
  Qc_eqb step 0 = false ->
  np_arange start stop step
  = Ok (map (fun i => (start + Qc_of_Z (Z.of_nat i) * step)%Qc)
            (seq 0 (arange_count start stop step))).
Proof. intros H. unfold np_arange. now rewrite H. Qed.

Lemma zrange_app (a : Z) (n m : nat) :
  zrange a n ++ zrange (a + Z.of_nat n) m = zrange a (n + m).
Proof.
  revert a. induction n as [|n IH]; intros a.
  - simpl. f_equal. lia.
  - rewrite !zrange_S. simpl. rewrite zrange_S. f_equal.
    rewrite <- IH. do 2 f_equal. lia.
Qed.

Lemma zrange_snoc (a : Z) (n : nat) :
  zrange a (S n) = zrange a n ++ [(a + Z.of_nat n)%Z].
Proof.
  rewrite <- Nat.add_1_r, <- zrange_app. f_equal.
  rewrite zrange_S. reflexivity.
Qed.

Lemma rev_neg_seq (n : nat) :
  rev (map (fun i => (- Z.of_nat i)%Z) (seq 0 n)) = zrange (1 - Z.of_nat n) n.
Proof.
  induction n as [|n IH]; [reflexivity|].
  rewrite seq_S, map_app, rev_app_distr. simpl rev. simpl app.
  rewrite IH, zrange_S. f_equal; [lia|]. f_equal. lia.
Qed.

Section Edges.
Variable s : Qc.
Hypothesis s_pos : (0 < s)%Qc.

Lemma s_not_zero : Qc_eqb s 0 = false.
Proof.
  destruct (Qc_eqb s 0) eqn:E; [|reflexivity].
  apply Qc_eqb_eq in E. exfalso. now apply (Qclt_not_eq _ _ s_pos).
Qed.

Lemma opp_s_not_zero : Qc_eqb (- s) 0 = false.
Proof.
  destruct (Qc_eqb (- s) 0) eqn:E; [|reflexivity].
  apply Qc_eqb_eq in E. exfalso. apply (Qclt_not_eq _ _ s_pos).
  rewrite <- (Qcopp_involutive s), E. reflexivity.
Qed.

Lemma lower_edge_eqb (a b : Z) :
  Qc_eqb (lower_edge s a) (lower_edge s b) = (a =? b)%Z.
Proof.
  rewrite <- (on_grid_eqb s_pos a b).
  destruct (Qc_eqb (on_grid s a) (on_grid s b)) eqn:E.
  - apply Qc_eqb_eq in E. apply Qc_eqb_eq. unfold lower_edge. now rewrite E.
  - destruct (Qc_eqb (lower_edge s a) (lower_edge s b)) eqn:E'; [|reflexivity].
    apply Qc_eqb_eq in E'. unfold lower_edge in E'.
    assert (H : on_grid s a = on_grid s b).
    { replace (on_grid s a) with (on_grid s a - half s + half s)%Qc by ring.
      rewrite E'. ring. }
    apply Qc_eqb_eq in H. congruence.
Qed.

Lemma np_contains_lower_edge (k : Z) (l : list Z) :
  np_contains (lower_edge s k) (map (lower_edge s) l) = existsb (Z.eqb k) l.
Proof.
  unfold np_contains. induction l as [|x l IH]; simpl; [reflexivity|].
  now rewrite lower_edge_eqb, IH.
Qed.

Lemma half_opp_is_edge : half (- s) = lower_edge s 0.
Proof.
  unfold lower_edge, on_grid, half. rewrite Qc_of_Z_0, qc2. field. exact two_nz.
Qed.

Lemma half_is_edge : half s = lower_edge s 1.
Proof.
  unfold lower_edge, on_grid, half. rewrite Qc_of_Z_1, qc2. field. exact two_nz.
Qed.

Lemma insert_lower_edge (nb na : nat) :
  (if np_contains (lower_edge s 0)
        (map (lower_edge s) (zrange (1 - Z.of_nat nb) (nb + na)))
   then map (lower_edge s) (zrange (1 - Z.of_nat nb) (nb + na))
   else lower_edge s 0
        :: map (lower_edge s) (zrange (1 - Z.of_nat nb) (nb + na)))
  = map (lower_edge s)
        (zrange (1 - Z.of_nat (Nat.max 1 nb)) (Nat.max 1 nb + na)).
Proof.
  rewrite np_contains_lower_edge, existsb_zrange.
  destruct nb as [|nb].
  - destruct (Z.leb_spec (1 - Z.of_nat 0) 0); [lia|]. cbn [andb].
    change (Nat.max 1 0) with 1%nat. cbn [Nat.add].
    rewrite zrange_S. cbn [map]. do 3 f_equal.
  - destruct (Z.leb_spec (1 - Z.of_nat (S nb)) 0); [|lia].
    destruct (Z.ltb_spec 0 (1 - Z.of_nat (S nb) + Z.of_nat (S nb + na)));
      [|lia].
    cbn [andb]. replace (Nat.max 1 (S nb)) with (S nb) by lia. reflexivity.
Qed.

Lemma append_upper_edge (nb na : nat) :
  (1 <= nb)%nat ->
  (if np_contains (lower_edge s 1)
        (map (lower_edge s) (zrange (1 - Z.of_nat nb) (nb + na)))
   then map (lower_edge s) (zrange (1 - Z.of_nat nb) (nb + na))
   else map (lower_edge s) (zrange (1 - Z.of_nat nb) (nb + na))
        ++ [lower_edge s 1])
  = map (lower_edge s) (zrange (1 - Z.of_nat nb) (nb + Nat.max 1 na)).
Proof.
  intros Hnb. rewrite np_contains_lower_edge, existsb_zrange.
  destruct (Z.leb_spec (1 - Z.of_nat nb) 1); [|lia]. cbn [andb].
  destruct na as [|na].
  - destruct (Z.ltb_spec 1 (1 - Z.of_nat nb + Z.of_nat (nb + 0))); [lia|].
    change (Nat.max 1 0) with 1%nat.
    rewrite Nat.add_0_r, Nat.add_1_r, zrange_snoc, map_app. cbn [map].
    do 3 f_equal. lia.
  - destruct (Z.ltb_spec 1 (1 - Z.of_nat nb + Z.of_nat (nb + S na))); [|lia].
    replace (Nat.max 1 (S na)) with (S na) by lia. reflexivity.
Qed.

Lemma generate_pd_edges_explicit (cent_track : list Qc) (mn mx : Qc) :
  min_cents cent_track = Ok mn ->
  max_cents cent_track = Ok mx ->
  generate_pd_edges cent_track s
  = Ok (bin_edges s
          (1 - Z.of_nat (Nat.max 1 (arange_count (half (- s)) (mn - half s) (- s))))
          (Nat.max 1 (arange_count (half (- s)) (mn - half s) (- s))
           + Nat.max 1 (arange_count (half s) (mx + half s) s) - 1)).
Proof.
  intros Hmn Hmx. unfold generate_pd_edges. rewrite Hmn, Hmx. cbn [rbind].
  rewrite (@np_arange_Ok (half (- s)) _ (- s)%Qc opp_s_not_zero).
  rewrite (@np_arange_Ok (half s) _ s s_not_zero).
  cbn [rbind].
  set (nb := arange_count (half (- s)) (mn - half s) (- s)).
  set (na := arange_count (half s) (mx + half s) s).
  assert (Hb : rev (map (fun i => (half (- s) + Qc_of_Z (Z.of_nat i) * - s)%Qc)
                        (seq 0 nb))
               = map (lower_edge s) (zrange (1 - Z.of_nat nb) nb)).
  { rewrite <- rev_neg_seq, map_rev, map_map. f_equal.
    apply map_ext. intros i. apply below_elem. }
  assert (Ha : map (fun i => (half s + Qc_of_Z (Z.of_nat i) * s)%Qc) (seq 0 na)
               = map (lower_edge s) (zrange 1 na)).
  { unfold zrange. rewrite map_map. apply map_ext. intros i. apply above_elem. }
  assert (E : rev (map (fun i => (half (- s) + Qc_of_Z (Z.of_nat i) * - s)%Qc)
                       (seq 0 nb))
              ++ map (fun i => (half s + Qc_of_Z (Z.of_nat i) * s)%Qc) (seq 0 na)
              = map (lower_edge s) (zrange (1 - Z.of_nat nb) (nb + na))).
  { rewrite Hb, Ha, <- map_app, <- zrange_app. do 3 f_equal. lia. }
  cbv zeta. rewrite E, half_opp_is_edge, half_is_edge.
  rewrite insert_lower_edge.
  rewrite append_upper_edge by lia.
  f_equal. unfold bin_edges. do 2 f_equal. lia.
Qed.
End Edges.

Lemma grid_S (s : Qc) (a : Z) (n : nat) :
  grid s a (S n) = on_grid s a :: grid s (a + 1) n.
Proof. unfold grid. now rewrite zrange_S. Qed.

Lemma length_grid (s : Qc) (a : Z) (n : nat) : length (grid s a n) = n.
Proof. unfold grid, zrange. now rewrite !length_map, length_seq. Qed.

Lemma convolve_edges (s : Qc) (n : nat) :
  forall a : Z,
    convolve_full (bin_edges s a n) [qc (1 # 2); qc (1 # 2)]
    = (lower_edge s a * qc (1 # 2) + 0)%Qc
      :: grid s a n ++ [(lower_edge s (a + Z.of_nat n) * qc (1 # 2))%Qc].
Proof.
  unfold bin_edges. induction n as [|n IH]; intros a.
  - rewrite zrange_S. cbn. rewrite Z.add_0_r. reflexivity.
  - rewrite zrange_S. cbn [map convolve_full]. rewrite (IH (a + 1)%Z).
    cbn [padd map]. rewrite grid_S. cbn [app].
    rewrite midpoint. do 3 f_equal.
    replace (a + 1 + Z.of_nat n)%Z with (a + Z.of_nat (S n))%Z by lia.
    reflexivity.
Qed.

Lemma generate_pd_bins_of_edges (s : Qc) (a : Z) (n : nat) :
  generate_pd_bins (bin_edges s a n) = Ok (grid s a n).
Proof.
  unfold generate_pd_bins, np_convolve.
  assert (Hne : exists x l, bin_edges s a n = x :: l).
  { unfold bin_edges. rewrite zrange_S. now eexists _, _. }
  destruct Hne as [x [l Hxl]]. rewrite Hxl, <- Hxl. cbn [rbind].
  rewrite convolve_edges. f_equal.
  unfold py_slice. cbn [length]. rewrite length_app, length_grid. cbn [length].
  unfold slice_bound. cbn [Z.ltb Z.compare].
  replace (Nat.min (Z.to_nat 1) (S (n + 1))) with 1%nat by lia.
  replace (Z.to_nat (Z.max 0 (Z.of_nat (S (n + 1)) + -1))) with (S n) by lia.
  cbn [skipn]. replace (S n - 1)%nat with n by lia.
  rewrite firstn_app, length_grid, Nat.sub_diag, firstn_all2
    by (rewrite length_grid; lia).
  cbn [firstn]. apply app_nil_r.
Qed.

Lemma Qceiling_le_1 (x : Q) : (x <= 1)%Q -> (Qceiling x <= 1)%Z.
Proof.
  intros H. pose proof (Qceiling_lt x) as Hlt.
  assert (Ha : (Qceiling x - 1 < 1)%Z).
  { rewrite Zlt_Qlt. eapply Qlt_le_trans; [exact Hlt | exact H]. }
  lia.
Qed.

Lemma Qceiling_pos (x : Q) : (0 < x)%Q -> (0 < Qceiling x)%Z.
Proof.
  intros H. pose proof (Qle_ceiling x) as Hle.
  rewrite Zlt_Qlt. eapply Qlt_le_trans; [exact H | exact Hle].
Qed.

Lemma Qceiling_nonpos (x : Q) : (x <= 0)%Q -> (Qceiling x <= 0)%Z.
Proof.
  intros H. pose proof (Qceiling_lt x) as Hlt.
  assert (Ha : (Qceiling x - 1 < 0)%Z).
  { rewrite Zlt_Qlt. eapply Qlt_le_trans; [exact Hlt | exact H]. }
  lia.
Qed.

Lemma min_max_cents_total (l : list Qc) :
  l <> [] -> exists mn mx, min_cents l = Ok mn /\ max_cents l = Ok mx.
Proof.
  destruct l as [|x l]; [congruence|]. intros _. now eexists _, _.
Qed.

Lemma generate_pd_edges_on_grid (cent_track : list Qc) (s : Qc) :
  (0 < s)%Qc ->
  cent_track <> [] ->
  exists (a : Z) (n : nat),
    generate_pd_edges cent_track s = Ok (bin_edges s a n) /\
    (a <= 0 < a + Z.of_nat n)%Z.
Proof.
  intros Hs Hne.
  destruct (min_max_cents_total Hne) as [mn [mx [Hmn Hmx]]].
  eexists _, _. split; [apply (generate_pd_edges_explicit Hs _ Hmn Hmx)|].
  lia.
Qed.



Lemma init_fields (b v : list Qc) (kw : Qc) (src : string) (rf : Qc)
    (seg : segment_t) (ovl : overlap_t) (p : PitchDistribution) :
  PitchDistribution_init b v kw src rf seg ovl = Ok p ->
  bins p = b /\ vals p = v /\ kernel_width p = kw /\ source p = src /\
  ref_freq p = rf /\ segmentation p = seg /\ overlap p = ovl.
Proof.
  unfold PitchDistribution_init.
  destruct (py_getitem b 1); [|discriminate].
  destruct (py_getitem b 0); [|discriminate].
  cbn [rbind]. intros H. injection H as <-. repeat split.
Qed.

Section GeneratePdRuns.
Variable np_histogram_density : list Qc -> list Qc -> result (list Qc).
Variable norm_pdf : Qc -> Qc -> Qc.
Variable simps : list Qc -> Qc -> result Qc.

Lemma generate_pd_Ok (cent_track : list Qc) (rf smooth_factor s : Qc)
    (src : string) (seg : segment_t) (ovl : overlap_t) (h h' : heap) (r : ref)
    (a : Z) (n : nat) :
  generate_pd_edges cent_track s = Ok (bin_edges s a n) ->
  generate_pd np_histogram_density norm_pdf simps
    cent_track rf smooth_factor s src seg ovl h = Ok (r, h') ->
  exists (p : PitchDistribution) (hv : list Qc),
    r = length h /\ h' = h ++ [p] /\
    np_histogram_density cent_track (bin_edges s a n) = Ok hv /\
    (if Qc_ltb 0 smooth_factor
     then smoothed_vals norm_pdf simps hv smooth_factor s
     else Ok hv) = Ok (vals p) /\
    length (vals p) = n /\
    PitchDistribution_init (grid s a n) (vals p) smooth_factor src rf seg ovl
    = Ok p.
Proof.
  intros Ee H. unfold generate_pd in H.
  apply bind_Ok in H. destruct H as [edges [h1 [E H]]].
  apply lift_Ok in E. destruct E as [Eedges ->].
  rewrite Ee in Eedges. injection Eedges as <-.
  apply bind_Ok in H. destruct H as [hv [h1 [E H]]].
  apply lift_Ok in E. destruct E as [Ehv ->].
  apply bind_Ok in H. destruct H as [pd_bins [h1 [E H]]].
  apply lift_Ok in E. destruct E as [E ->].
  rewrite generate_pd_bins_of_edges in E. injection E as <-.
  apply bind_Ok in H. destruct H as [pd_vals [h1 [E H]]].
  apply lift_Ok in E. destruct E as [Esm ->].
  destruct (Nat.eqb_spec (length (grid s a n)) (length pd_vals)) as [Hlen|_];
    [|discriminate H].
  cbn [negb] in H.
  apply new_PitchDistribution_Ok in H. destruct H as [p [Hinit [-> ->]]].
  destruct (init_fields _ _ _ _ _ _ _ Hinit) as [_ [Hv _]].
  rewrite length_grid in Hlen.
  exists p, hv. rewrite Hv. repeat split; try assumption. now symmetry.
Qed.

Lemma generate_pd_instance (cent_track : list Qc)
    (rf smooth_factor s : Qc) (src : string) (seg : segment_t)
    (ovl : overlap_t) (h h' : heap) (r : ref) :
  (0 < s)%Qc ->
  generate_pd np_histogram_density norm_pdf simps
    cent_track rf smooth_factor s src seg ovl h = Ok (r, h') ->
  exists (p : PitchDistribution) (a : Z) (n : nat),
    r = length h /\ h' = h ++ [p] /\
    constructed p /\
    bins p = grid s a n /\
    (a <= 0 < a + Z.of_nat n)%Z /\
    (2 <= n)%nat /\
    length (vals p) = n /\
    kernel_width p = smooth_factor /\ ref_freq p = rf /\ source p = src /\
    segmentation p = seg /\ overlap p = ovl.
Proof.
  intros Hs H.
  assert (Hne : cent_track <> []).
  { intros ->. discriminate H. }
  destruct (generate_pd_edges_on_grid Hs Hne) as [a [n [Ee Han]]].
  destruct (generate_pd_Ok _ _ _ _ _ _ _ Ee H)
    as [p [hv [-> [-> [_ [_ [Hlen Hinit]]]]]]].
  pose proof (init_constructed _ _ _ _ _ _ _ Hinit) as Hc.
  destruct (init_fields _ _ _ _ _ _ _ Hinit)
    as [Hb [Hv [Hk [Hsrc [Hrf [Hseg Hovl]]]]]].
  pose proof (constructed_two_bins Hc) as H2.
  rewrite Hb, length_grid in H2.
  exists p, a, n. repeat split; try assumption; lia.
Qed.

End GeneratePdRuns.


Lemma Qc_pos_nz (s : Qc) : (0 < s)%Qc -> s <> 0%Qc.
Proof. intros H E. rewrite E in H. exact (Qclt_not_eq _ _ H eq_refl). Qed.

Lemma arange_count_le_1 (start stop step x y : Qc) :
  ((stop - start) / step = x / y)%Qc -> (0 < y)%Qc -> (x <= y)%Qc ->
  (arange_count start stop step <= 1)%nat.
Proof.
  intros E Hy Hxy. unfold arange_count. rewrite E.
  assert (H : (Qceiling (x / y)%Qc <= 1)%Z).
  { apply Qceiling_le_1. rewrite this_div.
    apply Qle_shift_div_r; [exact Hy|]. rewrite Qmult_1_l. exact Hxy. }
  lia.
Qed.

Lemma arange_count_ge_1 (start stop step x y : Qc) :
  ((stop - start) / step = x / y)%Qc -> (0 < y)%Qc -> (0 < x)%Qc ->
  (1 <= arange_count start stop step)%nat.
Proof.
  intros E Hy Hx. unfold arange_count. rewrite E.
  assert (H : (0 < Qceiling (x / y)%Qc)%Z).
  { apply Qceiling_pos. rewrite this_div.
    apply Qlt_shift_div_l; [exact Hy|]. rewrite Qmult_0_l. exact Hx. }
  lia.
Qed.

Lemma arange_count_0 (start stop step x y : Qc) :
  ((stop - start) / step = x / y)%Qc -> (0 < y)%Qc -> (x <= 0)%Qc ->
  arange_count start stop step = 0%nat.
Proof.
  intros E Hy Hx. unfold arange_count. rewrite E.
  assert (H : (Qceiling (x / y)%Qc <= 0)%Z).
  { apply Qceiling_nonpos. rewrite this_div.
    apply Qle_shift_div_r; [exact Hy|]. rewrite Qmult_0_l. exact Hx. }
  lia.
Qed.


Lemma Qcopp_nz (s : Qc) : s <> 0%Qc -> (- s)%Qc <> 0%Qc.
Proof.
  intros H E. apply H. rewrite <- (Qcopp_involutive s), E. reflexivity.
Qed.






Lemma py_slice_empty {A : Type} (l : list A) (k : Z) :
  py_slice l (Some k) (Some k) = [].
Proof. unfold py_slice. now rewrite Nat.sub_diag. Qed.

Section GeneratePdRaises.
Variable np_histogram_density : list Qc -> list Qc -> result (list Qc).
Variable norm_pdf : Qc -> Qc -> Qc.
Variable simps : list Qc -> Qc -> result Qc.


Lemma smoothed_vals_narrow_kernel (pd_vals : list Qc) (smooth_factor s : Qc)
    (r : list Qc) :
  (0 < s)%Qc -> (0 < smooth_factor)%Qc -> (qc 5 * smooth_factor <= s)%Qc ->
  smoothed_vals norm_pdf simps pd_vals smooth_factor s = Ok r -> r = [].
Proof.
  intros Hs Hk Hn. unfold smoothed_vals.
  assert (H5 : (0 < qc 5 * smooth_factor)%Qc).
  { unfold Qclt. rewrite this_mult.
    apply Qmult_lt_0_compat; [reflexivity | exact Hk]. }
  rewrite (@np_arange_Ok _ _ _ (opp_s_not_zero Hs)),
          (@np_arange_Ok _ _ _ (s_not_zero Hs)).
  cbn [rbind].
  assert (Eb : arange_count 0 (- (qc 5 * smooth_factor)) (- s) = 1%nat).
  { assert (R : ((- (qc 5 * smooth_factor) - 0) / - s
                 = (qc 5 * smooth_factor) / s)%Qc).
    { field. split; auto using Qc_pos_nz, Qcopp_nz. }
    pose proof (arange_count_le_1 R Hs Hn).
    pose proof (arange_count_ge_1 R Hs H5). lia. }
  assert (Ea : arange_count s (qc 5 * smooth_factor) s = 0%nat).
  { apply (@arange_count_0 _ _ _ (qc 5 * smooth_factor - s)%Qc s eq_refl Hs).
    unfold Qcminus. rewrite <- (Qcplus_opp_r s).
    apply Qcplus_le_compat; [exact Hn | apply Qcle_refl]. }
  rewrite Eb, Ea. cbn [seq map rev app length Z.of_nat].
  destruct (np_convolve pd_vals _) as [conv|e]; [|discriminate].
  cbn [rbind].
  change (Z.of_nat 1 / 2)%Z with 0%Z.
  change (- 0)%Z with 0%Z. rewrite py_slice_empty.
  destruct (simps [] s) as [area|e]; [|discriminate].
  cbn [rbind map]. intros H. now injection H as <-.
Qed.

(** X25.  A kernel of at most a fifth of the step never works.  With
    [0 < smooth_factor] and [5 * smooth_factor <= step_size] the kernel is
    sampled at the single point 0, [extra_num_bins] is 0, the slice
    [[0:-0]] is empty, and [generate_pd] raises on every track. *)
Theorem generate_pd_narrow_kernel_raises (cent_track : list Qc)
    (rf smooth_factor s : Qc) (src : string) (seg : segment_t)
    (ovl : overlap_t) (h : heap) :
  (0 < s)%Qc -> (0 < smooth_factor)%Qc -> (qc 5 * smooth_factor <= s)%Qc ->
  exists e : exn,
    generate_pd np_histogram_density norm_pdf simps
      cent_track rf smooth_factor s src seg ovl h = Raise e.
Proof.
  intros Hs Hk Hn.
  destruct (generate_pd np_histogram_density norm_pdf simps
              cent_track rf smooth_factor s src seg ovl h) as [[r h']|e] eqn:E;
    [|now exists e].
  exfalso.
  assert (Hne : cent_track <> []).
  { intros ->. discriminate E. }
  destruct (generate_pd_edges_on_grid Hs Hne) as [a [n [Ee Han]]].
  destruct (generate_pd_Ok _ _ _ _ _ _ _ _ _ _ Ee E)
    as [p [hv [_ [_ [_ [Hsm [Hlen _]]]]]]].
  rewrite (proj2 (Qc_ltb_lt _ _) Hk) in Hsm.
  apply (smoothed_vals_narrow_kernel _ Hs Hk Hn) in Hsm.
  rewrite Hsm in Hlen. cbn [length] in Hlen. lia.
Qed.
End GeneratePdRaises.


Lemma generate_pd_narrow_kernel_raises_witness :
  exists e : exn,
    generate_pd density_of_counts flat_pdf rectangle_rule
      track_cents (qc 440) (qc 2) (qc 10) "recording" SegAll
      OverlapNone [] = Raise e.
Proof.
  apply (@generate_pd_narrow_kernel_raises density_of_counts flat_pdf
           rectangle_rule track_cents (qc 440) (qc 2) (qc 10) "recording"
           SegAll OverlapNone []).
  - reflexivity.
  - reflexivity.
  - vm_compute. discriminate.
Defined.

(* ================================================================= *)
(** ** [generate_pd]: when it returns *)








Section Smoothing.
Variable norm_pdf : Qc -> Qc -> Qc.
Variable simps : list Qc -> Qc -> result Qc.

End Smoothing.





Section GeneratePdReturns.
Variable np_histogram_density : list Qc -> list Qc -> result (list Qc).
Variable norm_pdf : Qc -> Qc -> Qc.
Variable simps : list Qc -> Qc -> result Qc.

End GeneratePdReturns.


(* ================================================================= *)
(** ** [hz_to_cent], and [generate_pd] followed by [pd_zero_pad] *)

Lemma filter_none {A : Type} (f : A -> bool) (l : list A) :
  Forall (fun x => f x = false) l -> filter f l = [].
Proof.
  induction 1 as [|x l Hx _ IH]; [reflexivity|]. cbn [filter].
  now rewrite Hx.
Qed.

Section HzToCent.
Variable np_histogram_density : list Qc -> list Qc -> result (list Qc).
Variable norm_pdf : Qc -> Qc -> Qc.
Variable simps : list Qc -> Qc -> result Qc.
Variable np_log2 : Qc -> Qc.

(** X27.  [hz_to_cent] drops every sample that is not positive; on a track
    without a positive sample (silence) it returns the empty array, on which
    [generate_pd] raises [ValueError] ([min] of an empty sequence). *)
Theorem hz_to_cent_of_silence_stops_generate_pd (hz_track : list Qc)
    (ref_freq rf smooth_factor s : Qc) (src : string) (seg : segment_t)
    (ovl : overlap_t) (h : heap) :
  Forall (fun hz => (hz <= 0)%Qc) hz_track ->
  hz_to_cent np_log2 hz_track ref_freq = [] /\
  generate_pd np_histogram_density norm_pdf simps
    (hz_to_cent np_log2 hz_track ref_freq) rf smooth_factor s src seg ovl h
  = Raise ValueError.
Proof.
  intros H.
  assert (E : hz_to_cent np_log2 hz_track ref_freq = []).
  { unfold hz_to_cent. rewrite filter_none; [reflexivity|].
    eapply Forall_impl; [|exact H]. intros hz Hhz. now apply Qc_ltb_ge. }
  split; [exact E|]. rewrite E. reflexivity.
Qed.

End HzToCent.

Lemma hz_to_cent_of_silence_stops_generate_pd_witness :
  hz_to_cent (fun x : Qc => x) [qc 0; qc 0] (qc 440) = [] /\
  generate_pd density_of_counts flat_pdf rectangle_rule
    (hz_to_cent (fun x : Qc => x) [qc 0; qc 0] (qc 440))
    (qc 440) (qc 0) (qc 10) "recording" SegAll OverlapNone []
  = Raise ValueError.
Proof.
  apply (@hz_to_cent_of_silence_stops_generate_pd density_of_counts flat_pdf
           rectangle_rule (fun x : Qc => x) [qc 0; qc 0] (qc 440) (qc 440)
           (qc 0) (qc 10) "recording" SegAll OverlapNone []).
  repeat constructor; vm_compute; discriminate.
Defined.

Section GeneratePdAligns.
Variable np_histogram_density : list Qc -> list Qc -> result (list Qc).
Variable norm_pdf : Qc -> Qc -> Qc.
Variable simps : list Qc -> Qc -> result Qc.

(** X28.  Two distributions generated with one step can always be aligned.
    After two calls of [generate_pd] with the same positive step,
    [pd_zero_pad] on the two results returns, only pads their values with
    zeros, and leaves both with the same number of values. *)
Theorem generate_pd_outputs_can_be_aligned (track1 track2 : list Qc)
    (rf1 rf2 k1 k2 s step : Qc) (src1 src2 : string) (seg1 seg2 : segment_t)
    (ovl1 ovl2 : overlap_t) (h h1 h2 : heap) (r1 r2 : ref) :
  (0 < s)%Qc ->
  generate_pd np_histogram_density norm_pdf simps
    track1 rf1 k1 s src1 seg1 ovl1 h = Ok (r1, h1) ->
  generate_pd np_histogram_density norm_pdf simps
    track2 rf2 k2 s src2 seg2 ovl2 h1 = Ok (r2, h2) ->
  exists (p m p' m' : PitchDistribution) (h3 : heap),
    nth_error h2 r1 = Some p /\ nth_error h2 r2 = Some m /\
    pd_zero_pad r1 r2 step h2 = Ok ((r1, r2), h3) /\
    nth_error h3 r1 = Some p' /\ nth_error h3 r2 = Some m' /\
    zero_padded (vals p) (vals p') /\ zero_padded (vals m) (vals m') /\
    length (vals p') = length (vals m').
Proof.
  intros Hs G1 G2.
  destruct (@generate_pd_instance np_histogram_density norm_pdf simps
              _ _ _ _ _ _ _ _ _ _ Hs G1)
    as [p [a1 [n1 [-> [-> [_ [Hbp [Ha1 [_ [Hvp _]]]]]]]]]].
  destruct (@generate_pd_instance np_histogram_density norm_pdf simps
              _ _ _ _ _ _ _ _ _ _ Hs G2)
    as [m [a2 [n2 [-> [-> [_ [Hbm [Ha2 [_ [Hvm _]]]]]]]]]].
  assert (Hp : nth_error ((h ++ [p]) ++ [m]) (length h) = Some p).
  { apply nth_error_weaken, nth_error_snoc. }
  assert (Hm : nth_error ((h ++ [p]) ++ [m]) (length (h ++ [p])) = Some m).
  { apply nth_error_snoc. }
  assert (Hne : length h <> length (h ++ [p])).
  { rewrite length_app. cbn [length]. lia. }
  assert (Hn1 : (0 < n1)%nat) by lia.
  assert (Hn2 : (0 < n2)%nat) by lia.
  pose proof (@pd_zero_pad_run _ _ _ p m s step a1 a2 n1 n2
                Hne Hp Hm Hs Hbp Hbm Hn1 Hn2) as Hrun.
  eexists p, m, _, _, _.
  split; [exact Hp|]. split; [exact Hm|]. split; [exact Hrun|].
  split.
  { rewrite nth_error_list_set_neq by congruence.
    apply (@nth_error_list_set_eq _ _ _ _ p Hp). }
  split.
  { eapply nth_error_list_set_eq. rewrite nth_error_list_set_neq by exact Hne.
    exact Hm. }
  cbn [vals with_vals].
  split; [now eexists _, _|]. split; [now eexists _, _|].
  rewrite !length_app, !length_zeros, Hvp, Hvm.
  unfold missing_below, missing_above. lia.
Qed.
End GeneratePdAligns.

Lemma generate_pd_outputs_can_be_aligned_witness :
  exists (r1 r2 : ref) (h1 h2 : heap),
    generate_pd density_of_counts flat_pdf rectangle_rule
      track_cents (qc 440) (qc 0) (qc 10) "recording" SegAll
      OverlapNone [] = Ok (r1, h1) /\
    generate_pd density_of_counts flat_pdf rectangle_rule
      (cents [0; 35]%Z) (qc 220) (qc 0) (qc 10) "template" SegAll
      OverlapNone h1 = Ok (r2, h2) /\
    exists (p m p' m' : PitchDistribution) (h3 : heap),
      nth_error h2 r1 = Some p /\ nth_error h2 r2 = Some m /\
      pd_zero_pad r1 r2 (qc 10) h2 = Ok ((r1, r2), h3) /\
      nth_error h3 r1 = Some p' /\ nth_error h3 r2 = Some m' /\
      zero_padded (vals p) (vals p') /\ zero_padded (vals m) (vals m') /\
      length (vals p') = length (vals m').
Proof.
  do 4 eexists. split; [by_evaluation|]. split; [by_evaluation|].
  eapply (@generate_pd_outputs_can_be_aligned density_of_counts flat_pdf
            rectangle_rule track_cents (cents [0; 35]%Z) (qc 440) (qc 220)
            (qc 0) (qc 0) (qc 10) (qc 10) "recording" "template"
            SegAll SegAll OverlapNone OverlapNone []).
  - reflexivity.
  - by_evaluation.
  - by_evaluation.
Defined.

(* ================================================================= *)
(** ** [generate_pcd] *)

Lemma Qfloor_unique (x : Q) (k : Z) :
  (inject_Z k <= x)%Q -> (x < inject_Z k + 1)%Q -> Qfloor x = k.
Proof.
  intros Hlo Hhi.
  pose proof (Qfloor_le x) as H1. pose proof (Qlt_floor x) as H2.
  rewrite inject_Z_plus in H2. change (inject_Z 1) with 1%Q in H2.
  assert (A : (Qfloor x < k + 1)%Z).
  { rewrite Zlt_Qlt, inject_Z_plus. change (inject_Z 1) with 1%Q. lra. }
  assert (B : (k < Qfloor x + 1)%Z).
  { rewrite Zlt_Qlt, inject_Z_plus. change (inject_Z 1) with 1%Q. lra. }
  lia.
Qed.














Section OctaveWrapping.
Variable b v : list Qc.
Variable s : Qc.
Variable N : nat.
Hypothesis s_pos : (0 < s)%Qc.
Hypothesis N_bins : (Qc_of_Z (Z.of_nat N) * s = qc 1200)%Qc.

End OctaveWrapping.



(* ================================================================= *)
(** ** [detect_peaks] *)

Lemma np_delete_last {A : Type} (a : list A) :
  a <> [] -> np_delete a (Z.of_nat (length a) - 1) = Ok (removelast a).
Proof.
  intros Ha. unfold np_delete.
  assert (Hl : (0 < length a)%nat) by (destruct a; [congruence | cbn; lia]).
  destruct (Z.ltb_spec (Z.of_nat (length a) - 1) 0); [lia|].
  destruct (Z.ltb_spec (Z.of_nat (length a) - 1) 0); [lia|].
  destruct (Z.leb_spec (Z.of_nat (length a)) (Z.of_nat (length a) - 1)); [lia|].
  cbn [orb]. f_equal.
  replace (S (Z.to_nat (Z.of_nat (length a) - 1))) with (length a) by lia.
  rewrite skipn_all, app_nil_r, removelast_firstn_len. f_equal. lia.
Qed.

Lemma peak_index_in_range (n : nat) (bn : Qc) :
  (0 < n)%nat -> (0 <= bn)%Qc -> (bn <= 1)%Qc ->
  exists k : Z, peak_index n bn = Qc_of_Z k /\ (0 <= k <= Z.of_nat n - 1)%Z.
Proof.
  intros Hn H0 H1. unfold peak_index, py_round.
  set (L := (Z.of_nat n - 1)%Z).
  assert (HL : (0 <= inject_Z L)%Q).
  { change 0%Q with (inject_Z 0). rewrite <- Zle_Qle. unfold L. lia. }
  unfold Qcle in H0, H1. change (this (Q2Qc 0)) with 0%Q in H0.
  change (this 1%Qc) with 1%Q in H1.
  assert (Hx0 : (0 <= this bn * inject_Z L)%Q).
  { apply Qmult_le_0_compat; assumption. }
  assert (Hx1 : (this bn * inject_Z L <= 1 * inject_Z L)%Q).
  { apply Qmult_le_compat_r; assumption. }
  assert (Hpos : Qc_ltb (bn * Qc_of_Z L) 0 = false).
  { apply Qc_ltb_ge. unfold Qcle. rewrite this_mult, this_of_Z. exact Hx0. }
  rewrite Hpos. eexists. split; [reflexivity|].
  set (y := (bn * Qc_of_Z L + qc (1 # 2))%Qc).
  assert (Hy : (this y == this bn * inject_Z L + (1 # 2))%Q).
  { unfold y. rewrite this_plus, this_mult, this_of_Z. reflexivity. }
  split.
  - change 0%Z with (Qfloor 0). apply Qfloor_resp_le. rewrite Hy. lra.
  - replace L with (Qfloor (inject_Z L + (1 # 2))).
    + apply Qfloor_resp_le. rewrite Hy. lra.
    + apply Qfloor_unique; lra.
Qed.

Section DetectPeaksFacts.
Variable peak_detection : list Qc -> list Qc * list Qc.

(** X30.  [detect_peaks].  Let the detector report positions in [[0, 1]]
    with one amplitude each, on an instance that satisfies the class
    invariant.  Without any peak [detect_peaks] raises [IndexError].
    Otherwise every position is turned into a whole index of a bin, and
    when the first index is 0 it is the last peak that is removed from both
    results, while index 0 stays. *)
Theorem detect_peaks_indices (h : heap) (self : ref) (p : PitchDistribution)
    (peak_bins peak_vals : list Qc) :
  nth_error h self = Some p ->
  constructed p ->
  peak_detection (vals p) = (peak_bins, peak_vals) ->
  Forall (fun bn => (0 <= bn)%Qc /\ (bn <= 1)%Qc) peak_bins ->
  length peak_vals = length peak_bins ->
  match peak_bins with
  | [] => detect_peaks peak_detection self h = Raise IndexError
  | first :: _ =>
      let all_idxs := map (peak_index (length (bins p))) peak_bins in
      Forall (fun i => exists k : Z,
                i = Qc_of_Z k /\ (0 <= k < Z.of_nat (length (bins p)))%Z)
             all_idxs /\
      detect_peaks peak_detection self h
      = if Qc_eqb (peak_index (length (bins p)) first) 0
        then Ok ((removelast all_idxs, removelast peak_vals), h)
        else Ok ((all_idxs, peak_vals), h)
  end.
Proof.
  intros Hp Hc Hdet Hrange Hlen.
  pose proof (constructed_two_bins Hc) as Hn.
  destruct peak_bins as [|first rest].
  - unfold detect_peaks, bind, deref, lift. now rewrite Hp, Hdet.
  - cbv zeta. split.
    + apply Forall_map. eapply Forall_impl; [|exact Hrange].
      intros bn [H0 H1].
      destruct (@peak_index_in_range (length (bins p)) bn) as [k [E Hk]];
        try assumption; try lia.
      exists k. split; [exact E | lia].
    + unfold detect_peaks, bind, deref, lift, ret. rewrite Hp, Hdet.
      cbn [map]. 
      change (py_getitem (peak_index (length (bins p)) first
                          :: map (peak_index (length (bins p))) rest) 0)
        with (Ok (A:=Qc) (peak_index (length (bins p)) first)).
      cbv beta iota.
      destruct (Qc_eqb (peak_index (length (bins p)) first) 0);
        [|reflexivity].
      rewrite np_delete_last by discriminate.
      rewrite np_delete_last; [reflexivity|].
      intros E. rewrite E in Hlen. discriminate Hlen.
Qed.
End DetectPeaksFacts.

Lemma detect_peaks_indices_witness :
  Forall (fun i => exists k : Z,
            i = Qc_of_Z k /\ (0 <= k < Z.of_nat (length (bins pd_octaves)))%Z)
         (map (peak_index (length (bins pd_octaves)))
              [qc 0; qc (1 # 2); qc 1]) /\
  detect_peaks (peaks_at [qc 0; qc (1 # 2); qc 1] (cents [1; 3; 5]%Z))
    0%nat [pd_octaves]
  = if Qc_eqb (peak_index (length (bins pd_octaves)) (qc 0)) 0
    then Ok ((removelast (map (peak_index (length (bins pd_octaves)))
                              [qc 0; qc (1 # 2); qc 1]),
              removelast (cents [1; 3; 5]%Z)), [pd_octaves])
    else Ok ((map (peak_index (length (bins pd_octaves)))
                  [qc 0; qc (1 # 2); qc 1],
              cents [1; 3; 5]%Z), [pd_octaves]).
Proof.
  apply (@detect_peaks_indices
           (peaks_at [qc 0; qc (1 # 2); qc 1] (cents [1; 3; 5]%Z))
           [pd_octaves] 0%nat pd_octaves
           [qc 0; qc (1 # 2); qc 1] (cents [1; 3; 5]%Z)).
  - reflexivity.
  - by_evaluation.
  - reflexivity.
  - repeat constructor; vm_compute; discriminate.
  - reflexivity.
Defined.
